(** * Outages scraper ([code/scrape.py]): model and verification

    The scraper walks a quadtree of map tiles for one snapshot time,
    collects the outage records it finds, normalises them and stores
    them in SQLite together with the progress cursor of the job.

    The Python program is embedded function by function.  External
    collaborators ([requests], [pyquadkey2], [pypolyline], [zoneinfo],
    [datetime.fromisoformat], [config.json]) are gathered in the record
    [Env]; the process-wide state ([n_requests], the requests issued and
    the sleeps taken) is threaded through a state-and-exception monad. *)

From Stdlib Require Import ZArith QArith Qround List String Ascii Bool Lia.
From Stdlib Require Import DecimalString Finite Lqa Qabs.
Import ListNotations.
Local Open Scope string_scope.
Local Open Scope list_scope.
Local Open Scope Z_scope.

Set Warnings "-register-all".

(* ================================================================== *)
(** * Tiles ([pyquadkey2.quadkey.QuadKey]) *)
(* ================================================================== *)

(** A quadkey is a string of the digits 0..3; two keys are equal when
    their strings are. *)
Inductive quadrant := Q0 | Q1 | Q2 | Q3.

Definition QuadKey := list quadrant.

Inductive TileAnchor :=
  ANCHOR_NW | ANCHOR_NE | ANCHOR_SW | ANCHOR_SE | ANCHOR_CENTER.

Definition quadrant_eqb (a b : quadrant) : bool :=
  match a, b with
  | Q0, Q0 | Q1, Q1 | Q2, Q2 | Q3, Q3 => true
  | _, _ => false
  end.

Fixpoint quadkey_eqb (a b : QuadKey) : bool :=
  match a, b with
  | [], [] => true
  | x :: a', y :: b' => quadrant_eqb x y && quadkey_eqb a' b'
  | _, _ => false
  end.

Definition quadrant_eq_dec (a b : quadrant) : {a = b} + {a <> b}.
Proof. decide equality. Defined.

Definition quadkey_eq_dec : forall a b : QuadKey, {a = b} + {a <> b} :=
  list_eq_dec quadrant_eq_dec.

(** [child in tiles] on a Python list of quadkeys. *)
Definition quadkey_in (c : QuadKey) (tiles : list QuadKey) : bool :=
  existsb (quadkey_eqb c) tiles.

(** Modelled from the spec: [QuadKey.children()] of pyquadkey2 is not
    part of the repository; "each tile has exactly four children
    covering its four geographic quadrants", the key of a child being
    the key of its parent followed by one digit. *)
Definition children (tile : QuadKey) : list QuadKey :=
  map (fun k => tile ++ [k]) [Q0; Q1; Q2; Q3].

(** [a] is an ancestor of [b], or [b] itself. *)
Fixpoint is_prefix (a b : QuadKey) : bool :=
  match a, b with
  | [], _ => true
  | x :: a', y :: b' => quadrant_eqb x y && is_prefix a' b'
  | _ :: _, [] => false
  end.

(* ================================================================== *)
(** * Dates and times ([datetime], [zoneinfo]) *)
(* ================================================================== *)

(** Every [datetime] of the program is aware and carries the time zone
    of the site, and every one is a whole number of seconds.  It is
    kept as its wall clock, in seconds from 1970-01-01T00:00 of the
    local calendar, and its [fold] flag.  A [timedelta] is a number of
    seconds. *)
Record datetime := { wall : Z; fold : bool }.

(** The two methods of a [tzinfo] the program relies on. *)
Record tzinfo := {
  utcoffset : Z -> bool -> Z;   (* offset, in seconds, at a wall clock *)
  fromutc   : Z -> datetime     (* local datetime of an instant *)
}.

(** [dt + delta]: wall-clock arithmetic; the result has [fold = 0]. *)
Definition dt_add (dt : datetime) (delta : Z) : datetime :=
  {| wall := wall dt + delta; fold := false |}.

(** [a - b] for two datetimes of the same [tzinfo]: the difference of
    the wall clocks, no zone adjustment. *)
Definition dt_sub (a b : datetime) : Z := wall a - wall b.

(** [int(dt.timestamp())]. *)
Definition timestamp (tz : tzinfo) (dt : datetime) : Z :=
  wall dt - utcoffset tz (wall dt) (fold dt).

(** [datetime.fromtimestamp(ts, tz)]. *)
Definition fromtimestamp (tz : tzinfo) (ts : Z) : datetime := fromutc tz ts.

(** Days from 1970-01-01 to the given day of the proleptic Gregorian
    calendar. *)
Definition days_from_civil (y m d : Z) : Z :=
  let y' := if m <=? 2 then y - 1 else y in
  let era := y' / 400 in
  let yoe := y' - era * 400 in
  let mp := (m + 9) mod 12 in
  let doy := (153 * mp + 2) / 5 + d - 1 in
  let doe := yoe * 365 + yoe / 4 - yoe / 100 + doy in
  era * 146097 + doe - 719468.

Record date := { year : Z; month : Z; day : Z }.

(** [datetime.combine(d, Time(), tz)]: midnight of the day. *)
Definition combine_midnight (d : date) : datetime :=
  {| wall := days_from_civil (year d) (month d) (day d) * 86400; fold := false |}.

(** A zone given, as in a TZif file, by its offset before the first
    transition and the list of its transitions (instant, offset from
    then on), in increasing order.  The look-up by wall clock follows
    [zoneinfo]: with [fold = 0] a transition takes effect at the later
    of its two local readings, with [fold = 1] at the earlier. *)
Fixpoint find_trans (pick : Z -> Z -> Z) (prev : Z) (trans : list (Z * Z))
    (w : Z) : Z :=
  match trans with
  | [] => prev
  | (t, off) :: rest =>
      if w <? t + pick prev off then prev else find_trans pick off rest w
  end.

Fixpoint find_utc (prev : Z) (folded : bool) (trans : list (Z * Z)) (ts : Z)
    : Z * bool :=
  match trans with
  | [] => (prev, folded)
  | (t, off) :: rest =>
      if ts <? t then (prev, folded)
      else find_utc off (ts - t <? prev - off) rest ts
  end.

Definition zone (before : Z) (trans : list (Z * Z)) : tzinfo :=
  {| utcoffset := fun w fo =>
       find_trans (if fo then Z.min else Z.max) before trans w;
     fromutc := fun ts =>
       let '(off, fo) := find_utc before false trans ts in
       {| wall := ts + off; fold := fo |} |}.

(** [ZoneInfo('America/New_York')], tabulated for 2020 and 2021, the
    years of the site's data: Eastern Standard Time (UTC-5) with
    daylight time (UTC-4) from 2020-03-08T07:00Z to 2020-11-01T06:00Z
    and from 2021-03-14T07:00Z to 2021-11-07T06:00Z. *)
Definition new_york : tzinfo :=
  zone (-18000)
    [ (1583650800, -14400); (1604210400, -18000);
      (1615705200, -14400); (1636264800, -18000) ].

(* ================================================================== *)
(** * Parameters *)
(* ================================================================== *)

Inductive sleep_key := between_requests | retry.

Definition sleep_ranges_seconds (k : sleep_key) : Q * Q :=
  match k with
  | between_requests => ((5 # 10)%Q, (2 # 1)%Q)
  | retry => (inject_Z (15 * 60), inject_Z (16 * 60))
  end.

Definition request_sleep_interval : nat := 30.
Definition max_tries : nat := 3.

Definition query_time_increment : Z := 15 * 60.
Definition subquery_time_increment : Z := 30.
Definition subquery_time_max_dist : Z := 1 * 60 + 30.

Record Site := {
  code : Z;
  name : string;
  url_root : string;
  tz : tzinfo;
  top_tiles : list QuadKey;
  date_min : date
}.

Definition nyc : Site :=
  {| code := 0;
     name := "nyc";
     url_root := "https://outagemap.coned.com/resources/data/external/interval_generation_data";
     tz := new_york;
     top_tiles := [ [Q0; Q3; Q2; Q0; Q1; Q0; Q1; Q1] ];
     date_min := {| year := 2020; month := 2; day := 19 |} |}.

Definition sites : list Site := [ nyc ].

Definition na_like_values : list string := [ "Not Supplied" ].

(* ================================================================== *)
(** * Python values and exceptions *)
(* ================================================================== *)

(** What [json.loads] produces.  Objects keep their members in the
    order of the document, each key once.  Numbers are the integers:
    the feed counts customers, and no property below depends on a
    fractional number. *)
Inductive pyval :=
| PNone
| PBool (b : bool)
| PInt (z : Z)
| PStr (s : string)
| PList (l : list pyval)
| PDict (d : list (string * pyval)).

(** A request is identified by what its URL is formatted from:
    [url_root], the wall clock of [the_time] and the tile. *)
Record Request := {
  req_root : string;
  req_time : Z;
  req_tile : QuadKey
}.

Inductive exn :=
| AssertionError
| KeyError
| IndexError
| TypeError
| ValueError
| AttributeError
| UnicodeEncodeError
| JSONDecodeError
| RetriesExceeded (url : Request) (status_code : Z) (reason : string)
    (* [ValueError('Retries exceeded:', r.url, r.status_code, r.reason)] *)
| IntegrityError
| InterfaceError
| OperationalError.

(** Result of a computation that may raise. *)
Inductive res (A : Type) :=
| Ok (a : A)
| Raise (e : exn).
Arguments Ok {A} a.
Arguments Raise {A} e.

Definition res_bind {A B} (m : res A) (k : A -> res B) : res B :=
  match m with
  | Ok a => k a
  | Raise e => Raise e
  end.

Declare Scope res_scope.
Delimit Scope res_scope with res.
Notation "x <- m ;; k" := (res_bind m (fun x => k))
  (at level 61, m at next level, right associativity) : res_scope.
Notation "' pat <- m ;; k" := (res_bind m (fun x => match x with pat => k end))
  (at level 61, pat pattern, m at next level, right associativity) : res_scope.

Definition assert (b : bool) : res unit :=
  if b then Ok tt else Raise AssertionError.

(** Truth value of an object. *)
Definition truthy (v : pyval) : bool :=
  match v with
  | PNone => false
  | PBool b => b
  | PInt z => negb (z =? 0)
  | PStr s => negb (String.eqb s "")
  | PList l => match l with [] => false | _ :: _ => true end
  | PDict d => match d with [] => false | _ :: _ => true end
  end.

(** [a == b].  A [bool] is an [int]; two dicts are equal when they
    have the same keys with equal values, in any order. *)
Fixpoint py_eqb (a b : pyval) {struct a} : bool :=
  match a, b with
  | PNone, PNone => true
  | PBool x, PBool y => Bool.eqb x y
  | PBool x, PInt z | PInt z, PBool x => z =? (if x then 1 else 0)
  | PInt x, PInt y => x =? y
  | PStr x, PStr y => String.eqb x y
  | PList l1, PList l2 =>
      (fix all2 (l1 l2 : list pyval) {struct l1} : bool :=
         match l1, l2 with
         | [], [] => true
         | x :: l1', y :: l2' => py_eqb x y && all2 l1' l2'
         | _, _ => false
         end) l1 l2
  | PDict d1, PDict d2 =>
      Nat.eqb (List.length d1) (List.length d2) &&
      (fix all1 (d1 : list (string * pyval)) {struct d1} : bool :=
         match d1 with
         | [] => true
         | (k, v) :: d1' =>
             (fix find (d2 : list (string * pyval)) : bool :=
                match d2 with
                | [] => false
                | (k', v') :: d2' =>
                    if String.eqb k k' then py_eqb v v' else find d2'
                end) d2 && all1 d1'
         end) d1
  | _, _ => false
  end.

Definition py_eq_str (v : pyval) (s : string) : bool := py_eqb v (PStr s).

(** [d[k]] on a dictionary given by its members, [None] when the key
    is absent. *)
Fixpoint assoc {A} (k : string) (l : list (string * A)) : option A :=
  match l with
  | [] => None
  | (k', v) :: l' => if String.eqb k k' then Some v else assoc k l'
  end.

(** [d[k] = v] on a dictionary: a key keeps its place, a new one goes
    last. *)
Fixpoint assoc_set {A} (k : string) (v : A) (l : list (string * A))
    : list (string * A) :=
  match l with
  | [] => [(k, v)]
  | (k', v') :: l' =>
      if String.eqb k k' then (k, v) :: l' else (k', v') :: assoc_set k v l'
  end.

(** [x[k]] for a string [k]. *)
Definition getitem (x : pyval) (k : string) : res pyval :=
  match x with
  | PDict d => match assoc k d with Some v => Ok v | None => Raise KeyError end
  | _ => Raise TypeError
  end.

Definition keys (d : list (string * pyval)) : list string := map fst d.

Definition str_list_eqb (a b : list string) : bool :=
  if list_eq_dec string_dec a b then true else false.

(** [sorted] on a list of strings. *)
Fixpoint insert_sorted (s : string) (l : list string) : list string :=
  match l with
  | [] => [s]
  | x :: l' => if String.leb s x then s :: l else x :: insert_sorted s l'
  end.

Definition sorted (l : list string) : list string :=
  fold_right insert_sorted [] l.

(** [sorted(x.keys())]. *)
Definition sorted_keys (x : pyval) : res (list string) :=
  match x with
  | PDict d => Ok (sorted (keys d))
  | _ => Raise AttributeError
  end.

(** The elements a [for] loop or an unpacking draws from an object. *)
Definition iter (x : pyval) : res (list pyval) :=
  match x with
  | PList l => Ok l
  | PStr s => Ok (map (fun c => PStr (String c EmptyString)) (list_ascii_of_string s))
  | PDict d => Ok (map PStr (keys d))
  | _ => Raise TypeError
  end.

(* ================================================================== *)
(** * Helpers *)
(* ================================================================== *)

(** Ensure the given iterable has only one value, and return it
    ([x, = x]). *)
Definition el1 {A} (x : list A) : res A :=
  match x with
  | [a] => Ok a
  | _ => Raise ValueError
  end.

(** Ensure the given dictionary has only one value, and return it. *)
Definition val1 (x : pyval) (k : string) : res pyval :=
  match x with
  | PDict d =>
      (_ <- assert (str_list_eqb (keys d) [k]) ;;
       getitem x k)%res
  | _ => Raise AttributeError
  end.

(* ================================================================== *)
(** * The outside world *)
(* ================================================================== *)

(** A [requests.Response]: [r.url] is the request it answers, [body] is
    what [r.json()] returns, [None] when the text is not JSON. *)
Record Response := {
  status_code : Z;
  reason : string;
  body : option pyval
}.

(** [r.ok]: the status is not a client or server error. *)
Definition ok (r : Response) : bool :=
  negb ((400 <=? status_code r) && (status_code r <? 600)).

(** [requests.codes.forbidden]. *)
Definition forbidden : Z := 403.

(** What the program is run against.  [config.json] and the libraries
    are not part of the repository. *)
Record Env := {
  (** [config['polyline.precision']] *)
  polyline_precision : Z;
  (** [config['enum.cols']] *)
  enum_cols : list string;
  (** [requests.get]: the reply to the request made when [n_requests]
      requests have been made before it *)
  get : nat -> Request -> Response;
  (** [tile.to_geo(anchor)], a (latitude, longitude) pair *)
  to_geo : QuadKey -> TileAnchor -> Q * Q;
  (** [decode_polyline(bytes, precision)], (longitude, latitude) pairs *)
  decode_polyline : string -> Z -> res (list (Q * Q));
  (** [int(datetime.fromisoformat(s).timestamp())] *)
  fromisoformat : string -> res Z
}.

(** What the process does to the world, in order. *)
Inductive event :=
| Get (url : Request)
| Sleep (k : sleep_key).

Record World := {
  n_requests : nat;
  journal : list event
}.

(** Computations on the world: they return, raise, or exhaust the
    fuel of a loop of the model. *)
Inductive outcome (A : Type) :=
| Return (a : A)
| Throw (e : exn)
| Timeout.
Arguments Return {A} a.
Arguments Throw {A} e.
Arguments Timeout {A}.

Definition M (A : Type) := World -> outcome A * World.

Definition ret {A} (a : A) : M A := fun w => (Return a, w).
Definition throw {A} (e : exn) : M A := fun w => (Throw e, w).
Definition timeout {A} : M A := fun w => (Timeout, w).

Definition bind {A B} (m : M A) (k : A -> M B) : M B :=
  fun w =>
    match m w with
    | (Return a, w') => k a w'
    | (Throw e, w') => (Throw e, w')
    | (Timeout, w') => (Timeout, w')
    end.

Definition lift {A} (m : res A) : M A :=
  match m with
  | Ok a => ret a
  | Raise e => throw e
  end.

Declare Scope M_scope.
Delimit Scope M_scope with M.
Notation "x <- m ;; k" := (bind m (fun x => k))
  (at level 61, m at next level, right associativity) : M_scope.
Notation "' pat <- m ;; k" := (bind m (fun x => match x with pat => k end))
  (at level 61, pat pattern, m at next level, right associativity) : M_scope.

(** [time.sleep] for a duration drawn by [random.uniform] from the
    range [sleep_ranges_seconds[k]]. *)
Definition sleep (k : sleep_key) : M unit :=
  fun w => (Return tt,
            {| n_requests := n_requests w; journal := journal w ++ [Sleep k] |}).

Definition sleepy_get (E : Env) (url : Request) : M Response :=
  fun w =>
    let r := get E (n_requests w) url in
    let w := {| n_requests := S (n_requests w);
                journal := journal w ++ [Get url] |} in
    if Nat.eqb (Nat.modulo (n_requests w) request_sleep_interval) 0
    then (x <- sleep between_requests ;; ret r)%M w
    else (Return r, w).

(* ================================================================== *)
(** * Geometry *)
(* ================================================================== *)

(** Test whether the given (lon, lat) pair is in the tile indicated by
    the given quadkey. *)
Definition point_in_tile (E : Env) (p : Q * Q) (tile : QuadKey) : bool :=
  let '(lon, lat) := p in
  let '(lat_min, lon_min) := to_geo E tile ANCHOR_SW in
  let '(lat_max, lon_max) := to_geo E tile ANCHOR_NE in
  (Qle_bool lon_min lon && Qle_bool lon lon_max) &&
  (Qle_bool lat_min lat && Qle_bool lat lat_max).

(** The bounding box of a tile, as the spec names its sides. *)
Definition west (E : Env) (tile : QuadKey) : Q := snd (to_geo E tile ANCHOR_SW).
Definition south (E : Env) (tile : QuadKey) : Q := fst (to_geo E tile ANCHOR_SW).
Definition east (E : Env) (tile : QuadKey) : Q := snd (to_geo E tile ANCHOR_NE).
Definition north (E : Env) (tile : QuadKey) : Q := fst (to_geo E tile ANCHOR_NE).

(* ================================================================== *)
(** * Scraping logic *)
(* ================================================================== *)

(** The URL of ['{}/{}/outages/{}.json'.format(...)]. *)
Definition request_url (site : Site) (the_time : datetime) (tile : QuadKey)
    : Request :=
  {| req_root := url_root site; req_time := wall the_time; req_tile := tile |}.

(** The inner [while True] of [scrape]: one iteration for each unit of
    [fuel].  It returns the last response and the time reached. *)
Fixpoint fetch (E : Env) (fuel : nat) (site : Site) (tile : QuadKey)
    (time_initial : datetime) (tries : nat) (the_time : datetime)
    : M (Response * datetime) :=
  match fuel with
  | O => timeout
  | S fuel =>
      (r <- sleepy_get E (request_url site the_time tile) ;;
       let tries := S tries in
       if ok r then ret (r, the_time)
       else if status_code r =? forbidden then
         match top_tiles site with
         | [] => throw IndexError
         | top0 :: _ =>
             if quadkey_eqb tile top0 then
               (* Data for this hour may be available at a later
                  timestamp. *)
               let the_time := dt_add the_time subquery_time_increment in
               if dt_sub the_time time_initial >? subquery_time_max_dist
               then (* Give up. *) ret (r, the_time)
               else fetch E fuel site tile time_initial 0 the_time
             else
               (* This tile seems to be just plain missing. *)
               ret (r, the_time)
         end
       else if Nat.leb max_tries tries then
         throw (RetriesExceeded (request_url site the_time tile)
                  (status_code r) (reason r))
       else
         (x <- sleep retry ;;
          fetch E fuel site tile time_initial tries the_time))%M
  end.

(** Iterations that suffice for the loop to end, whatever the replies:
    three tries for the time it starts at and for each later time
    within [subquery_time_max_dist] of [time_initial]. *)
Definition shifts_left (time_initial the_time : datetime) : nat :=
  Z.to_nat ((subquery_time_max_dist - dt_sub the_time time_initial)
            / subquery_time_increment).

Definition fetch_fuel (time_initial the_time : datetime) : nat :=
  (max_tries * S (shifts_left time_initial the_time))%nat.

(** [x.pop(k, None)]. *)
Fixpoint remove_key (k : string) (d : list (string * pyval))
    : list (string * pyval) :=
  match d with
  | [] => []
  | (k', v) :: d' =>
      if String.eqb k k' then remove_key k d' else (k', v) :: remove_key k d'
  end.

Definition pop (x : pyval) (k : string) : res pyval :=
  match x with
  | PDict d => Ok (PDict (remove_key k d))
  | PList _ => Raise TypeError
  | _ => Raise AttributeError
  end.

(** [s.encode('ASCII')]. *)
Definition encode_ascii (s : pyval) : res string :=
  match s with
  | PStr s =>
      if forallb (fun c => Nat.ltb (nat_of_ascii c) 128) (list_ascii_of_string s)
      then Ok s else Raise UnicodeEncodeError
  | _ => Raise AttributeError
  end.

(** An integer operand of [+]. *)
Definition as_int (v : pyval) : res Z :=
  match v with
  | PInt z => Ok z
  | PBool b => Ok (if b then 1 else 0)
  | _ => Raise TypeError
  end.

(** A loop body run over a list, left to right, until it raises. *)
Fixpoint for_each {A S} (body : S -> A -> res S) (l : list A) (st : S)
    : res S :=
  match l with
  | [] => Ok st
  | x :: l' => (st' <- body st x ;; for_each body l' st')%res
  end.

(** [enumerate(l)], counting from [i]. *)
Fixpoint enumerate {A} (i : Z) (l : list A) : list (Z * A) :=
  match l with
  | [] => []
  | x :: l' => (i, x) :: enumerate (i + 1) l'
  end.

(** A raw event: the point, the index of the event in its record and
    the description. *)
Definition Event : Type := (Q * Q) * Z * pyval.

(** The point of a record: its geometry, less the element ['a'], holds
    one encoded path of one point. *)
Definition decode_point (E : Env) (outage : pyval) : res (Q * Q) :=
  (p <- getitem outage "geom" ;;
   p <- pop p "a" ;;
   v <- val1 p "p" ;;
   l <- iter v ;;
   s <- el1 l ;;
   b <- encode_ascii s ;;
   pts <- decode_polyline E b (polyline_precision E) ;;
   el1 pts)%res.

(** [sum(val1(s['cust_a'], 'val') for s in sub)], from [acc]. *)
Fixpoint sum_cust_a (acc : Z) (sub : list pyval) : res Z :=
  match sub with
  | [] => Ok acc
  | s :: sub' =>
      (ca <- getitem s "cust_a" ;;
       v <- val1 ca "val" ;;
       n <- as_int v ;;
       sum_cust_a (acc + n) sub')%res
  end.

(** The loop over [tile.children()] for a cluster that is not itemized. *)
Definition enqueue_children (E : Env) (p : Q * Q) (tile : QuadKey)
    (tiles : list QuadKey) : list QuadKey :=
  fold_left
    (fun tiles child =>
       if point_in_tile E p child && negb (quadkey_in child tiles)
       then tiles ++ [child] else tiles)
    (children tile) tiles.

(** The body of [for outage in r.json()['file_data']], on the
    variables [events] and [tiles] it updates. *)
Definition process_outage (E : Env) (tile : QuadKey)
    (st : list Event * list QuadKey) (outage : pyval)
    : res (list Event * list QuadKey) :=
  let '(events, tiles) := st in
  (p <- decode_point E outage ;;
   desc <- getitem outage "desc" ;;
   cluster <- getitem desc "cluster" ;;
   if negb (truthy cluster) then
     (* This [outage] represents a single event. *)
     ks <- sorted_keys outage ;;
     _ <- assert (str_list_eqb ks ["desc"; "geom"; "id"; "title"]) ;;
     title <- getitem outage "title" ;;
     _ <- assert (py_eq_str title "Outage Information") ;;
     sub <- getitem desc "outages" ;;
     _ <- assert (match sub with PNone => true | _ => false end) ;;
     Ok (events ++ [(p, 1, desc)], tiles)
   else
     (* Otherwise, [outage] represents a cluster of events. *)
     title <- getitem outage "title" ;;
     _ <- assert (py_eq_str title "Area Outage") ;;
     sub <- getitem desc "outages" ;;
     if truthy sub then
       (* The individual events are stored in [sub]. *)
       cust_a <- getitem desc "cust_a" ;;
       total <- val1 cust_a "val" ;;
       subs <- iter sub ;;
       n <- sum_cust_a 0 subs ;;
       _ <- assert (py_eqb total (PInt n)) ;;
       Ok (events ++ map (fun '(i, s) => (p, i + 1, s)) (enumerate 0 subs),
           tiles)
     else
       (* We'll need to request zoomed-in tiles to get the event
          information. *)
       Ok (events, enqueue_children E p tile tiles))%res.

(** [r.json()['file_data']], as the list the loop runs over. *)
Definition file_data (r : Response) : res (list pyval) :=
  match body r with
  | None => Raise JSONDecodeError
  | Some j => (l <- getitem j "file_data" ;; iter l)%res
  end.

(** The loop [while tiles] of [scrape]; [fuel] bounds the number of
    tiles popped. *)
Fixpoint scrape_loop (E : Env) (fuel : nat) (site : Site)
    (time_initial : datetime) (tiles : list QuadKey) (events : list Event)
    (the_time : datetime) : M (list Event * datetime) :=
  match tiles with
  | [] => ret (events, the_time)
  | tile :: tiles =>
      match fuel with
      | O => timeout
      | S fuel =>
          (' (r, the_time) <-
             fetch E (fetch_fuel time_initial the_time) site tile
               time_initial 0 the_time ;;
           if negb (ok r) then
             scrape_loop E fuel site time_initial tiles events the_time
           else
             ' (events, tiles) <-
               lift (outages <- file_data r ;;
                     for_each (process_outage E tile) outages
                       (events, tiles))%res ;;
             scrape_loop E fuel site time_initial tiles events the_time)%M
      end
  end.

Definition scrape (E : Env) (fuel : nat) (site : Site) (the_time : datetime)
    : M (list Event * datetime) :=
  scrape_loop E fuel site the_time (top_tiles site) [] the_time.

(** The tiles the loop of [scrape] pops from its queue, in order: the
    same loop, read for [tile = tiles.pop(0)] alone. *)
Fixpoint popped_tiles (E : Env) (fuel : nat) (site : Site)
    (time_initial : datetime) (tiles : list QuadKey) (events : list Event)
    (the_time : datetime) (w : World) : list QuadKey :=
  match tiles with
  | [] => []
  | tile :: tiles =>
      match fuel with
      | O => []
      | S fuel =>
          tile ::
          match fetch E (fetch_fuel time_initial the_time) site tile
                  time_initial 0 the_time w with
          | (Return (r, the_time), w) =>
              if negb (ok r) then
                popped_tiles E fuel site time_initial tiles events the_time w
              else
                match (outages <- file_data r ;;
                       for_each (process_outage E tile) outages
                         (events, tiles))%res with
                | Ok (events, tiles) =>
                    popped_tiles E fuel site time_initial tiles events the_time w
                | Raise _ => []
                end
          | _ => []
          end
      end
  end.

Definition scrape_order (E : Env) (fuel : nat) (site : Site)
    (the_time : datetime) (w : World) : list QuadKey :=
  popped_tiles E fuel site the_time (top_tiles site) [] the_time w.

(* ================================================================== *)
(** * Database *)
(* ================================================================== *)

Record Job := {
  job_id : Z;
  job_site : Z;
  time_max : Z;
  time_next : option Z
    (* The next timepoint we need to fetch.
       If null, start from the beginning of the data. *)
}.

(** A row of [Events] is kept as the dictionary it is inserted from. *)
Definition Row := list (string * pyval).

(** The tables.  [Enumeration] holds, for each enumerated column, the
    rows (code, meaning) of its table [Enumeration_<col>], in the order
    in which [select *] lists them. *)
Record Db := {
  Jobs : list Job;
  Events : list Row;
  Enumeration : list (string * list (Z * string))
}.

(** The cursor of each job. *)
Definition cursors (db : Db) : list (Z * option Z) :=
  map (fun j => (job_id j, time_next j)) (Jobs db).

(** The mirror [enums] of the enumeration tables: for each column a
    dictionary from meaning to code, in insertion order. *)
Definition Enum := list (pyval * Z).
Definition Enums := list (string * Enum).

(** The database [init_db] creates when there is none. *)
Definition new_db (E : Env) : Db :=
  {| Jobs := []; Events := [];
     Enumeration := map (fun ec => (ec, [])) (enum_cols E) |}.

(** Objects that can be keys of a dictionary. *)
Definition hashable (v : pyval) : bool :=
  match v with
  | PList _ | PDict _ => false
  | _ => true
  end.

(** [e[key]], [None] when the key is absent. *)
Fixpoint enum_lookup (key : pyval) (e : Enum) : option Z :=
  match e with
  | [] => None
  | (k, c) :: e' => if py_eqb key k then Some c else enum_lookup key e'
  end.

(** [e.setdefault(key, default)], as the dictionary it leaves. *)
Definition setdefault (e : Enum) (key : pyval) (default : Z) : res Enum :=
  if hashable key then
    match enum_lookup key e with
    | Some _ => Ok e
    | None => Ok (e ++ [(key, default)])
    end
  else Raise TypeError.

(** [len(e)]. *)
Definition len {A} (l : list A) : Z := Z.of_nat (List.length l).

(** The mirror built by the dictionary comprehension of [init_db] from
    the rows of one table; a meaning listed twice keeps its place and
    takes the later code. *)
Fixpoint enum_set (key : pyval) (c : Z) (e : Enum) : Enum :=
  match e with
  | [] => [(key, c)]
  | (k, c') :: e' =>
      if py_eqb key k then (k, c) :: e' else (k, c') :: enum_set key c e'
  end.

Definition load_enum (rows : list (Z * string)) : Enum :=
  fold_left (fun e '(c, m) => enum_set (PStr m) c e) rows [].

(** A table [Enumeration_<col>]; the statement fails when there is
    none. *)
Definition table (ec : string) (enumeration : list (string * list (Z * string)))
    : res (list (Z * string)) :=
  match assoc ec enumeration with
  | Some rows => Ok rows
  | None => Raise OperationalError
  end.

(** The part of [init_db] that runs on an existing database. *)
Definition init_db (E : Env) (db : Db) : res Enums :=
  for_each (fun enums ec =>
              (rows <- table ec (Enumeration db) ;;
               Ok (assoc_set ec (load_enum rows) enums))%res)
           (enum_cols E) [].

(** The text SQLite stores in a column of [text] affinity. *)
Definition sql_text (v : pyval) : string :=
  match v with
  | PStr s => s
  | PInt z => NilZero.string_of_int (Z.to_int z)
  | PBool b => if b then "1" else "0"
  | _ => ""
  end.

(** [insert or ignore into Enumeration_<col> values (?, ?)]: the row is
    skipped when its code (the primary key) or its meaning (unique) is
    already stored. *)
Definition insert_or_ignore (rows : list (Z * string)) (row : Z * string)
    : list (Z * string) :=
  if existsb (fun r => (fst r =? fst row) || String.eqb (snd r) (snd row)) rows
  then rows else rows ++ [row].

(** [executemany] of that statement over the mirror of one column. *)
Definition persist_enum (rows : list (Z * string)) (e : Enum)
    : list (Z * string) :=
  fold_left (fun rows '(meaning, c) => insert_or_ignore rows (c, sql_text meaning))
    e rows.

(** Two rows with the same primary key of [Events]. *)
Definition same_key (a b : Row) : bool :=
  forallb (fun k =>
             match assoc k a, assoc k b with
             | Some x, Some y => py_eqb x y
             | _, _ => false
             end)
          ["site"; "ilon"; "ilat"; "time"; "outage_ix"].

(** A value SQLite can bind. *)
Definition bindable (v : pyval) : bool := hashable v.

(** A value of an enumerated column satisfies its foreign key when it
    is null or the code of a stored row.  (Of the strings only the
    empty one reaches this test, and it matches no code.) *)
Definition references (rows : list (Z * string)) (v : pyval) : bool :=
  match v with
  | PNone => true
  | PInt c => existsb (fun r => fst r =? c) rows
  | PBool b => existsb (fun r => fst r =? (if b then 1 else 0)) rows
  | _ => false
  end.

(** [insert into Events (...) values (...)] for one row. *)
Definition insert_event (E : Env) (enumeration : list (string * list (Z * string)))
    (events : list Row) (row : Row) : res (list Row) :=
  (_ <- (if forallb (fun kv => bindable (snd kv)) row then Ok tt
         else Raise InterfaceError) ;;
   _ <- (match assoc "cust_a" row with
         | Some PNone | None => Raise IntegrityError
         | Some _ => Ok tt
         end) ;;
   _ <- (if existsb (same_key row) events then Raise IntegrityError else Ok tt) ;;
   _ <- (if forallb (fun ec =>
                       match assoc ec row, assoc ec enumeration with
                       | Some v, Some rows => references rows v
                       | _, _ => false
                       end) (enum_cols E)
         then Ok tt else Raise IntegrityError) ;;
   Ok (events ++ [row]))%res.

(* ================================================================== *)
(** * Normalising and saving *)
(* ================================================================== *)

(** [re.sub(r'([+-]\d\d)(\d\d)\Z', r'\1:\2', s)] on an ASCII string:
    the pattern can only match the last five characters. *)
Definition is_digit (c : ascii) : bool :=
  Nat.leb 48 (nat_of_ascii c) && Nat.leb (nat_of_ascii c) 57.

Definition is_sign (c : ascii) : bool :=
  Ascii.eqb c "+"%char || Ascii.eqb c "-"%char.

Fixpoint re_sub_offset (s : string) : string :=
  match s with
  | String c0 (String c1 (String c2 (String c3 (String c4 EmptyString)))) =>
      if is_sign c0 && is_digit c1 && is_digit c2 && is_digit c3 && is_digit c4
      then String c0 (String c1 (String c2
             (String ":"%char (String c3 (String c4 EmptyString)))))
      else s
  | String c s' => String c (re_sub_offset s')
  | EmptyString => EmptyString
  end.

(** The value of the column [etr]. *)
Definition encode_etr (E : Env) (etr : pyval) : res pyval :=
  if py_eq_str etr "ETR-NULL" then Ok PNone
  else if py_eq_str etr "ETR-EXP" then Ok (PInt (-1))
  else
    match etr with
    | PStr s => (t <- fromisoformat E (re_sub_offset s) ;; Ok (PInt t))%res
    | _ => Raise TypeError
    end.

(** [round(x)] on a float read as the rational it is: to the nearest
    integer, a tie going to the even one. *)
Definition py_round (x : Q) : Z :=
  let f := Qfloor x in
  match Qcompare (x - inject_Z f) (1 # 2) with
  | Lt => f
  | Gt => f + 1
  | Eq => if Z.even f then f else f + 1
  end.

(** [round(x * 10**config['polyline.precision'])]. *)
Definition fixed_point (E : Env) (x : Q) : Z :=
  py_round (x * Qpower (inject_Z 10) (polyline_precision E)).

Definition desc_keys : list string :=
  ["cause"; "cluster"; "crew_status"; "cust_a"; "etr"; "outages";
   "reported_problem"].

(** [x[k] = v]. *)
Definition setitem (x : pyval) (k : string) (v : pyval) : res pyval :=
  match x with
  | PDict d => Ok (PDict (assoc_set k v d))
  | _ => Raise TypeError
  end.

(** [enums[ec]]. *)
Definition enums_get (enums : Enums) (ec : string) : res Enum :=
  match assoc ec enums with
  | Some e => Ok e
  | None => Raise KeyError
  end.

(** The body of [for ec in config['enum.cols']] that updates
    [outage_desc] and [enums]. *)
Definition normalize_col (st : pyval * Enums) (ec : string)
    : res (pyval * Enums) :=
  let '(outage_desc, enums) := st in
  (v <- getitem outage_desc ec ;;
   outage_desc <- (if existsb (py_eq_str v) na_like_values
                   then setitem outage_desc ec PNone
                   else Ok outage_desc) ;;
   v <- getitem outage_desc ec ;;
   if truthy v then
     e <- enums_get enums ec ;;
     e' <- setdefault e v (len e) ;;
     Ok (outage_desc, assoc_set ec e' enums)
   else Ok (outage_desc, enums))%res.

(** [outage_desc[ec] and enums[ec][outage_desc[ec]]]. *)
Definition enum_cell (outage_desc : pyval) (enums : Enums) (ec : string)
    : res pyval :=
  (v <- getitem outage_desc ec ;;
   if truthy v then
     e <- enums_get enums ec ;;
     match enum_lookup v e with
     | Some c => Ok (PInt c)
     | None => Raise KeyError
     end
   else Ok v)%res.

(** The dictionary [d] of one event. *)
Definition make_row (E : Env) (site : Site) (the_time : datetime)
    (p : Q * Q) (outage_ix : Z) (outage_desc : pyval) (enums : Enums)
    : res Row :=
  let '(lon, lat) := p in
  (cust_a <- getitem outage_desc "cust_a" ;;
   cust_a <- val1 cust_a "val" ;;
   etr <- getitem outage_desc "etr" ;;
   etr <- encode_etr E etr ;;
   cells <- for_each (fun cells ec =>
                        c <- enum_cell outage_desc enums ec ;;
                        Ok (assoc_set ec c cells))
                     (enum_cols E) [] ;;
   let d := [ ("site", PInt (code site));
              ("ilon", PInt (fixed_point E lon));
              ("ilat", PInt (fixed_point E lat));
              ("time", PInt (timestamp (tz site) the_time));
              ("outage_ix", PInt outage_ix);
              ("cust_a", cust_a);
              ("etr", etr) ] in
   if existsb (fun kv => existsb (String.eqb (fst kv)) (keys d)) cells
   then Raise TypeError
   else Ok (d ++ cells))%res.

(** The body of the loop through [events], on [enums] and [out]. *)
Definition save_event (E : Env) (site : Site) (the_time : datetime)
    (st : Enums * list Row) (ev : Event) : res (Enums * list Row) :=
  let '(enums, out) := st in
  let '(p, outage_ix, outage_desc) := ev in
  (ks <- sorted_keys outage_desc ;;
   _ <- assert (str_list_eqb ks desc_keys) ;;
   ' (outage_desc, enums) <-
     for_each normalize_col (enum_cols E) (outage_desc, enums) ;;
   d <- make_row E site the_time p outage_ix outage_desc enums ;;
   Ok (enums,
       if existsb (fun d' => py_eqb (PDict d') (PDict d)) out
       then out else out ++ [d]))%res.

(** The statements [insert or ignore into Enumeration_<col>], one
    column after the other. *)
Definition persist_enums (E : Env) (enums : Enums)
    (enumeration : list (string * list (Z * string)))
    : res (list (string * list (Z * string))) :=
  for_each (fun enumeration ec =>
              (rows <- table ec enumeration ;;
               e <- enums_get enums ec ;;
               Ok (assoc_set ec (persist_enum rows e) enumeration))%res)
           (enum_cols E) enumeration.

(** [save], on the mirror and the database of the open transaction. *)
Definition save (E : Env) (site : Site) (events : list Event)
    (the_time : datetime) (st : Enums * Db) : res (Enums * Db) :=
  let '(enums, db) := st in
  match events with
  | [] => Ok st
  | _ :: _ =>
      (' (enums, out) <- for_each (save_event E site the_time) events (enums, []) ;;
       (* Update the database. *)
       enumeration <- persist_enums E enums (Enumeration db) ;;
       rows <- for_each (insert_event E enumeration) out (Events db) ;;
       Ok (enums,
           {| Jobs := Jobs db; Events := rows; Enumeration := enumeration |}))%res
  end.

(* ================================================================== *)
(** * Mainline code *)
(* ================================================================== *)

(** [select job_id, site, time_next from Jobs
     where time_next is null or time_next <= time_max
     order by job_id limit 1]. *)
Definition pending (j : Job) : bool :=
  match time_next j with
  | None => true
  | Some t => t <=? time_max j
  end.

Definition select_job (db : Db) : option Job :=
  fold_left (fun best j =>
               if pending j then
                 match best with
                 | Some b => if job_id j <? job_id b then Some j else best
                 | None => Some j
                 end
               else best)
            (Jobs db) None.

(** [l[i]], an index below zero counting from the end. *)
Definition py_nth {A} (l : list A) (i : Z) : res A :=
  let i := if i <? 0 then i + len l else i in
  if i <? 0 then Raise IndexError
  else match nth_error l (Z.to_nat i) with
       | Some x => Ok x
       | None => Raise IndexError
       end.

(** [update Jobs set time_next = ? where job_id = ?]. *)
Definition update_time_next (t : Z) (id : Z) (jobs : list Job) : list Job :=
  map (fun j =>
         if job_id j =? id
         then {| job_id := job_id j; job_site := job_site j;
                 time_max := time_max j; time_next := Some t |}
         else j)
      jobs.

(** The time a job starts its next snapshot at. *)
Definition start_time (site : Site) (job : Job) : datetime :=
  match time_next job with
  | Some t => if t =? 0 then combine_midnight (date_min site)
              else fromtimestamp (tz site) t
  | None => combine_midnight (date_min site)
  end.

(** One turn of the loop of [main] over jobs and hours: [None] when
    all jobs are done, else the mirror and the database as committed. *)
Definition main_step (E : Env) (fuel : nat) (st : Enums * Db)
    : M (option (Enums * Db)) :=
  let '(enums, db) := st in
  match select_job db with
  | None => ret None
  | Some job =>
      (site <- lift (py_nth sites (job_site job)) ;;
       let time_next := start_time site job in
       ' (events, time_actual) <- scrape E fuel site time_next ;;
       (* begin *)
       ' (enums, db) <- lift (save E site events time_actual (enums, db)) ;;
       let time_next := dt_add time_next query_time_increment in
       let db := {| Jobs := update_time_next (timestamp (tz site) time_next)
                              (job_id job) (Jobs db);
                    Events := Events db;
                    Enumeration := Enumeration db |} in
       (* commit *)
       ret (Some (enums, db)))%M
  end.

(** [main], after [init_db] on an existing database.  [tiles_fuel]
    bounds the tiles popped in a snapshot and [fuel] the snapshots.
    Besides how the run ends, the result holds the database as last
    committed: what an exception leaves of an open transaction is
    rolled back when the connection is closed. *)
Fixpoint main (E : Env) (tiles_fuel fuel : nat) (st : Enums * Db) (w : World)
    : outcome unit * Db * World :=
  match fuel with
  | O => (Timeout, snd st, w)
  | S fuel =>
      match main_step E tiles_fuel st w with
      | (Return None, w') => (Return tt, snd st, w')
      | (Return (Some st'), w') => main E tiles_fuel fuel st' w'
      | (Throw e, w') => (Throw e, snd st, w')
      | (Timeout, w') => (Timeout, snd st, w')
      end
  end.

Definition run (E : Env) (tiles_fuel fuel : nat) (db : Db) (w : World)
    : outcome unit * Db * World :=
  match init_db E db with
  | Ok enums => main E tiles_fuel fuel (enums, db) w
  | Raise e => (Throw e, db, w)
  end.

(* ================================================================== *)
(** * Reading the journal *)
(* ================================================================== *)

(** What [sleepy_get] writes in the journal when [n] requests were
    made before: the request, and the pause after every thirtieth. *)
Definition got (n : nat) (url : Request) : list event :=
  Get url ::
  (if Nat.eqb (Nat.modulo (S n) request_sleep_interval) 0
   then [Sleep between_requests] else []).

Definition after_get (w : World) (url : Request) : World :=
  {| n_requests := S (n_requests w);
     journal := journal w ++ got (n_requests w) url |}.

Definition after_sleep (w : World) (k : sleep_key) : World :=
  {| n_requests := n_requests w; journal := journal w ++ [Sleep k] |}.

(** The replies the loop of [fetch] distinguishes. *)
Definition refused (r : Response) : Prop :=
  ok r = false /\ status_code r = forbidden.

Definition transient (r : Response) : Prop :=
  ok r = false /\ status_code r <> forbidden.

(** The requests of a journal, and the tiles they ask for. *)
Fixpoint requests_of (j : list event) : list Request :=
  match j with
  | [] => []
  | Get url :: j' => url :: requests_of j'
  | Sleep _ :: j' => requests_of j'
  end.

(** The tiles fetched, in order: a run of requests for one tile (its
    tries, at one time or at shifted times) is one fetch. *)
Fixpoint collapse (l : list QuadKey) : list QuadKey :=
  match l with
  | [] => []
  | x :: l' =>
      match l' with
      | [] => [x]
      | y :: _ => if quadkey_eqb x y then collapse l' else x :: collapse l'
      end
  end.

Definition fetched_tiles (j : list event) : list QuadKey :=
  collapse (map req_tile (requests_of j)).

(** No tile of the list is an ancestor of another or a repeat of it. *)
Fixpoint antichain (l : list QuadKey) : bool :=
  match l with
  | [] => true
  | x :: l' =>
      forallb (fun y => negb (is_prefix x y) && negb (is_prefix y x)) l'
      && antichain l'
  end.

(** The queue [tiles'] is the queue [tiles] with children of [tile]
    added at its end, none twice and none that was in it. *)
Definition queue_extends (tile : QuadKey) (tiles tiles' : list QuadKey) : Prop :=
  exists extra,
    tiles' = tiles ++ extra
    /\ incl extra (children tile)
    /\ NoDup extra
    /\ forall c, In c extra -> ~ In c tiles.

(** [runs_of p l]: the list [l] is made, for each tile of [p] in
    order, of one or more copies of that tile. *)
Inductive runs_of : list QuadKey -> list QuadKey -> Prop :=
| runs_nil : runs_of [] []
| runs_cons (t : QuadKey) (n : nat) (p l : list QuadKey) :
    runs_of p l -> runs_of (t :: p) (repeat t (S n) ++ l).

(** What holds of the tiles popped so far and of the queue, between
    two turns of the loop of [scrape]: no tile is in both or twice in
    either, every tile is a top tile or below one, and a tile that is
    not a top tile has its parent among the popped ones. *)
Definition traversal_inv (tops popped tiles : list QuadKey) : Prop :=
  NoDup (popped ++ tiles)
  /\ (forall c, In c (popped ++ tiles) ->
        exists T, In T tops /\ is_prefix T c = true)
  /\ (forall c, In c (popped ++ tiles) ->
        In c tops \/ exists parent k, c = parent ++ [k] /\ In parent popped).

(* ================================================================== *)
(** * Enumerations, as the spec words them *)
(* ================================================================== *)

(** The distinct meanings of a column in the order in which they were
    first seen: [first_seen ms known] adds to [known] the meanings of
    [ms] that are new, each once, in order. *)
Definition seen (known : list string) (m : string) : list string :=
  if existsb (String.eqb m) known then known else known ++ [m].

Definition first_seen (ms : list string) (known : list string) : list string :=
  fold_left seen ms known.

(** The code of a meaning is its rank in that order, from 0. *)
Definition numbering_from (n : nat) (known : list string) : list (string * Z) :=
  combine known (map Z.of_nat (seq n (List.length known))).

Definition numbering (known : list string) : list (string * Z) :=
  numbering_from 0 known.

(** The table and the mirror of a column whose meanings are [known]. *)
Definition table_of (known : list string) : list (Z * string) :=
  map (fun mc : string * Z => (snd mc, fst mc)) (numbering known).

Definition mirror_of (known : list string) : Enum :=
  map (fun mc : string * Z => (PStr (fst mc), snd mc)) (numbering known).

(** Every meaning that has a code in [enums] has the same code in
    [enums']. *)
Definition codes_kept (enums enums' : Enums) : Prop :=
  forall ec e key c,
    assoc ec enums = Some e -> enum_lookup key e = Some c ->
    exists e', assoc ec enums' = Some e' /\ enum_lookup key e' = Some c.

(** The allocations of [save] for one column, over the meanings of the
    events in order. *)
Definition allocate (ms : list string) (e : Enum) : res Enum :=
  for_each (fun e m => setdefault e (PStr m) (len e)) ms e.

(* ================================================================== *)
(** * The run as a whole *)
(* ================================================================== *)

(** The journal of a process that had made [n] requests and has made
    [n'] in the end: what [sleepy_get] writes for each request, in
    order, with pauses of [retry] between them. *)
Inductive paced : nat -> list event -> nat -> Prop :=
| paced_nil (n : nat) : paced n [] n
| paced_get (n n' : nat) (url : Request) (j : list event) :
    paced (S n) j n' -> paced n (got n url ++ j) n'
| paced_retry (n n' : nat) (j : list event) :
    paced n j n' -> paced n (Sleep retry :: j) n'.

(** The pauses of one kind in a journal. *)
Definition is_pause (k : sleep_key) (e : event) : bool :=
  match e, k with
  | Sleep between_requests, between_requests => true
  | Sleep retry, retry => true
  | _, _ => false
  end.

Definition pauses (k : sleep_key) (j : list event) : nat :=
  List.length (filter (is_pause k) j).

(** What [main] never touches of a job. *)
Definition job_frame (j : Job) : Z * Z * Z := (job_id j, job_site j, time_max j).

(** The database [db'] holds what [db] holds, and possibly more: the
    same jobs but for their cursors, and the rows of [Events] and of
    each enumeration table as they were, with new rows after them. *)
Definition grows (db db' : Db) : Prop :=
  map job_frame (Jobs db') = map job_frame (Jobs db)
  /\ (exists out, Events db' = Events db ++ out)
  /\ map fst (Enumeration db') = map fst (Enumeration db)
  /\ (forall ec rows, assoc ec (Enumeration db) = Some rows ->
        exists more, assoc ec (Enumeration db') = Some (rows ++ more)).

(** The database [main] ends with, and the world it leaves. *)
Definition final_db {A} (r : outcome A * Db * World) : Db := snd (fst r).
Definition final_world {A} (r : outcome A * Db * World) : World := snd r.

(** The time after [k] shifts of [subquery_time_increment]. *)
Definition shifted (k : nat) (the_time : datetime) : datetime :=
  Nat.iter k (fun t => dt_add t subquery_time_increment) the_time.

(** No two rows have the same primary key (site, ilon, ilat, time,
    outage_ix). *)
Definition keys_unique (rows : list Row) : Prop :=
  ForallOrdPairs (fun a b => same_key b a = false) rows.

(** The foreign keys of a row of [Events]: the value of each
    enumerated column is null or a code of the table of the column. *)
Definition refers (E : Env) (enumeration : list (string * list (Z * string)))
    (row : Row) : bool :=
  forallb (fun ec =>
             match assoc ec row, assoc ec enumeration with
             | Some v, Some rows => references rows v
             | _, _ => false
             end) (enum_cols E).

(** The constraints of the schema on [Events]. *)
Definition constraints_hold (E : Env) (db : Db) : Prop :=
  keys_unique (Events db)
  /\ Forall (fun row => refers E (Enumeration db) row = true) (Events db).

(** The loop of the comprehension of [init_db], from the columns
    [cols] still to load and the mirror [acc] built so far. *)
Definition load_all (cols : list string)
    (enumeration : list (string * list (Z * string))) (acc : Enums) : res Enums :=
  for_each (fun enums ec =>
              (rows <- table ec enumeration ;;
               Ok (assoc_set ec (load_enum rows) enums))%res)
           cols acc.

(** The codes of every enumeration table are the ranks of its
    meanings: the table of a column that has met the distinct meanings
    [known], in this order, is [table_of known]. *)
Definition ranked (E : Env) (db : Db) : Prop :=
  forall ec, In ec (enum_cols E) ->
    exists known, NoDup known /\ assoc ec (Enumeration db) = Some (table_of known).

(** The values of the enumerated columns of an event are strings, or
    values without truth. *)
Definition textual (E : Env) (desc : pyval) : Prop :=
  forall ec v, In ec (enum_cols E) -> getitem desc ec = Ok v ->
               truthy v = true -> exists m, v = PStr m.

(** The mirror of a column is ahead of its table: the table numbers
    the meanings [known], the mirror those and the meanings [news] met
    since.  They are in step when there are no such [news]. *)
Definition ahead (enumeration : list (string * list (Z * string)))
    (enums : Enums) (ec : string) : Prop :=
  exists known news,
    NoDup (known ++ news)
    /\ assoc ec enumeration = Some (table_of known)
    /\ assoc ec enums = Some (mirror_of (known ++ news)).

Definition in_step (enumeration : list (string * list (Z * string)))
    (enums : Enums) (ec : string) : Prop :=
  exists known,
    NoDup known
    /\ assoc ec enumeration = Some (table_of known)
    /\ assoc ec enums = Some (mirror_of known).

(* ================================================================== *)
(** * A concrete world for the examples *)
(* ================================================================== *)

Module Demo.

(** The encoded polyline algorithm: each number is cut in chunks of
    five bits, least significant first, a chunk below 32 being the
    last; numbers alternate between latitude and longitude and add
    up; the decoder returns (longitude, latitude) pairs. *)
Fixpoint polyline_values (cs : list ascii) (acc shift : Z) : res (list Z) :=
  match cs with
  | [] => if shift =? 0 then Ok [] else Raise ValueError
  | c :: cs' =>
      let b := Z.of_nat (nat_of_ascii c) - 63 in
      if (b <? 0) || (63 <? b) then Raise ValueError
      else
        let acc := Z.lor acc (Z.shiftl (Z.land b 31) shift) in
        if 32 <=? b then polyline_values cs' acc (shift + 5)
        else
          let v := if Z.odd acc then - Z.shiftr acc 1 - 1 else Z.shiftr acc 1 in
          (vs <- polyline_values cs' 0 0 ;; Ok (v :: vs))%res
  end.

Fixpoint polyline_points (vs : list Z) (lat lon : Z) (scale : Q)
    : res (list (Q * Q)) :=
  match vs with
  | [] => Ok []
  | dlat :: dlon :: vs' =>
      let lat := lat + dlat in
      let lon := lon + dlon in
      (ps <- polyline_points vs' lat lon scale ;;
       Ok ((inject_Z lon / scale, inject_Z lat / scale)%Q :: ps))%res
  | [_] => Raise ValueError
  end.

Definition decode (s : string) (precision : Z) : res (list (Q * Q)) :=
  (vs <- polyline_values (list_ascii_of_string s) 0 0 ;;
   polyline_points vs 0 0 (Qpower (inject_Z 10) precision))%res.

(** A quadtree on the plate carrée: the digit of a child has its
    east bit first and its south bit second, as in the tiles of
    pyquadkey2, whose latitudes follow the Mercator projection
    instead.  Coordinates are (latitude, longitude). *)
Fixpoint tile_xy (k : QuadKey) (x y : Z) : Z * Z :=
  match k with
  | [] => (x, y)
  | q :: k' =>
      let '(bx, by_) := match q with
                        | Q0 => (0, 0) | Q1 => (1, 0)
                        | Q2 => (0, 1) | Q3 => (1, 1)
                        end in
      tile_xy k' (2 * x + bx) (2 * y + by_)
  end.

Definition geo (k : QuadKey) (a : TileAnchor) : Q * Q :=
  let '(x, y) := tile_xy k 0 0 in
  let n := 2 ^ len k in
  let '(dx, dy) := match a with
                   | ANCHOR_NW => (0, 0) | ANCHOR_NE => (2, 0)
                   | ANCHOR_SW => (0, 2) | ANCHOR_SE => (2, 2)
                   | ANCHOR_CENTER => (1, 1)
                   end in
  (Qred (Qmake (90 * n - 90 * (2 * y + dy)) (Z.to_pos n)),
   Qred (Qmake (180 * (2 * x + dx) - 180 * n) (Z.to_pos n))).

(** [int(datetime.fromisoformat(s).timestamp())] on the strings
    [YYYY-MM-DD?HH:MM[:SS]+HH:MM] (either sign); the demo rejects the
    other strings. *)
Definition digit (c : ascii) : res Z :=
  if is_digit c then Ok (Z.of_nat (nat_of_ascii c) - 48) else Raise ValueError.

Fixpoint number (cs : list ascii) (acc : Z) : res Z :=
  match cs with
  | [] => Ok acc
  | c :: cs' => (d <- digit c ;; number cs' (10 * acc + d))%res
  end.

Definition in_range (lo x hi : Z) : res unit :=
  if (lo <=? x) && (x <=? hi) then Ok tt else Raise ValueError.

Definition days_in_month (y m : Z) : Z :=
  if m =? 2 then
    if ((y mod 4 =? 0) && negb (y mod 100 =? 0)) || (y mod 400 =? 0)
    then 29 else 28
  else if (m =? 4) || (m =? 6) || (m =? 9) || (m =? 11) then 30 else 31.

Definition iso_timestamp (s : string) : res Z :=
  match list_ascii_of_string s with
  | y1 :: y2 :: y3 :: y4 :: "-"%char :: m1 :: m2 :: "-"%char :: d1 :: d2 :: _
      :: h1 :: h2 :: ":"%char :: n1 :: n2 :: rest =>
      (y <- number [y1; y2; y3; y4] 0 ;;
       m <- number [m1; m2] 0 ;;
       d <- number [d1; d2] 0 ;;
       h <- number [h1; h2] 0 ;;
       n <- number [n1; n2] 0 ;;
       ' (sec, rest) <-
         match rest with
         | ":"%char :: s1 :: s2 :: rest' =>
             (sec <- number [s1; s2] 0 ;; Ok (sec, rest'))
         | _ => Ok (0, rest)
         end ;;
       match rest with
       | [sg; o1; o2; ":"%char; o3; o4] =>
           oh <- number [o1; o2] 0 ;;
           om <- number [o3; o4] 0 ;;
           _ <- assert (is_sign sg) ;;
           _ <- in_range 1 y 9999 ;;
           _ <- in_range 1 m 12 ;;
           _ <- in_range 1 d (days_in_month y m) ;;
           _ <- in_range 0 h 23 ;;
           _ <- in_range 0 n 59 ;;
           _ <- in_range 0 sec 59 ;;
           _ <- in_range 0 oh 23 ;;
           _ <- in_range 0 om 59 ;;
           let off := (if Ascii.eqb sg "-"%char then -1 else 1)
                      * (oh * 3600 + om * 60) in
           Ok (days_from_civil y m d * 86400 + h * 3600 + n * 60 + sec - off)
       | _ => Raise ValueError
       end)%res
  | _ => Raise ValueError
  end.

(** The environment of the examples, for a given upstream. *)
Definition env (upstream : nat -> Request -> Response) : Env :=
  {| polyline_precision := 5;
     enum_cols := ["cause"; "crew_status"; "reported_problem"];
     get := upstream;
     to_geo := geo;
     decode_polyline := decode;
     fromisoformat := iso_timestamp |}.

(** Replies. *)
Definition reply (status : Z) (why : string) (j : option pyval) : Response :=
  {| status_code := status; reason := why; body := j |}.

Definition no_data : Response := reply 403 "Forbidden" None.
Definition unavailable : Response := reply 503 "Service Unavailable" None.
Definition found (outages : list pyval) : Response :=
  reply 200 "OK" (Some (PDict [("file_data", PList outages)])).

(** Records of the feed. *)
Definition desc (cluster : bool) (cust : Z) (etr cause problem : string)
    (outages : pyval) : pyval :=
  PDict [ ("cause", PStr cause);
          ("cluster", PBool cluster);
          ("crew_status", PStr "Not Supplied");
          ("cust_a", PDict [("val", PInt cust)]);
          ("etr", PStr etr);
          ("outages", outages);
          ("reported_problem", PStr problem) ].

Definition single (id : string) (path : string) (cust : Z)
    (etr cause problem : string) : pyval :=
  PDict [ ("id", PStr id);
          ("title", PStr "Outage Information");
          ("geom", PDict [("a", PList []); ("p", PList [PStr path])]);
          ("desc", desc false cust etr cause problem PNone) ].

Definition area (id : string) (path : string) (cust : Z) (outages : pyval)
    : pyval :=
  PDict [ ("id", PStr id);
          ("title", PStr "Area Outage");
          ("geom", PDict [("p", PList [PStr path])]);
          ("desc", desc true cust "ETR-NULL" "Not Supplied" "Not Supplied" outages) ].

(** The top tile of the site [nyc], two of its children and three
    points, as encoded paths: [p_sw] lies in [tile_sw], [p_nw] and
    [p_nw'] lie in [tile_nw]. *)
Definition top : QuadKey := [Q0; Q3; Q2; Q0; Q1; Q0; Q1; Q1].
Definition tile_nw : QuadKey := top ++ [Q0].
Definition tile_sw : QuadKey := top ++ [Q2].
Definition p_sw : string := "_{geC~btbM".
Definition p_nw : string := "_nbgC~d{cM".
Definition p_nw' : string := "_}nfC~undM".

Definition w0 : World := {| n_requests := 0; journal := [] |}.

(** Three records of the top tile: a single event, a cluster of two
    itemized events with 3 + 4 = 7 customers, and a cluster to be
    resolved by zooming in. *)
Definition event_a : pyval :=
  single "a" p_sw 12 "2021-07-04T10:00-0500" "Tree" "Lights out".

Definition cluster_b : pyval :=
  area "b" p_nw 7
    (PList [ desc false 3 "ETR-EXP" "Tree" "Not Supplied" PNone;
             desc false 4 "ETR-NULL" "Wire" "Lights out" PNone ]).

Definition cluster_c : pyval := area "c" p_nw 9 PNone.

(** An upstream that publishes the snapshot requested for
    2020-09-13T08:26:40-04:00 (epoch 1600000000) one minute late. *)
Definition t1 : datetime := fromtimestamp new_york 1600000000.

Definition late (n : nat) (rq : Request) : Response :=
  if req_time rq <? wall t1 + 60 then no_data
  else if quadkey_eqb (req_tile rq) top then
    found [ event_a; cluster_b; cluster_c; area "d" p_nw' 9 (PList []) ]
  else if quadkey_eqb (req_tile rq) tile_nw then
    found [ single "e" p_nw' 9 "ETR-EXP" "Not Supplied" "Tree" ]
  else no_data.

(** An upstream with no data at all, and one that is out of order. *)
Definition never (n : nat) (rq : Request) : Response := no_data.
Definition down (n : nat) (rq : Request) : Response := unavailable.

(** An upstream whose top tile always holds the cluster to be
    resolved, and a site, not one of the program, whose first top tile
    is a child of its second. *)
Definition steady (n : nat) (rq : Request) : Response :=
  if quadkey_eqb (req_tile rq) top then found [ cluster_c ] else found [].

Definition nested : Site :=
  {| code := 1; name := "nested"; url_root := "https://example.org";
     tz := new_york; top_tiles := [ tile_nw; top ];
     date_min := {| year := 2020; month := 2; day := 19 |} |}.

(** A database with one job, about to fetch that snapshot. *)
Definition job1 : Job :=
  {| job_id := 1; job_site := 0; time_max := 1600000600;
     time_next := Some 1600000000 |}.

Definition db1 : Db :=
  {| Jobs := [job1]; Events := [];
     Enumeration := [("cause", []); ("crew_status", []);
                     ("reported_problem", [])] |}.

Definition enums1 : Enums :=
  [("cause", []); ("crew_status", []); ("reported_problem", [])].

(** An event of three customers at a point of the top tile, and the
    same event with no problem reported. *)
Definition desc_c : pyval := desc false 3 "ETR-EXP" "Tree" "Lights out" PNone.
Definition desc_blank : pyval := desc false 3 "ETR-EXP" "Tree" "" PNone.
Definition ev_c : Event := ((- (7398 # 100), 4075 # 100)%Q, 1, desc_c).
Definition ev_blank : Event := ((- (7398 # 100), 4075 # 100)%Q, 1, desc_blank).

End Demo.



(* ================================================================== *)
(** * Properties *)
(* ================================================================== *)

(** ** Tiles *)

Lemma quadrant_eqb_eq (a b : quadrant) : quadrant_eqb a b = true <-> a = b.
Proof. destruct a, b; simpl; split; congruence. Qed.

Lemma quadkey_eqb_eq (a b : QuadKey) : quadkey_eqb a b = true <-> a = b.
Proof.
  revert b; induction a as [|x a IH]; intros [|y b]; simpl;
    try (split; congruence).
  rewrite andb_true_iff, quadrant_eqb_eq, IH. split.
  - intros [-> ->]; reflexivity.
  - intros H; injection H; auto.
Qed.

Lemma quadkey_eqb_refl (a : QuadKey) : quadkey_eqb a a = true.
Proof. apply quadkey_eqb_eq; reflexivity. Qed.

Lemma quadkey_eqb_neq (a b : QuadKey) : quadkey_eqb a b = false <-> a <> b.
Proof.
  rewrite <- quadkey_eqb_eq. destruct (quadkey_eqb a b); split; congruence.
Qed.

Lemma quadkey_in_In (c : QuadKey) (tiles : list QuadKey) :
  quadkey_in c tiles = true <-> In c tiles.
Proof.
  unfold quadkey_in. rewrite existsb_exists. split.
  - intros [x [Hx He]]. apply quadkey_eqb_eq in He; subst; assumption.
  - intros H. exists c. split; [assumption | apply quadkey_eqb_refl].
Qed.

Lemma quadkey_in_app (c : QuadKey) (l1 l2 : list QuadKey) :
  quadkey_in c (l1 ++ l2) = quadkey_in c l1 || quadkey_in c l2.
Proof. unfold quadkey_in. apply existsb_app. Qed.

Lemma child_neq_parent (t : QuadKey) (k : quadrant) : t ++ [k] <> t.
Proof.
  intros H. apply (f_equal (@List.length _)) in H.
  rewrite length_app in H. simpl in H. lia.
Qed.

Lemma children_NoDup (t : QuadKey) : NoDup (children t).
Proof.
  unfold children. simpl.
  repeat constructor; simpl; intros H;
    repeat (destruct H as [H | H]; [apply app_inv_head in H; discriminate |]);
    exact H.
Qed.

Lemma in_children (t c : QuadKey) : In c (children t) <-> exists k, c = t ++ [k].
Proof.
  unfold children. simpl. split.
  - intros [H | [H | [H | [H | []]]]]; subst; eexists; reflexivity.
  - intros [[] ->]; auto.
Qed.

(** ** Geometry *)

(** C8.  For every point (longitude, latitude) and every tile,
    [point_in_tile] is true exactly when the longitude lies between
    the west and east sides and the latitude between the south and
    north sides, sides included; the sides are read from the
    (latitude, longitude) pairs of the south-west and north-east
    corners.  In particular the points of the four sides of a tile are
    inside it. *)
Theorem point_in_tile_closed_box (E : Env) (tile : QuadKey) (lon lat : Q) :
  (point_in_tile E (lon, lat) tile = true <->
   (west E tile <= lon /\ lon <= east E tile) /\
   (south E tile <= lat /\ lat <= north E tile))%Q
  /\ to_geo E tile ANCHOR_SW = (south E tile, west E tile)
  /\ to_geo E tile ANCHOR_NE = (north E tile, east E tile)
  /\ ((west E tile <= east E tile)%Q ->
      (south E tile <= lat /\ lat <= north E tile)%Q ->
      point_in_tile E (west E tile, lat) tile = true /\
      point_in_tile E (east E tile, lat) tile = true)
  /\ ((south E tile <= north E tile)%Q ->
      (west E tile <= lon /\ lon <= east E tile)%Q ->
      point_in_tile E (lon, south E tile) tile = true /\
      point_in_tile E (lon, north E tile) tile = true).
Proof.
  assert (Hiff : forall x y,
    point_in_tile E (x, y) tile = true <->
    ((west E tile <= x /\ x <= east E tile) /\
     (south E tile <= y /\ y <= north E tile))%Q).
  { intros x y. unfold point_in_tile, west, east, south, north.
    destruct (to_geo E tile ANCHOR_SW) as [lat_min lon_min].
    destruct (to_geo E tile ANCHOR_NE) as [lat_max lon_max]. simpl.
    rewrite !andb_true_iff, !Qle_bool_iff. tauto. }
  split; [apply Hiff |].
  split; [unfold south, west; destruct (to_geo E tile ANCHOR_SW); reflexivity |].
  split; [unfold north, east; destruct (to_geo E tile ANCHOR_NE); reflexivity |].
  split.
  - intros Hwe Hlat. split; apply Hiff; (split; [| exact Hlat]);
      split; try assumption; apply Qle_refl.
  - intros Hsn Hlon. split; apply Hiff; (split; [exact Hlon |]);
      split; try assumption; apply Qle_refl.
Qed.

(** ** Records of a response *)

(** The loop over the children appends, in order, the children that
    hold the point and are not pending. *)
Lemma enqueue_fold (E : Env) (p : Q * Q) (cs tiles : list QuadKey) :
  NoDup cs ->
  fold_left
    (fun tiles child =>
       if point_in_tile E p child && negb (quadkey_in child tiles)
       then tiles ++ [child] else tiles) cs tiles
  = tiles ++ filter (fun c => point_in_tile E p c && negb (quadkey_in c tiles)) cs.
Proof.
  revert tiles. induction cs as [|c cs IH]; intros tiles Hnd; simpl.
  - now rewrite app_nil_r.
  - inversion Hnd as [|? ? Hc Hcs]; subst.
    destruct (point_in_tile E p c && negb (quadkey_in c tiles)) eqn:Hb.
    + rewrite IH by assumption. rewrite <- app_assoc. simpl. do 2 f_equal.
      apply filter_ext_in. intros c' Hc'.
      rewrite quadkey_in_app. simpl.
      destruct (quadkey_eqb c' c) eqn:He.
      * apply quadkey_eqb_eq in He; subst; contradiction.
      * now rewrite orb_false_r.
    + apply IH; assumption.
Qed.

Lemma enqueue_children_filter (E : Env) (p : Q * Q) (tile : QuadKey)
    (tiles : list QuadKey) :
  enqueue_children E p tile tiles
  = tiles ++ filter (fun c => point_in_tile E p c && negb (quadkey_in c tiles))
               (children tile).
Proof. apply enqueue_fold, children_NoDup. Qed.

Lemma enqueue_children_NoDup (E : Env) (p : Q * Q) (tile : QuadKey)
    (tiles : list QuadKey) :
  NoDup tiles -> NoDup (enqueue_children E p tile tiles).
Proof.
  intros Hnd. rewrite enqueue_children_filter.
  apply NoDup_app; [assumption | apply NoDup_filter, children_NoDup |].
  intros c Hin Hf. apply filter_In in Hf. destruct Hf as [_ Hf].
  apply andb_true_iff in Hf. destruct Hf as [_ Hf].
  apply negb_true_iff in Hf. apply quadkey_in_In in Hin. congruence.
Qed.

(** A record that is a cluster: its point decodes, its description
    says [cluster], it is titled ['Area Outage'] and its key
    ['outages'] holds [sub]. *)
Definition is_cluster (E : Env) (outage : pyval) (p : Q * Q) (desc sub : pyval)
    : Prop :=
  decode_point E outage = Ok p /\
  getitem outage "desc" = Ok desc /\
  (exists cluster, getitem desc "cluster" = Ok cluster /\ truthy cluster = true) /\
  (exists title, getitem outage "title" = Ok title /\
                 py_eq_str title "Area Outage" = true) /\
  getitem desc "outages" = Ok sub.

Lemma process_cluster (E : Env) (tile : QuadKey) (events : list Event)
    (tiles : list QuadKey) (outage : pyval) (p : Q * Q) (desc sub : pyval) :
  is_cluster E outage p desc sub ->
  process_outage E tile (events, tiles) outage =
  if truthy sub then
    (cust_a <- getitem desc "cust_a" ;;
     total <- val1 cust_a "val" ;;
     subs <- iter sub ;;
     n <- sum_cust_a 0 subs ;;
     _ <- assert (py_eqb total (PInt n)) ;;
     Ok (events ++ map (fun '(i, s) => (p, i + 1, s)) (enumerate 0 subs), tiles))%res
  else Ok (events, enqueue_children E p tile tiles).
Proof.
  intros (Hp & Hd & (cl & Hcl & Htr) & (ti & Hti & Hte) & Hsub).
  unfold process_outage. rewrite Hp; simpl. rewrite Hd; simpl.
  rewrite Hcl; simpl. rewrite Htr; simpl. rewrite Hti; simpl.
  rewrite Hte; simpl. rewrite Hsub; simpl. reflexivity.
Qed.

(** C5.  For a cluster record with no itemized list of sub-events, the
    children of the current tile appended to the queue are exactly
    those whose bounds hold the point of the record and that are not
    pending in the queue, in the order of the children; nothing else
    changes.  A child that is pending is not appended again, so a queue
    without repeats stays without repeats, and a second record with the
    same point appends nothing. *)
Theorem unitemized_cluster_enqueues (E : Env) (tile : QuadKey)
    (events : list Event) (tiles : list QuadKey) (outage : pyval)
    (p : Q * Q) (desc sub : pyval) :
  is_cluster E outage p desc sub ->
  truthy sub = false ->
  let tiles' :=
    tiles ++ filter (fun c => point_in_tile E p c && negb (quadkey_in c tiles))
               (children tile) in
  process_outage E tile (events, tiles) outage = Ok (events, tiles')
  /\ (forall c, In c tiles' <->
        In c tiles \/ (In c (children tile) /\ point_in_tile E p c = true))
  /\ (forall c, In c tiles ->
        count_occ quadkey_eq_dec tiles' c = count_occ quadkey_eq_dec tiles c)
  /\ (NoDup tiles -> NoDup tiles')
  /\ process_outage E tile (events, tiles') outage = Ok (events, tiles').
Proof.
  intros Hc Hsub tiles'.
  assert (Hstep : forall q, process_outage E tile (events, q) outage
                            = Ok (events, enqueue_children E p tile q)).
  { intros q. rewrite (process_cluster _ tile events q _ _ _ _ Hc), Hsub. reflexivity. }
  split; [rewrite Hstep, enqueue_children_filter; reflexivity |].
  split.
  { intros c. unfold tiles'. rewrite in_app_iff, filter_In, andb_true_iff,
      negb_true_iff. split.
    - intros [H | (H1 & H2 & _)]; auto.
    - intros [H | [H1 H2]]; auto.
      destruct (quadkey_in c tiles) eqn:Hq; auto.
      apply quadkey_in_In in Hq; auto. }
  split.
  { intros c Hin. unfold tiles'. rewrite count_occ_app.
    match goal with
    | |- (_ + ?n = _)%nat => assert (Hz : n = 0%nat); [| rewrite Hz; lia]
    end.
    apply count_occ_not_In.
    intros Hf. apply filter_In in Hf. destruct Hf as [_ Hf].
    apply andb_true_iff in Hf. destruct Hf as [_ Hf].
    apply negb_true_iff in Hf. apply quadkey_in_In in Hin. congruence. }
  split.
  { intros Hnd. unfold tiles'. rewrite <- enqueue_children_filter.
    apply enqueue_children_NoDup; assumption. }
  rewrite Hstep, enqueue_children_filter.
  rewrite (filter_ext_in _ (fun _ => false)), filter_false;
    [now rewrite app_nil_r |].
  intros c Hin. apply andb_false_iff.
  destruct (point_in_tile E p c) eqn:Hpt; [right | now left].
  apply negb_false_iff, quadkey_in_In. unfold tiles'.
  apply in_app_iff.
  destruct (quadkey_in c tiles) eqn:Hq; [left; now apply quadkey_in_In |].
  right. apply filter_In. split; [assumption |]. now rewrite Hpt, Hq.
Qed.

Lemma enumerate_length {A} (l : list A) (i : Z) :
  List.length (enumerate i l) = List.length l.
Proof. revert i; induction l; intros; simpl; auto. Qed.

Lemma enumerate_nth {A} (l : list A) (i : Z) (k : nat) (x : A) :
  nth_error l k = Some x ->
  nth_error (enumerate i l) k = Some (i + Z.of_nat k, x).
Proof.
  revert i k. induction l as [|y l IH]; intros i [|k] H; simpl in *;
    try discriminate.
  - injection H as ->. now rewrite Z.add_0_r.
  - rewrite (IH (i + 1) k H). do 2 f_equal. lia.
Qed.

Lemma enumerate_snd {A} (l : list A) (i : Z) : map snd (enumerate i l) = l.
Proof. revert i; induction l; intros; simpl; f_equal; auto. Qed.

(** *** Exceptions end the run *)

Lemma for_each_app {A S} (body : S -> A -> res S) (l1 l2 : list A) (st : S) :
  for_each body (l1 ++ l2) st
  = (st' <- for_each body l1 st ;; for_each body l2 st')%res.
Proof.
  revert st. induction l1 as [|x l1 IH]; intros st; simpl; [reflexivity |].
  destruct (body st x); simpl; auto.
Qed.

Lemma for_each_raise {A S} (body : S -> A -> res S) (pre post : list A)
    (x : A) (st st' : S) (e : exn) :
  for_each body pre st = Ok st' ->
  body st' x = Raise e ->
  for_each body (pre ++ x :: post) st = Raise e.
Proof.
  intros Hpre Hx. rewrite for_each_app, Hpre. simpl. now rewrite Hx.
Qed.

Lemma scrape_loop_cons (E : Env) (fuel : nat) (site : Site) (t0 t : datetime)
    (tile : QuadKey) (tiles : list QuadKey) (events : list Event) (w : World) :
  scrape_loop E (S fuel) site t0 (tile :: tiles) events t w =
  match fetch E (fetch_fuel t0 t) site tile t0 0 t w with
  | (Return (r, t'), w') =>
      if negb (ok r) then scrape_loop E fuel site t0 tiles events t' w'
      else
        match (outages <- file_data r ;;
               for_each (process_outage E tile) outages (events, tiles))%res with
        | Ok (events', tiles') => scrape_loop E fuel site t0 tiles' events' t' w'
        | Raise e => (Throw e, w')
        end
  | (Throw e, w') => (Throw e, w')
  | (Timeout, w') => (Timeout, w')
  end.
Proof.
  cbn [scrape_loop]. unfold bind at 1.
  destruct (fetch E (fetch_fuel t0 t) site tile t0 0 t w) as [[[r t'] | e |] w'];
    try reflexivity.
  destruct (negb (ok r)); [reflexivity |].
  unfold bind.
  destruct (outages <- file_data r ;;
            for_each (process_outage E tile) outages (events, tiles))%res
    as [[ev tl] | e]; reflexivity.
Qed.

(** A record that raises ends [scrape]: the records and the tiles
    after it are not looked at. *)
Lemma scrape_loop_raise (E : Env) (fuel : nat) (site : Site) (t0 t t' : datetime)
    (tile : QuadKey) (tiles : list QuadKey) (events : list Event)
    (r : Response) (w w' : World) (pre post : list pyval) (outage : pyval)
    (st' : list Event * list QuadKey) (e : exn) :
  fetch E (fetch_fuel t0 t) site tile t0 0 t w = (Return (r, t'), w') ->
  ok r = true ->
  file_data r = Ok (pre ++ outage :: post) ->
  for_each (process_outage E tile) pre (events, tiles) = Ok st' ->
  process_outage E tile st' outage = Raise e ->
  scrape_loop E (S fuel) site t0 (tile :: tiles) events t w = (Throw e, w').
Proof.
  intros Hf Hok Hfd Hpre Hx. rewrite scrape_loop_cons, Hf, Hok, Hfd. simpl.
  rewrite (@for_each_raise _ _ _ pre post outage _ st' e Hpre Hx). reflexivity.
Qed.

(** An exception in [scrape] ends [main], and the database stays as
    last committed. *)
Lemma main_scrape_raise (E : Env) (tiles_fuel fuel : nat) (enums : Enums)
    (db : Db) (job : Job) (site : Site) (w w' : World) (e : exn) :
  select_job db = Some job ->
  py_nth sites (job_site job) = Ok site ->
  scrape E tiles_fuel site (start_time site job) w = (Throw e, w') ->
  main E tiles_fuel (S fuel) (enums, db) w = (Throw e, db, w').
Proof.
  intros Hj Hs Hsc. cbn [main main_step]. rewrite Hj. unfold bind at 1.
  rewrite Hs. cbn [lift ret]. unfold bind. rewrite Hsc. reflexivity.
Qed.

(** C4.  For a cluster record that carries an itemized list of
    sub-events whose customer counts add up to [n]: when the count the
    cluster reports equals [n], the record raises nothing and appends
    to the events one triple per sub-event, in the order of the list,
    the k-th one (k = 1..n) tagged [k], and leaves the queue as it is;
    when it differs, the record raises [AssertionError], which ends
    the traversal, and an exception that ends the traversal ends the
    run with the database as last committed. *)
Theorem itemized_cluster_emits (E : Env) (tile : QuadKey)
    (events : list Event) (tiles : list QuadKey) (outage : pyval)
    (p : Q * Q) (desc sub cust_a total : pyval) (subs : list pyval) (n : Z) :
  is_cluster E outage p desc sub ->
  truthy sub = true ->
  iter sub = Ok subs ->
  getitem desc "cust_a" = Ok cust_a ->
  val1 cust_a "val" = Ok total ->
  sum_cust_a 0 subs = Ok n ->
  let emitted := map (fun '(i, s) => (p, i + 1, s)) (enumerate 0 subs) in
  (py_eqb total (PInt n) = true ->
     process_outage E tile (events, tiles) outage = Ok (events ++ emitted, tiles))
  /\ List.length emitted = List.length subs
  /\ (forall k s, nth_error subs k = Some s ->
        nth_error emitted k = Some (p, Z.of_nat k + 1, s))
  /\ (py_eqb total (PInt n) = false ->
      process_outage E tile (events, tiles) outage = Raise AssertionError
      /\ forall pre post events0 tiles0 r fuel site t0 t w t' w',
           fetch E (fetch_fuel t0 t) site tile t0 0 t w = (Return (r, t'), w') ->
           ok r = true ->
           file_data r = Ok (pre ++ outage :: post) ->
           for_each (process_outage E tile) pre (events0, tiles0)
             = Ok (events, tiles) ->
           scrape_loop E (S fuel) site t0 (tile :: tiles0) events0 t w
             = (Throw AssertionError, w'))
  /\ (forall tiles_fuel fuel enums db job site w w' e,
        select_job db = Some job ->
        py_nth sites (job_site job) = Ok site ->
        scrape E tiles_fuel site (start_time site job) w = (Throw e, w') ->
        main E tiles_fuel (S fuel) (enums, db) w = (Throw e, db, w')).
Proof.
  intros Hc Hsub Hit Hca Hv Hsum emitted.
  assert (Hstep : process_outage E tile (events, tiles) outage =
                  (_ <- assert (py_eqb total (PInt n)) ;;
                   Ok (events ++ emitted, tiles))%res).
  { rewrite (process_cluster _ tile events tiles _ _ _ _ Hc), Hsub, Hca. simpl.
    rewrite Hv. simpl. rewrite Hit. simpl. rewrite Hsum. reflexivity. }
  split; [intros Heq; rewrite Hstep, Heq; reflexivity |].
  split; [unfold emitted; now rewrite length_map, enumerate_length |].
  split.
  { intros k s Hk. unfold emitted. rewrite nth_error_map.
    rewrite (enumerate_nth _ 0 _ _ Hk). simpl. reflexivity. }
  split.
  { intros Hne.
    assert (Hr : process_outage E tile (events, tiles) outage = Raise AssertionError)
      by (rewrite Hstep, Hne; reflexivity).
    split; [exact Hr |].
    intros. eapply scrape_loop_raise; eauto. }
  intros. eapply main_scrape_raise; eauto.
Qed.

(** ** Estimated restoration time *)

Lemma re_sub_offset_cons (c : ascii) (s : string) :
  (5 <= String.length s)%nat ->
  re_sub_offset (String c s) = String c (re_sub_offset s).
Proof.
  intros H.
  destruct s as [|c1 [|c2 [|c3 [|c4 [|c5 s]]]]]; simpl in H; try lia.
  reflexivity.
Qed.

Lemma re_sub_offset_short (s : string) :
  (String.length s < 5)%nat -> re_sub_offset s = s.
Proof.
  intros H.
  destruct s as [|c1 [|c2 [|c3 [|c4 [|c5 s]]]]]; simpl in H; try lia;
    reflexivity.
Qed.

Lemma append_length (a b : string) :
  String.length (String.append a b) = (String.length a + String.length b)%nat.
Proof. induction a; simpl; auto. Qed.

(** The substitution rewrites the last five characters, and only when
    they are a sign and four digits. *)
Lemma re_sub_offset_tail (pre : string) (c0 c1 c2 c3 c4 : ascii) :
  re_sub_offset
    (String.append pre
       (String c0 (String c1 (String c2 (String c3 (String c4 EmptyString))))))
  = String.append pre
      (if is_sign c0 && is_digit c1 && is_digit c2 && is_digit c3 && is_digit c4
       then String c0 (String c1 (String c2
              (String ":"%char (String c3 (String c4 EmptyString)))))
       else String c0 (String c1 (String c2 (String c3 (String c4 EmptyString))))).
Proof.
  induction pre as [|c pre IH].
  - simpl.
    destruct (is_sign c0 && is_digit c1 && is_digit c2 && is_digit c3
              && is_digit c4); reflexivity.
  - cbn [String.append]. rewrite re_sub_offset_cons.
    + now rewrite IH.
    + rewrite append_length. simpl. lia.
Qed.

(** C7.  The column [etr] takes one of three forms: ['ETR-NULL'] gives
    null, ['ETR-EXP'] gives the reserved value -1, and any other string
    gives the epoch seconds of the string read as an ISO timestamp
    after a trailing offset of a sign and four digits got its colon
    (nothing else is rewritten); so ['2021-07-04T10:00-0500'] and
    ['2021-07-04T10:00-05:00'] give the same value, 1625410800 with
    the reference reading of ISO timestamps. *)
Theorem etr_three_cases (E : Env) (upstream : nat -> Request -> Response) :
  encode_etr E (PStr "ETR-NULL") = Ok PNone
  /\ encode_etr E (PStr "ETR-EXP") = Ok (PInt (-1))
  /\ (forall s, s <> "ETR-NULL" -> s <> "ETR-EXP" ->
        encode_etr E (PStr s)
        = (t <- fromisoformat E (re_sub_offset s) ;; Ok (PInt t))%res)
  /\ (forall pre sg a b c d,
        is_sign sg = true -> is_digit a = true -> is_digit b = true ->
        is_digit c = true -> is_digit d = true ->
        re_sub_offset
          (String.append pre
             (String sg (String a (String b (String c (String d EmptyString))))))
        = String.append pre
            (String sg (String a (String b
               (String ":"%char (String c (String d EmptyString)))))))
  /\ (forall pre c0 c1 c2 c3 c4,
        is_sign c0 && is_digit c1 && is_digit c2 && is_digit c3 && is_digit c4
          = false ->
        re_sub_offset
          (String.append pre
             (String c0 (String c1 (String c2 (String c3 (String c4 EmptyString))))))
        = String.append pre
            (String c0 (String c1 (String c2 (String c3 (String c4 EmptyString))))))
  /\ (forall s, (String.length s < 5)%nat -> re_sub_offset s = s)
  /\ re_sub_offset "2021-07-04T10:00-0500" = "2021-07-04T10:00-05:00"
  /\ re_sub_offset "2021-07-04T10:00-05:00" = "2021-07-04T10:00-05:00"
  /\ encode_etr E (PStr "2021-07-04T10:00-0500")
     = encode_etr E (PStr "2021-07-04T10:00-05:00")
  /\ encode_etr (Demo.env upstream) (PStr "2021-07-04T10:00-0500")
     = Ok (PInt 1625410800)
  /\ encode_etr (Demo.env upstream) (PStr "2021-07-04T10:00-05:00")
     = Ok (PInt 1625410800).
Proof.
  split; [reflexivity |]. split; [reflexivity |].
  split.
  { intros s H1 H2. unfold encode_etr, py_eq_str. cbn [py_eqb].
    apply String.eqb_neq in H1, H2. now rewrite H1, H2. }
  split.
  { intros pre sg a b c d Hs Ha Hb Hc Hd.
    now rewrite re_sub_offset_tail, Hs, Ha, Hb, Hc, Hd. }
  split.
  { intros pre c0 c1 c2 c3 c4 H. now rewrite re_sub_offset_tail, H. }
  split; [apply re_sub_offset_short |].
  repeat split; reflexivity.
Qed.

(** ** Enumerated columns *)

Lemma assoc_set_same {A} (k : string) (v : A) (l : list (string * A)) :
  assoc k (assoc_set k v l) = Some v.
Proof.
  induction l as [|[k' v'] l IH]; simpl.
  - now rewrite String.eqb_refl.
  - destruct (String.eqb k k') eqn:He; simpl; rewrite ?String.eqb_refl, ?He; auto.
Qed.

Lemma assoc_set_other {A} (k k' : string) (v : A) (l : list (string * A)) :
  k <> k' -> assoc k (assoc_set k' v l) = assoc k l.
Proof.
  intros Hne. induction l as [|[k2 v2] l IH]; simpl.
  - apply String.eqb_neq in Hne. now rewrite Hne.
  - destruct (String.eqb k' k2) eqn:He; simpl.
    + apply String.eqb_eq in He; subst k2.
      apply String.eqb_neq in Hne. now rewrite Hne.
    + destruct (String.eqb k k2); auto.
Qed.

Lemma assoc_app {A} (k : string) (l1 l2 : list (string * A)) :
  assoc k (l1 ++ l2)
  = match assoc k l1 with Some v => Some v | None => assoc k l2 end.
Proof.
  induction l1 as [|[k' v'] l1 IH]; simpl; [reflexivity |].
  destruct (String.eqb k k'); auto.
Qed.

Lemma assoc_keys {A} (k : string) (l : list (string * A)) (v : A) :
  assoc k l = Some v -> In k (map fst l).
Proof.
  induction l as [|[k' v'] l IH]; simpl; [discriminate |].
  destruct (String.eqb k k') eqn:He.
  - apply String.eqb_eq in He. auto.
  - auto.
Qed.

Lemma na_like_iff (v : pyval) :
  existsb (py_eq_str v) na_like_values = true <-> v = PStr "Not Supplied".
Proof.
  unfold na_like_values, py_eq_str. cbn [existsb]. rewrite orb_false_r.
  destruct v; cbn [py_eqb]; try (split; congruence).
  rewrite String.eqb_eq. split; congruence.
Qed.

Lemma normalize_col_eq (d : list (string * pyval)) (enums : Enums)
    (ec : string) (v : pyval) :
  assoc ec d = Some v ->
  normalize_col (PDict d, enums) ec =
  if existsb (py_eq_str v) na_like_values
  then Ok (PDict (assoc_set ec PNone d), enums)
  else if truthy v then
    (e <- enums_get enums ec ;;
     e' <- setdefault e v (len e) ;;
     Ok (PDict d, assoc_set ec e' enums))%res
  else Ok (PDict d, enums).
Proof.
  intros Hv. unfold normalize_col, getitem. rewrite Hv. cbn [res_bind].
  destruct (existsb (py_eq_str v) na_like_values).
  - cbn [setitem res_bind]. rewrite assoc_set_same. reflexivity.
  - cbn [res_bind]. rewrite Hv. reflexivity.
Qed.

(** Normalising the columns leaves an empty string where it is and
    gives its column nothing. *)
Lemma normalize_cols_empty (cols : list string) (d d' : list (string * pyval))
    (enums enums' : Enums) (ec : string) :
  assoc ec d = Some (PStr "") ->
  for_each normalize_col cols (PDict d, enums) = Ok (PDict d', enums') ->
  assoc ec d' = Some (PStr "") /\ assoc ec enums' = assoc ec enums.
Proof.
  revert d enums. induction cols as [|c cols IH]; intros d enums Hec H.
  - simpl in H. injection H as -> ->. auto.
  - cbn [for_each] in H.
    destruct (string_dec c ec) as [-> | Hne].
    + rewrite (normalize_col_eq _ enums _ _ Hec) in H. simpl in H. eauto.
    + destruct (assoc c d) as [v |] eqn:Hv.
      * rewrite (normalize_col_eq _ enums _ _ Hv) in H.
        destruct (existsb (py_eq_str v) na_like_values).
        { simpl in H. apply IH in H.
          - exact H.
          - rewrite assoc_set_other; auto. }
        destruct (truthy v).
        { destruct (enums_get enums c) as [e |]; [| discriminate].
          cbn [res_bind] in H.
          destruct (setdefault e v (len e)) as [e' |]; [| discriminate].
          cbn [res_bind] in H. apply IH in H; [| assumption].
          destruct H as [H1 H2]. split; [assumption |].
          rewrite H2. apply assoc_set_other. auto. }
        simpl in H. eauto.
      * unfold normalize_col, getitem in H. rewrite Hv in H. discriminate.
Qed.

Lemma normalize_cols_dict (cols : list string) (x y : pyval) (enums enums' : Enums) :
  for_each normalize_col cols (x, enums) = Ok (y, enums') ->
  (exists d, x = PDict d) -> exists d', y = PDict d'.
Proof.
  revert x enums. induction cols as [|c cols IH]; intros x enums H [d ->].
  - simpl in H. injection H as <- _. eauto.
  - cbn [for_each] in H.
    destruct (normalize_col (PDict d, enums) c) as [[x' en'] |] eqn:Hn;
      [| discriminate].
    cbn [res_bind] in H. apply IH in H; [assumption |].
    unfold normalize_col, getitem in Hn.
    destruct (assoc c d) as [v |]; [| discriminate]. cbn [res_bind] in Hn.
    destruct (existsb (py_eq_str v) na_like_values); cbn [setitem res_bind] in Hn.
    + rewrite assoc_set_same in Hn. simpl in Hn. injection Hn as <- _. eauto.
    + destruct (assoc c d) as [v' |]; [| discriminate]. cbn [res_bind] in Hn.
      destruct (truthy v').
      * destruct (enums_get enums c) as [e |]; [| discriminate].
        cbn [res_bind] in Hn.
        destruct (setdefault e v' (len e)); [| discriminate].
        injection Hn as <- _. eauto.
      * injection Hn as <- _. eauto.
Qed.

(** The cells of the enumerated columns of a row. *)
Lemma cells_assoc (desc : pyval) (enums : Enums) (cols : list string)
    (acc cells : Row) :
  for_each (fun cells ec =>
              (c <- enum_cell desc enums ec ;; Ok (assoc_set ec c cells))%res)
           cols acc = Ok cells ->
  forall ec,
    (In ec cols -> exists c, enum_cell desc enums ec = Ok c /\ assoc ec cells = Some c)
    /\ (~ In ec cols -> assoc ec cells = assoc ec acc).
Proof.
  revert acc. induction cols as [|c0 cols IH]; intros acc H ec.
  - simpl in H. injection H as <-. split; [intros [] | reflexivity].
  - cbn [for_each] in H.
    destruct (enum_cell desc enums c0) as [v0 |] eqn:Hc0; [| discriminate].
    cbn [res_bind] in H. specialize (IH _ H ec). destruct IH as [IH1 IH2].
    split.
    + intros Hin. destruct (in_dec string_dec ec cols) as [Hi | Hni]; [auto |].
      destruct Hin as [-> | Hin]; [| contradiction].
      exists v0. split; [assumption |].
      rewrite (IH2 Hni). apply assoc_set_same.
    + intros Hni. simpl in Hni.
      rewrite IH2 by tauto. apply assoc_set_other. intros ->. tauto.
Qed.

Lemma make_row_cell (E : Env) (site : Site) (t : datetime) (p : Q * Q)
    (ix : Z) (desc : pyval) (enums : Enums) (row : Row) (ec : string) :
  make_row E site t p ix desc enums = Ok row ->
  In ec (enum_cols E) ->
  exists c, enum_cell desc enums ec = Ok c /\ assoc ec row = Some c.
Proof.
  unfold make_row. destruct p as [lon lat]. intros H Hin.
  destruct (getitem desc "cust_a") as [ca |]; [| discriminate].
  cbn [res_bind] in H.
  destruct (val1 ca "val") as [cust |]; [| discriminate]. cbn [res_bind] in H.
  destruct (getitem desc "etr") as [etr |]; [| discriminate].
  cbn [res_bind] in H.
  destruct (encode_etr E etr) as [etr' |]; [| discriminate]. cbn [res_bind] in H.
  match type of H with
  | (res_bind ?m _ = _) => destruct m as [cells |] eqn:Hcells; [| discriminate]
  end.
  cbn [res_bind] in H.
  match type of H with
  | ((if ?b then _ else _) = _) => destruct b eqn:Hb; [discriminate |]
  end.
  injection H as <-.
  destruct (proj1 (cells_assoc desc enums _ _ _ Hcells ec) Hin) as (c & Hc & Ha).
  exists c. split; [assumption |].
  set (fixed := [("site", PInt (code site)); ("ilon", PInt (fixed_point E lon));
                 ("ilat", PInt (fixed_point E lat));
                 ("time", PInt (timestamp (tz site) t));
                 ("outage_ix", PInt ix); ("cust_a", cust); ("etr", etr')]) in *.
  change (assoc ec (fixed ++ cells) = Some c).
  rewrite assoc_app.
  destruct (assoc ec fixed) as [x |] eqn:Hx; [| assumption].
  exfalso. apply assoc_keys in Hx.
  assert (Hf : existsb
    (fun kv : string * pyval => existsb (String.eqb (fst kv)) (keys fixed))
    cells = true); [| congruence].
  apply existsb_exists.
  assert (Hk : exists v, In (ec, v) cells).
  { clear - Ha. induction cells as [|[k v] cells IH]; simpl in Ha; [discriminate |].
    destruct (String.eqb ec k) eqn:He.
    - apply String.eqb_eq in He; subst. exists v. now left.
    - destruct (IH Ha) as [v' Hv']. exists v'. now right. }
  destruct Hk as [v Hv]. exists (ec, v). split; [assumption |].
  apply existsb_exists. exists ec. split; [exact Hx | apply String.eqb_refl].
Qed.

(** C10.  A categorical value becomes null exactly when it is the
    string ['Not Supplied']; a code is looked up or allocated exactly
    when the value left is truthy; a falsy value is stored as it is.
    So for the empty string the value is not made null, its column gets
    no code, and the row built for the event holds the empty string in
    that column. *)
Theorem empty_string_is_stored (E : Env) :
  (forall v, existsb (py_eq_str v) na_like_values = true
             <-> v = PStr "Not Supplied")
  /\ (forall d enums ec v,
        assoc ec d = Some v ->
        normalize_col (PDict d, enums) ec =
        if existsb (py_eq_str v) na_like_values
        then Ok (PDict (assoc_set ec PNone d), enums)
        else if truthy v then
          (e <- enums_get enums ec ;;
           e' <- setdefault e v (len e) ;;
           Ok (PDict d, assoc_set ec e' enums))%res
        else Ok (PDict d, enums))
  /\ (forall d enums ec v,
        assoc ec d = Some v ->
        enum_cell (PDict d) enums ec =
        if truthy v then
          (e <- enums_get enums ec ;;
           match enum_lookup v e with
           | Some c => Ok (PInt c)
           | None => Raise KeyError
           end)%res
        else Ok v)
  /\ (forall d enums ec,
        assoc ec d = Some (PStr "") ->
        normalize_col (PDict d, enums) ec = Ok (PDict d, enums)
        /\ enum_cell (PDict d) enums ec = Ok (PStr ""))
  /\ (forall site t enums out p ix d enums' out' ec,
        In ec (enum_cols E) ->
        assoc ec d = Some (PStr "") ->
        save_event E site t (enums, out) (p, ix, PDict d) = Ok (enums', out') ->
        assoc ec enums' = assoc ec enums
        /\ exists row,
             assoc ec row = Some (PStr "")
             /\ out' = (if existsb (fun d' => py_eqb (PDict d') (PDict row)) out
                        then out else out ++ [row])).
Proof.
  split; [apply na_like_iff |].
  split; [intros; now apply normalize_col_eq |].
  assert (Hcell : forall d enums ec v,
            assoc ec d = Some v ->
            enum_cell (PDict d) enums ec =
            if truthy v then
              (e <- enums_get enums ec ;;
               match enum_lookup v e with
               | Some c => Ok (PInt c)
               | None => Raise KeyError
               end)%res
            else Ok v).
  { intros d enums ec v Hv. unfold enum_cell, getitem. rewrite Hv. reflexivity. }
  split; [exact Hcell |].
  split.
  { intros d enums ec Hv. split.
    - rewrite (normalize_col_eq _ enums _ _ Hv). reflexivity.
    - rewrite (Hcell _ enums _ _ Hv). reflexivity. }
  intros site t enums out p ix d enums' out' ec Hin Hv H.
  unfold save_event in H.
  destruct (sorted_keys (PDict d)) as [ks |]; [| discriminate].
  cbn [res_bind] in H.
  destruct (assert (str_list_eqb ks desc_keys)); [| discriminate].
  cbn [res_bind] in H.
  destruct (for_each normalize_col (enum_cols E) (PDict d, enums))
    as [[y en] |] eqn:Hn; [| discriminate].
  cbn [res_bind] in H.
  destruct (normalize_cols_dict _ _ _ _ _ Hn (ex_intro _ d eq_refl)) as [d' ->].
  destruct (normalize_cols_empty _ _ _ _ _ _ Hv Hn) as [Hv' Hen].
  destruct (make_row E site t p ix (PDict d') en) as [row |] eqn:Hrow;
    [| discriminate].
  cbn [res_bind] in H. injection H as <- <-.
  split; [assumption |].
  exists row. split; [| reflexivity].
  destruct (make_row_cell _ _ _ _ _ _ _ _ _ Hrow Hin) as (c & Hc & Ha).
  rewrite (Hcell _ en _ _ Hv') in Hc. simpl in Hc. congruence.
Qed.

(* ================================================================== *)
(** ** Fetching a tile *)
(* ================================================================== *)

Lemma sleepy_get_eq (E : Env) (url : Request) (w : World) :
  sleepy_get E url w = (Return (get E (n_requests w) url), after_get w url).
Proof.
  unfold sleepy_get, after_get, got. cbn [n_requests journal].
  destruct (Nat.eqb (Nat.modulo (S (n_requests w)) request_sleep_interval) 0).
  - unfold bind, sleep, ret. cbn [n_requests journal].
    now rewrite <- app_assoc.
  - reflexivity.
Qed.

(** One turn of the loop of [fetch]. *)
Lemma fetch_S (E : Env) (fuel : nat) (site : Site) (tile : QuadKey)
    (t0 : datetime) (tries : nat) (t : datetime) (w : World) :
  fetch E (S fuel) site tile t0 tries t w =
  let url := request_url site t tile in
  let r := get E (n_requests w) url in
  let w1 := after_get w url in
  if ok r then (Return (r, t), w1)
  else if status_code r =? forbidden then
    match top_tiles site with
    | [] => (Throw IndexError, w1)
    | top0 :: _ =>
        if quadkey_eqb tile top0 then
          if dt_sub (dt_add t subquery_time_increment) t0 >? subquery_time_max_dist
          then (Return (r, dt_add t subquery_time_increment), w1)
          else fetch E fuel site tile t0 0 (dt_add t subquery_time_increment) w1
        else (Return (r, t), w1)
    end
  else if Nat.leb max_tries (S tries) then
    (Throw (RetriesExceeded url (status_code r) (reason r)), w1)
  else fetch E fuel site tile t0 (S tries) t (after_sleep w1 retry).
Proof.
  cbn [fetch]. unfold bind at 1. rewrite sleepy_get_eq. cbv zeta.
  destruct (ok (get E (n_requests w) (request_url site t tile))); [reflexivity |].
  destruct (status_code (get E (n_requests w) (request_url site t tile)) =? forbidden).
  - destruct (top_tiles site) as [|top0 rest]; [reflexivity |].
    destruct (quadkey_eqb tile top0); [| reflexivity].
    destruct (dt_sub (dt_add t subquery_time_increment) t0 >? subquery_time_max_dist);
      reflexivity.
  - destruct (Nat.leb max_tries (S tries)); reflexivity.
Qed.

Lemma shifts_left_next (t0 t : datetime) :
  (dt_sub (dt_add t subquery_time_increment) t0 >? subquery_time_max_dist) = false ->
  shifts_left t0 t = S (shifts_left t0 (dt_add t subquery_time_increment)).
Proof.
  unfold shifts_left, dt_sub, dt_add, subquery_time_increment,
    subquery_time_max_dist. cbn [wall]. intros H.
  assert (Hle : wall t + 30 - wall t0 <= 90) by lia.
  rewrite <- Z2Nat.inj_succ by (apply Z.div_pos; lia).
  f_equal. replace (1 * 60 + 30 - (wall t - wall t0))
    with ((1 * 60 + 30 - (wall t + 30 - wall t0)) + 1 * 30) by lia.
  rewrite Z.div_add by lia. lia.
Qed.

(** The loop of [fetch] ends: with the fuel [scrape] gives it, it
    returns or raises. *)
Lemma fetch_ends (E : Env) (site : Site) (tile : QuadKey) (t0 : datetime)
    (fuel tries : nat) (t : datetime) (w : World) :
  (tries < max_tries)%nat ->
  (max_tries - tries + max_tries * shifts_left t0 t <= fuel)%nat ->
  fst (fetch E fuel site tile t0 tries t w) <> Timeout.
Proof.
  revert tries t w. induction fuel as [|fuel IH]; intros tries t w Ht Hf.
  - unfold max_tries in *. lia.
  - rewrite fetch_S. cbv zeta.
    destruct (ok _); [discriminate |].
    destruct (_ =? forbidden).
    + destruct (top_tiles site) as [|top0 rest]; [discriminate |].
      destruct (quadkey_eqb tile top0); [| discriminate].
      destruct (_ >? _) eqn:Hd; [discriminate |].
      apply IH; [unfold max_tries; lia |].
      rewrite (shifts_left_next _ _ Hd) in Hf. unfold max_tries in *. lia.
    + destruct (Nat.leb max_tries (S tries)) eqn:Hl; [discriminate |].
      apply Nat.leb_gt in Hl.
      apply IH; [assumption | unfold max_tries in *; lia].
Qed.

Lemma fetch_total (E : Env) (site : Site) (tile : QuadKey) (t0 t : datetime)
    (w : World) :
  fst (fetch E (fetch_fuel t0 t) site tile t0 0 t w) <> Timeout.
Proof.
  apply fetch_ends; unfold fetch_fuel, max_tries; lia.
Qed.

Lemma fetch_fuel_S (t0 t : datetime) :
  fetch_fuel t0 t = S (S (S (max_tries * shifts_left t0 t))).
Proof. unfold fetch_fuel, max_tries. lia. Qed.

(** Fuel beyond what the loop uses changes nothing. *)
Lemma fetch_more_fuel (E : Env) (site : Site) (tile : QuadKey) (t0 : datetime)
    (fuel fuel' tries : nat) (t : datetime) (w : World) :
  fst (fetch E fuel site tile t0 tries t w) <> Timeout ->
  (fuel <= fuel')%nat ->
  fetch E fuel' site tile t0 tries t w = fetch E fuel site tile t0 tries t w.
Proof.
  revert fuel' tries t w. induction fuel as [|fuel IH]; intros fuel' tries t w H Hle.
  - simpl in H. congruence.
  - destruct fuel' as [|fuel']; [lia |].
    rewrite fetch_S in H. rewrite !fetch_S. cbv zeta in *.
    destruct (ok _); [reflexivity |].
    destruct (_ =? forbidden).
    + destruct (top_tiles site) as [|top0 rest]; [reflexivity |].
      destruct (quadkey_eqb tile top0); [| reflexivity].
      destruct (_ >? _); [reflexivity |].
      apply IH; [assumption | lia].
    + destruct (Nat.leb max_tries (S tries)); [reflexivity |].
      apply IH; [assumption | lia].
Qed.

Lemma scrape_loop_fetch_raise (E : Env) (fuel : nat) (site : Site)
    (t0 t : datetime) (tile : QuadKey) (tiles : list QuadKey)
    (events : list Event) (w w' : World) (e : exn) :
  fetch E (fetch_fuel t0 t) site tile t0 0 t w = (Throw e, w') ->
  scrape_loop E (S fuel) site t0 (tile :: tiles) events t w = (Throw e, w').
Proof. intros H. now rewrite scrape_loop_cons, H. Qed.

Lemma transient_reply (r : Response) :
  transient r -> ok r = false /\ (status_code r =? forbidden) = false.
Proof. intros [H1 H2]. split; [assumption | now apply Z.eqb_neq]. Qed.

Lemma fetch_transient_retry (E : Env) (fuel : nat) (site : Site) (tile : QuadKey)
    (t0 : datetime) (tries : nat) (t : datetime) (w : World) :
  transient (get E (n_requests w) (request_url site t tile)) ->
  (S tries < max_tries)%nat ->
  fetch E (S fuel) site tile t0 tries t w
  = fetch E fuel site tile t0 (S tries) t
      (after_sleep (after_get w (request_url site t tile)) retry).
Proof.
  intros Hr Ht. apply transient_reply in Hr. destruct Hr as [Hok Hst].
  rewrite fetch_S. cbv zeta. rewrite Hok, Hst.
  apply Nat.leb_gt in Ht. now rewrite Ht.
Qed.

Lemma fetch_transient_abort (E : Env) (fuel : nat) (site : Site) (tile : QuadKey)
    (t0 : datetime) (tries : nat) (t : datetime) (w : World) :
  transient (get E (n_requests w) (request_url site t tile)) ->
  (max_tries <= S tries)%nat ->
  fetch E (S fuel) site tile t0 tries t w
  = (Throw (RetriesExceeded (request_url site t tile)
              (status_code (get E (n_requests w) (request_url site t tile)))
              (reason (get E (n_requests w) (request_url site t tile)))),
     after_get w (request_url site t tile)).
Proof.
  intros Hr Ht. apply transient_reply in Hr. destruct Hr as [Hok Hst].
  rewrite fetch_S. cbv zeta. rewrite Hok, Hst.
  apply Nat.leb_le in Ht. now rewrite Ht.
Qed.

(** C3.  A reply that is neither a success nor "forbidden" makes the
    loop pause for the retry range, 15 to 16 minutes, and send the
    same request again, as long as fewer than three tries were made;
    on the third such try it raises an exception that carries the
    URL, the status and the reason.  Three such replies in a row to
    the request of a tile therefore end [scrape] with that exception,
    whatever tiles are still queued, after exactly three requests and
    two pauses; and an exception that ends [scrape] ends the run. *)
Theorem transient_errors_abort_run (E : Env) (site : Site) (tile : QuadKey)
    (tiles : list QuadKey) (events : list Event) (t0 t : datetime)
    (w : World) (fuel : nat) :
  let url := request_url site t tile in
  let n := n_requests w in
  transient (get E n url) ->
  transient (get E (S n) url) ->
  transient (get E (S (S n)) url) ->
  (forall fuel' tries t' w',
     transient (get E (n_requests w') (request_url site t' tile)) ->
     (S tries < max_tries)%nat ->
     fetch E (S fuel') site tile t0 tries t' w'
     = fetch E fuel' site tile t0 (S tries) t'
         (after_sleep (after_get w' (request_url site t' tile)) retry))
  /\ (forall fuel' tries t' w',
        transient (get E (n_requests w') (request_url site t' tile)) ->
        (max_tries <= S tries)%nat ->
        fetch E (S fuel') site tile t0 tries t' w'
        = (Throw (RetriesExceeded (request_url site t' tile)
                    (status_code (get E (n_requests w') (request_url site t' tile)))
                    (reason (get E (n_requests w') (request_url site t' tile)))),
           after_get w' (request_url site t' tile)))
  /\ sleep_ranges_seconds retry = (inject_Z (15 * 60), inject_Z (16 * 60))
  /\ max_tries = 3%nat
  /\ scrape_loop E (S fuel) site t0 (tile :: tiles) events t w
     = (Throw (RetriesExceeded url (status_code (get E (S (S n)) url))
                 (reason (get E (S (S n)) url))),
        {| n_requests := S (S (S n));
           journal := journal w ++ got n url ++ [Sleep retry]
                        ++ got (S n) url ++ [Sleep retry]
                        ++ got (S (S n)) url |})
  /\ (forall tiles_fuel fuel' enums db job site' w1 w2 e,
        select_job db = Some job ->
        py_nth sites (job_site job) = Ok site' ->
        scrape E tiles_fuel site' (start_time site' job) w1 = (Throw e, w2) ->
        main E tiles_fuel (S fuel') (enums, db) w1 = (Throw e, db, w2)).
Proof.
  intros url n H1 H2 H3.
  split; [intros; now apply fetch_transient_retry |].
  split; [intros; now apply fetch_transient_abort |].
  split; [reflexivity |]. split; [reflexivity |].
  split; [| intros; eapply main_scrape_raise; eauto].
  apply scrape_loop_fetch_raise. rewrite fetch_fuel_S.
  rewrite fetch_transient_retry by (assumption || (unfold max_tries; lia)).
  rewrite fetch_transient_retry by (assumption || (unfold max_tries; lia)).
  rewrite fetch_transient_abort by (assumption || (unfold max_tries; lia)).
  unfold after_sleep, after_get. cbn [n_requests journal]. fold url n.
  rewrite <- !app_assoc. reflexivity.
Qed.

(** *** The journal of a fetch *)

Lemma requests_of_app (a b : list event) :
  requests_of (a ++ b) = requests_of a ++ requests_of b.
Proof.
  induction a as [|[url | k] a IH]; simpl; [reflexivity | now rewrite IH | exact IH].
Qed.

Lemma requests_of_got (n : nat) (url : Request) : requests_of (got n url) = [url].
Proof.
  unfold got. destruct (Nat.eqb _ 0); reflexivity.
Qed.

(** A fetch asks for its tile only, at least once. *)
Lemma fetch_journal (E : Env) (site : Site) (tile : QuadKey) (t0 : datetime)
    (fuel tries : nat) (t : datetime) (w : World) :
  exists j,
    journal (snd (fetch E fuel site tile t0 tries t w)) = journal w ++ j
    /\ Forall (fun url => req_tile url = tile) (requests_of j)
    /\ (fuel <> 0%nat -> requests_of j <> []).
Proof.
  revert tries t w. induction fuel as [|fuel IH]; intros tries t w.
  - exists []. simpl. rewrite app_nil_r. repeat split; auto.
  - assert (Hone : exists j,
        journal (after_get w (request_url site t tile)) = journal w ++ j
        /\ Forall (fun url => req_tile url = tile) (requests_of j)
        /\ (S fuel <> 0%nat -> requests_of j <> [])).
    { exists (got (n_requests w) (request_url site t tile)).
      rewrite requests_of_got. repeat split; auto. discriminate. }
    rewrite fetch_S. cbv zeta.
    destruct (ok _); [exact Hone |].
    destruct (_ =? forbidden).
    + destruct (top_tiles site) as [|top0 rest]; [exact Hone |].
      destruct (quadkey_eqb tile top0); [| exact Hone].
      destruct (_ >? _); [exact Hone |].
      destruct (IH 0%nat (dt_add t subquery_time_increment)
                  (after_get w (request_url site t tile))) as (j & Hj & Hall & _).
      exists (got (n_requests w) (request_url site t tile) ++ j).
      rewrite Hj. cbn [after_get journal]. rewrite <- app_assoc.
      split; [reflexivity |]. rewrite requests_of_app, requests_of_got.
      split; [constructor; auto | discriminate].
    + destruct (Nat.leb max_tries (S tries)); [exact Hone |].
      destruct (IH (S tries) t
                  (after_sleep (after_get w (request_url site t tile)) retry))
        as (j & Hj & Hall & _).
      exists (got (n_requests w) (request_url site t tile) ++ [Sleep retry] ++ j).
      rewrite Hj. cbn [after_sleep after_get journal]. rewrite <- !app_assoc.
      split; [reflexivity |].
      rewrite !requests_of_app, requests_of_got. simpl.
      split; [constructor; auto | discriminate].
Qed.

(** *** What a response does to the queue *)

Ltac res_step H :=
  match type of H with
  | res_bind ?m _ = Ok _ =>
      let x := fresh "x" in
      let Hx := fresh "Hx" in
      destruct m as [x |] eqn:Hx; [cbn [res_bind] in H | discriminate H]
  | (if ?b then _ else _) = Ok _ =>
      let Hb := fresh "Hb" in destruct b eqn:Hb
  end.

Lemma process_outage_queue (E : Env) (tile : QuadKey) (events events' : list Event)
    (tiles tiles' : list QuadKey) (outage : pyval) :
  process_outage E tile (events, tiles) outage = Ok (events', tiles') ->
  tiles' = tiles \/ exists p, tiles' = enqueue_children E p tile tiles.
Proof.
  unfold process_outage. intros H.
  repeat res_step H; try discriminate;
    injection H as _ <-; eauto.
Qed.

Lemma queue_extends_refl (tile : QuadKey) (tiles : list QuadKey) :
  queue_extends tile tiles tiles.
Proof.
  exists []. rewrite app_nil_r. repeat split; auto using NoDup_nil;
    intros c [].
Qed.

Lemma queue_extends_trans (tile : QuadKey) (a b c : list QuadKey) :
  queue_extends tile a b -> queue_extends tile b c -> queue_extends tile a c.
Proof.
  intros (e1 & -> & Hi1 & Hn1 & Hd1) (e2 & -> & Hi2 & Hn2 & Hd2).
  exists (e1 ++ e2). rewrite app_assoc. split; [reflexivity |].
  split; [apply incl_app; assumption |].
  split.
  - apply NoDup_app; auto. intros x H1 H2. apply (Hd2 _ H2).
    apply in_app_iff. now right.
  - intros x Hx Ha. apply in_app_iff in Hx. destruct Hx as [Hx | Hx].
    + exact (Hd1 _ Hx Ha).
    + apply (Hd2 _ Hx). apply in_app_iff. now left.
Qed.

Lemma enqueue_children_extends (E : Env) (p : Q * Q) (tile : QuadKey)
    (tiles : list QuadKey) :
  queue_extends tile tiles (enqueue_children E p tile tiles).
Proof.
  rewrite enqueue_children_filter.
  eexists. split; [reflexivity |].
  split; [apply incl_filter |].
  split; [apply NoDup_filter, children_NoDup |].
  intros c Hc Hin. apply filter_In in Hc. destruct Hc as [_ Hc].
  apply andb_true_iff in Hc. destruct Hc as [_ Hc].
  apply negb_true_iff in Hc. apply quadkey_in_In in Hin. congruence.
Qed.

Lemma for_each_queue (E : Env) (tile : QuadKey) (outages : list pyval)
    (events events' : list Event) (tiles tiles' : list QuadKey) :
  for_each (process_outage E tile) outages (events, tiles) = Ok (events', tiles') ->
  queue_extends tile tiles tiles'.
Proof.
  revert events tiles. induction outages as [|o outages IH]; intros events tiles H.
  - simpl in H. injection H as _ <-. apply queue_extends_refl.
  - cbn [for_each] in H.
    destruct (process_outage E tile (events, tiles) o) as [[ev1 tl1] |] eqn:Ho;
      [| discriminate].
    cbn [res_bind] in H. apply IH in H.
    apply (queue_extends_trans tile tiles tl1 tiles'); [| assumption].
    apply process_outage_queue in Ho. destruct Ho as [-> | [p ->]].
    + apply queue_extends_refl.
    + apply enqueue_children_extends.
Qed.

(** The step of [scrape_loop] on a tile, by what the response does to
    the events and the queue. *)
Lemma scrape_loop_step (E : Env) (fuel : nat) (site : Site) (t0 t : datetime)
    (tile : QuadKey) (tiles : list QuadKey) (events : list Event) (w : World) :
  (exists e,
     scrape_loop E (S fuel) site t0 (tile :: tiles) events t w
     = (Throw e, snd (fetch E (fetch_fuel t0 t) site tile t0 0 t w))
     /\ popped_tiles E (S fuel) site t0 (tile :: tiles) events t w = [tile])
  \/ (exists r t' events' tiles',
        fetch E (fetch_fuel t0 t) site tile t0 0 t w
        = (Return (r, t'), snd (fetch E (fetch_fuel t0 t) site tile t0 0 t w))
        /\ queue_extends tile tiles tiles'
        /\ scrape_loop E (S fuel) site t0 (tile :: tiles) events t w
           = scrape_loop E fuel site t0 tiles' events' t'
               (snd (fetch E (fetch_fuel t0 t) site tile t0 0 t w))
        /\ popped_tiles E (S fuel) site t0 (tile :: tiles) events t w
           = tile :: popped_tiles E fuel site t0 tiles' events' t'
                       (snd (fetch E (fetch_fuel t0 t) site tile t0 0 t w))).
Proof.
  rewrite scrape_loop_cons. cbn [popped_tiles].
  pose proof (fetch_total E site tile t0 t w) as Htot.
  destruct (fetch E (fetch_fuel t0 t) site tile t0 0 t w)
    as [[[r t'] | e |] w'] eqn:Hf; cbn [fst snd] in *.
  - destruct (negb (ok r)).
    + right. exists r, t', events, tiles.
      repeat split; auto using queue_extends_refl.
    + destruct (file_data r) as [outages |]; cbn [res_bind].
      * destruct (for_each (process_outage E tile) outages (events, tiles))
          as [[ev tl] | e] eqn:Hfe.
        { right. exists r, t', ev, tl. repeat split; auto.
          eapply for_each_queue; eauto. }
        { left. eauto. }
      * left. eauto.
  - left. eauto.
  - congruence.
Qed.

(** *** Ancestors *)

Lemma is_prefix_refl (a : QuadKey) : is_prefix a a = true.
Proof.
  induction a as [|x a IH]; simpl; [reflexivity |].
  rewrite IH, andb_true_r. now apply quadrant_eqb_eq.
Qed.

Lemma is_prefix_iff (a b : QuadKey) :
  is_prefix a b = true <-> exists l, b = a ++ l.
Proof.
  revert b. induction a as [|x a IH]; intros b; simpl.
  - split; eauto.
  - destruct b as [|y b].
    + split; [discriminate | intros [l Hl]; discriminate].
    + rewrite andb_true_iff, quadrant_eqb_eq, IH. split.
      * intros [-> [l ->]]. eauto.
      * intros [l Hl]. injection Hl as -> ->. eauto.
Qed.

Lemma is_prefix_child (t : QuadKey) (k : quadrant) (a : QuadKey) :
  is_prefix (t ++ [k]) a = true -> is_prefix t a = true.
Proof.
  rewrite !is_prefix_iff. intros [l ->]. rewrite <- app_assoc. eauto.
Qed.

Lemma is_prefix_trans (a b c : QuadKey) :
  is_prefix a b = true -> is_prefix b c = true -> is_prefix a c = true.
Proof.
  rewrite !is_prefix_iff. intros [l ->] [l' ->]. rewrite <- app_assoc. eauto.
Qed.

Lemma is_prefix_length (a b : QuadKey) :
  is_prefix a b = true -> (List.length a <= List.length b)%nat.
Proof.
  rewrite is_prefix_iff. intros [l ->]. rewrite length_app. lia.
Qed.

(** *** The first top tile *)

Lemma refused_reply (r : Response) :
  refused r -> ok r = false /\ (status_code r =? forbidden) = true.
Proof. intros [H1 H2]. split; [assumption | now apply Z.eqb_eq]. Qed.

Lemma dt_sub_add (t t0 : datetime) (d : Z) :
  dt_sub (dt_add t d) t0 = dt_sub t t0 + d.
Proof. unfold dt_sub, dt_add. cbn [wall]. lia. Qed.

Lemma dt_sub_diag (t : datetime) : dt_sub t t = 0.
Proof. unfold dt_sub. lia. Qed.

Lemma scrape_loop_skip (E : Env) (fuel : nat) (site : Site) (t0 t t' : datetime)
    (tile : QuadKey) (tiles : list QuadKey) (events : list Event)
    (r : Response) (w w' : World) :
  fetch E (fetch_fuel t0 t) site tile t0 0 t w = (Return (r, t'), w') ->
  ok r = false ->
  scrape_loop E (S fuel) site t0 (tile :: tiles) events t w
  = scrape_loop E fuel site t0 tiles events t' w'.
Proof. intros Hf Hok. now rewrite scrape_loop_cons, Hf, Hok. Qed.

Lemma fetch_fuel_start (t0 : datetime) : fetch_fuel t0 t0 = 12%nat.
Proof.
  unfold fetch_fuel, shifts_left. rewrite dt_sub_diag. reflexivity.
Qed.

Section Anchor.

Variable E : Env.
Variable site : Site.
Variable anchor : QuadKey.
Variable rest : list QuadKey.

(** [site['top_tiles'][0]] is [anchor]. *)
Hypothesis Htop : top_tiles site = anchor :: rest.

Let shift (t : datetime) : datetime := dt_add t subquery_time_increment.

Lemma fetch_refused_shift (fuel : nat) (t0 : datetime) (tries : nat)
    (t : datetime) (w : World) :
  refused (get E (n_requests w) (request_url site t anchor)) ->
  dt_sub t t0 + subquery_time_increment <= subquery_time_max_dist ->
  fetch E (S fuel) site anchor t0 tries t w
  = fetch E fuel site anchor t0 0 (shift t)
      (after_get w (request_url site t anchor)).
Proof.
  intros Hr Hd. apply refused_reply in Hr. destruct Hr as [Hok Hst].
  rewrite fetch_S. cbv zeta. rewrite Hok, Hst, Htop, quadkey_eqb_refl.
  rewrite dt_sub_add.
  destruct (_ >? _) eqn:Hgt; [lia | reflexivity].
Qed.

Lemma fetch_refused_give_up (fuel : nat) (t0 : datetime) (tries : nat)
    (t : datetime) (w : World) :
  refused (get E (n_requests w) (request_url site t anchor)) ->
  dt_sub t t0 + subquery_time_increment > subquery_time_max_dist ->
  fetch E (S fuel) site anchor t0 tries t w
  = (Return (get E (n_requests w) (request_url site t anchor), shift t),
     after_get w (request_url site t anchor)).
Proof.
  intros Hr Hd. apply refused_reply in Hr. destruct Hr as [Hok Hst].
  rewrite fetch_S. cbv zeta. rewrite Hok, Hst, Htop, quadkey_eqb_refl.
  rewrite dt_sub_add.
  destruct (_ >? _) eqn:Hgt; [reflexivity | lia].
Qed.

Lemma fetch_refused_other (fuel : nat) (tile : QuadKey) (t0 : datetime)
    (tries : nat) (t : datetime) (w : World) :
  tile <> anchor ->
  refused (get E (n_requests w) (request_url site t tile)) ->
  fetch E (S fuel) site tile t0 tries t w
  = (Return (get E (n_requests w) (request_url site t tile), t),
     after_get w (request_url site t tile)).
Proof.
  intros Hne Hr. apply refused_reply in Hr. destruct Hr as [Hok Hst].
  apply quadkey_eqb_neq in Hne.
  rewrite fetch_S. cbv zeta. now rewrite Hok, Hst, Htop, Hne.
Qed.

(** The fetch of a tile other than the first top tile leaves the time
    as it is and sends every request at that time. *)
Lemma fetch_other_tile (tile : QuadKey) (t0 : datetime) (fuel tries : nat)
    (t : datetime) (w : World) :
  tile <> anchor ->
  exists j,
    journal (snd (fetch E fuel site tile t0 tries t w)) = journal w ++ j
    /\ Forall (fun url => req_time url = wall t) (requests_of j)
    /\ forall r t', fst (fetch E fuel site tile t0 tries t w) = Return (r, t') ->
                    t' = t.
Proof.
  intros Hne. apply quadkey_eqb_neq in Hne.
  revert tries w. induction fuel as [|fuel IH]; intros tries w.
  - exists []. simpl. rewrite app_nil_r. repeat split; auto; discriminate.
  - assert (Hone : forall o : outcome (Response * datetime),
        (forall r t', o = Return (r, t') -> t' = t) ->
        exists j,
          journal (snd (o, after_get w (request_url site t tile))) = journal w ++ j
          /\ Forall (fun url => req_time url = wall t) (requests_of j)
          /\ forall r t', fst (o, after_get w (request_url site t tile))
                          = Return (r, t') -> t' = t).
    { intros o Ho. exists (got (n_requests w) (request_url site t tile)).
      rewrite requests_of_got. repeat split; auto. }
    rewrite fetch_S. cbv zeta.
    destruct (ok _); [apply Hone; congruence |].
    destruct (_ =? forbidden).
    + rewrite Htop, Hne. apply Hone; congruence.
    + destruct (Nat.leb max_tries (S tries)); [apply Hone; discriminate |].
      destruct (IH (S tries)
                  (after_sleep (after_get w (request_url site t tile)) retry))
        as (j & Hj & Hall & Hret).
      exists (got (n_requests w) (request_url site t tile) ++ [Sleep retry] ++ j).
      rewrite Hj. cbn [after_sleep after_get journal]. rewrite <- !app_assoc.
      split; [reflexivity |].
      rewrite !requests_of_app, requests_of_got. simpl.
      split; [constructor; auto | exact Hret].
Qed.

(** While no tile of the queue is the first top tile or above it, the
    time stays as it is and every request is sent at it. *)
Lemma scrape_loop_time_fixed (t0 t : datetime) (fuel : nat) :
  forall tiles events w,
    (forall c, In c tiles -> is_prefix c anchor = false) ->
    exists j,
      journal (snd (scrape_loop E fuel site t0 tiles events t w)) = journal w ++ j
      /\ Forall (fun url => req_time url = wall t) (requests_of j)
      /\ forall evs t',
           fst (scrape_loop E fuel site t0 tiles events t w) = Return (evs, t') ->
           t' = t.
Proof.
  induction fuel as [|fuel IH]; intros tiles events w Hq.
  - exists []. rewrite app_nil_r.
    destruct tiles; simpl; repeat split; auto; congruence.
  - destruct tiles as [|tile tiles].
    { exists []. rewrite app_nil_r. simpl. repeat split; auto. congruence. }
    assert (Hne : tile <> anchor).
    { intros ->. specialize (Hq anchor (or_introl eq_refl)).
      rewrite is_prefix_refl in Hq. discriminate. }
    destruct (fetch_other_tile tile t0 (fetch_fuel t0 t) 0 t w Hne)
      as (j1 & Hj1 & Hall1 & Hret1).
    destruct (scrape_loop_step E fuel site t0 t tile tiles events w)
      as [(e & Hs & _) | (r & t' & ev & tl & Hf & Hext & Hs & _)].
    + rewrite Hs. cbn [fst snd]. exists j1.
      repeat split; auto. discriminate.
    + rewrite Hs. rewrite Hf in Hret1. cbn [fst] in Hret1.
      specialize (Hret1 r t' eq_refl). subst t'.
      destruct (IH tl ev (snd (fetch E (fetch_fuel t0 t) site tile t0 0 t w)))
        as (j2 & Hj2 & Hall2 & Hret2).
      { destruct Hext as (extra & -> & Hinc & _ & _).
        intros c Hc. apply in_app_iff in Hc. destruct Hc as [Hc | Hc].
        - apply Hq. now right.
        - apply Hinc, in_children in Hc. destruct Hc as [k ->].
          destruct (is_prefix (tile ++ [k]) anchor) eqn:Hp; [| reflexivity].
          apply is_prefix_child in Hp.
          rewrite (Hq tile (or_introl eq_refl)) in Hp. discriminate. }
      exists (j1 ++ j2). rewrite Hj2, Hj1, <- app_assoc.
      split; [reflexivity |]. rewrite requests_of_app.
      split; [apply Forall_app; auto | exact Hret2].
Qed.

(** Four refusals in a row, from the start of the snapshot. *)
Lemma fetch_anchor_given_up (t0 : datetime) (w : World) :
  let n := n_requests w in
  let u0 := request_url site t0 anchor in
  let u1 := request_url site (shift t0) anchor in
  let u2 := request_url site (shift (shift t0)) anchor in
  let u3 := request_url site (shift (shift (shift t0))) anchor in
  refused (get E n u0) ->
  refused (get E (S n) u1) ->
  refused (get E (S (S n)) u2) ->
  refused (get E (S (S (S n))) u3) ->
  fetch E (fetch_fuel t0 t0) site anchor t0 0 t0 w
  = (Return (get E (S (S (S n))) u3, shift (shift (shift (shift t0)))),
     {| n_requests := S (S (S (S n)));
        journal := journal w ++ got n u0 ++ got (S n) u1
                     ++ got (S (S n)) u2 ++ got (S (S (S n))) u3 |}).
Proof.
  intros n u0 u1 u2 u3 H0 H1 H2 H3.
  assert (Hd : forall k, 0 <= k <= 60 ->
            k + subquery_time_increment <= subquery_time_max_dist)
    by (unfold subquery_time_increment, subquery_time_max_dist; lia).
  rewrite fetch_fuel_start.
  rewrite (fetch_refused_shift _ t0 0 t0 w H0)
    by (rewrite dt_sub_diag; apply Hd; lia).
  rewrite (fetch_refused_shift _ t0 0 (shift t0) (after_get w u0) H1)
    by (unfold shift; rewrite dt_sub_add, dt_sub_diag; apply Hd;
        unfold subquery_time_increment; lia).
  rewrite (fetch_refused_shift _ t0 0 (shift (shift t0))
             (after_get (after_get w u0) u1) H2)
    by (unfold shift; rewrite !dt_sub_add, dt_sub_diag; apply Hd;
        unfold subquery_time_increment; lia).
  rewrite (fetch_refused_give_up _ t0 0 (shift (shift (shift t0)))
             (after_get (after_get (after_get w u0) u1) u2) H3)
    by (unfold shift; rewrite !dt_sub_add, dt_sub_diag;
        unfold subquery_time_increment, subquery_time_max_dist; lia).
  unfold after_get. cbn [n_requests journal]. fold n u0 u1 u2 u3.
  rewrite <- !app_assoc. reflexivity.
Qed.

(** C2.  On a "forbidden" reply for the first top tile of the site,
    the time goes forward by 30 seconds and the request is sent again
    with the count of tries back at 0, as long as the time is within
    90 seconds of the time the snapshot started at; once it is beyond,
    the loop gives up without an exception and keeps the time it
    reached.  On a "forbidden" reply for any other tile the loop stops
    at that one request and leaves the time as it is.  A fetch that
    ends on such a reply skips the tile: the events and the queue stay
    as they were and the traversal goes on with the next tile at the
    time reached.  After the fetch of the first top tile every request
    of the snapshot carries the time that fetch reached, which is the
    time [scrape] returns. *)
Theorem forbidden_shifts_anchor_skips_others :
  forallb (fun c => negb (is_prefix c anchor)) rest = true ->
  (subquery_time_increment = 30 /\ subquery_time_max_dist = 90)
  /\ (forall fuel t0 tries t w,
        refused (get E (n_requests w) (request_url site t anchor)) ->
        dt_sub t t0 + 30 <= 90 ->
        fetch E (S fuel) site anchor t0 tries t w
        = fetch E fuel site anchor t0 0 (dt_add t 30)
            (after_get w (request_url site t anchor)))
  /\ (forall fuel t0 tries t w,
        refused (get E (n_requests w) (request_url site t anchor)) ->
        dt_sub t t0 + 30 > 90 ->
        fetch E (S fuel) site anchor t0 tries t w
        = (Return (get E (n_requests w) (request_url site t anchor),
                   dt_add t 30),
           after_get w (request_url site t anchor)))
  /\ (forall fuel tile t0 tries t w,
        tile <> anchor ->
        refused (get E (n_requests w) (request_url site t tile)) ->
        fetch E (S fuel) site tile t0 tries t w
        = (Return (get E (n_requests w) (request_url site t tile), t),
           after_get w (request_url site t tile)))
  /\ (forall fuel tile tiles events t0 t w r t' w',
        fetch E (fetch_fuel t0 t) site tile t0 0 t w = (Return (r, t'), w') ->
        ok r = false ->
        scrape_loop E (S fuel) site t0 (tile :: tiles) events t w
        = scrape_loop E fuel site t0 tiles events t' w')
  /\ (forall t0 w,
        let n := n_requests w in
        let u0 := request_url site t0 anchor in
        let u1 := request_url site (dt_add t0 30) anchor in
        let u2 := request_url site (dt_add (dt_add t0 30) 30) anchor in
        let u3 := request_url site (dt_add (dt_add (dt_add t0 30) 30) 30) anchor in
        refused (get E n u0) ->
        refused (get E (S n) u1) ->
        refused (get E (S (S n)) u2) ->
        refused (get E (S (S (S n))) u3) ->
        fetch E (fetch_fuel t0 t0) site anchor t0 0 t0 w
        = (Return (get E (S (S (S n))) u3,
                   dt_add (dt_add (dt_add (dt_add t0 30) 30) 30) 30),
           {| n_requests := S (S (S (S n)));
              journal := journal w ++ got n u0 ++ got (S n) u1
                           ++ got (S (S n)) u2 ++ got (S (S (S n))) u3 |}))
  /\ (forall fuel t0 w r t' w1,
        fetch E (fetch_fuel t0 t0) site anchor t0 0 t0 w = (Return (r, t'), w1) ->
        exists j,
          journal (snd (scrape E (S fuel) site t0 w)) = journal w1 ++ j
          /\ Forall (fun url => req_time url = wall t') (requests_of j)
          /\ forall evs t'',
               fst (scrape E (S fuel) site t0 w) = Return (evs, t'') -> t'' = t').
Proof.
  intros Hrest.
  split; [split; reflexivity |].
  split; [intros; now apply fetch_refused_shift |].
  split; [intros; now apply fetch_refused_give_up |].
  split; [intros; now apply fetch_refused_other |].
  split; [intros; eapply scrape_loop_skip; eauto |].
  split; [exact fetch_anchor_given_up |].
  intros fuel t0 w r t' w1 Hf. unfold scrape. rewrite Htop.
  assert (Hq : forall tl, queue_extends anchor rest tl ->
                 forall c, In c tl -> is_prefix c anchor = false).
  { intros tl (extra & -> & Hinc & _ & _) c Hc.
    apply in_app_iff in Hc. destruct Hc as [Hc | Hc].
    - rewrite forallb_forall in Hrest. apply negb_true_iff. now apply Hrest.
    - apply Hinc, in_children in Hc. destruct Hc as [k ->].
      destruct (is_prefix (anchor ++ [k]) anchor) eqn:Hp; [| reflexivity].
      apply is_prefix_length in Hp. rewrite length_app in Hp. simpl in Hp. lia. }
  destruct (scrape_loop_step E fuel site t0 t0 anchor rest [] w)
    as [(e & Hs & _) | (r' & t'' & ev & tl & Hf' & Hext & Hs & _)].
  - rewrite Hs. rewrite Hf. cbn [fst snd] in *.
    exists []. rewrite app_nil_r. repeat split; auto. discriminate.
  - rewrite Hs. rewrite Hf in Hf'. cbn [snd] in Hf'.
    injection Hf' as <- <-. rewrite Hf. cbn [snd].
    apply (scrape_loop_time_fixed t0 t' fuel tl ev w1).
    now apply Hq.
Qed.

End Anchor.

(* ================================================================== *)
(** ** Each tile is fetched once *)
(* ================================================================== *)

Lemma antichain_spec (l : list QuadKey) :
  antichain l = true ->
  NoDup l /\ forall a b, In a l -> In b l -> is_prefix a b = true -> a = b.
Proof.
  induction l as [|x l IH]; simpl.
  - intros _. split; [constructor | intros a b []].
  - rewrite andb_true_iff, forallb_forall. intros [Hx Hl].
    destruct (IH Hl) as [Hnd Hpair].
    assert (Hno : forall y, In y l ->
              is_prefix x y = false /\ is_prefix y x = false).
    { intros y Hy. specialize (Hx y Hy). apply andb_true_iff in Hx.
      now rewrite !negb_true_iff in Hx. }
    split.
    + constructor; [| assumption]. intros Hin.
      destruct (Hno x Hin) as [H _]. rewrite is_prefix_refl in H. discriminate.
    + intros a b [<- | Ha] [<- | Hb] Hp; auto.
      * destruct (Hno b Hb) as [H _]. congruence.
      * destruct (Hno a Ha) as [_ H]. congruence.
Qed.

Lemma runs_head (p l : list QuadKey) (y : QuadKey) :
  runs_of p (y :: l) -> exists p', p = y :: p'.
Proof.
  intros H. remember (y :: l) as yl eqn:Hyl.
  destruct H as [| t n p0 l0 Hr]; [discriminate |].
  simpl in Hyl. injection Hyl as -> _. eauto.
Qed.

Lemma collapse_cons2 (x y : QuadKey) (l : list QuadKey) :
  collapse (x :: y :: l)
  = if quadkey_eqb x y then collapse (y :: l) else x :: collapse (y :: l).
Proof. reflexivity. Qed.

Lemma collapse_run (t : QuadKey) (n : nat) (l : list QuadKey) :
  (forall y l', l = y :: l' -> y <> t) ->
  collapse (repeat t (S n) ++ l) = t :: collapse l.
Proof.
  intros Hhd. induction n as [|n IH].
  - change (repeat t 1 ++ l) with (t :: l).
    destruct l as [|y l']; [reflexivity |].
    assert (Hne : quadkey_eqb t y = false).
    { apply quadkey_eqb_neq. intros ->. now apply (Hhd y l'). }
    now rewrite collapse_cons2, Hne.
  - change (repeat t (S (S n)) ++ l) with (t :: t :: (repeat t n ++ l)).
    rewrite collapse_cons2, quadkey_eqb_refl. exact IH.
Qed.

Lemma collapse_runs (p l : list QuadKey) :
  runs_of p l -> NoDup p -> collapse l = p.
Proof.
  induction 1 as [| t n p l Hr IH]; intros Hnd; [reflexivity |].
  inversion Hnd as [| ? ? Hnotin Hnd']; subst.
  rewrite collapse_run.
  - now rewrite IH.
  - intros y l' -> ->. destruct (runs_head _ _ _ Hr) as [p' ->].
    apply Hnotin. now left.
Qed.

Lemma runs_app (p1 p2 l1 l2 : list QuadKey) :
  runs_of p1 l1 -> runs_of p2 l2 -> runs_of (p1 ++ p2) (l1 ++ l2).
Proof.
  induction 1 as [| t n p l Hr IH]; intros H2; [exact H2 |].
  rewrite <- app_assoc. simpl app at 1. apply runs_cons. now apply IH.
Qed.

Lemma run_of_tile (tile : QuadKey) (urls : list Request) :
  Forall (fun url => req_tile url = tile) urls ->
  urls <> [] ->
  exists n, map req_tile urls = repeat tile (S n).
Proof.
  intros Hall Hne. destruct urls as [|u urls]; [congruence |].
  exists (List.length urls). inversion Hall as [| ? ? Hu Hrest]; subst.
  simpl. f_equal. clear Hne Hall. induction Hrest as [| u' urls Hu' _ IH];
    simpl; [reflexivity | now rewrite Hu', IH].
Qed.

(** Popping a tile and adding children of it keeps the invariant. *)
Lemma traversal_inv_step (tops popped : list QuadKey) (tile : QuadKey)
    (tiles tiles' : list QuadKey) :
  (forall a b, In a tops -> In b tops -> is_prefix a b = true -> a = b) ->
  traversal_inv tops popped (tile :: tiles) ->
  queue_extends tile tiles tiles' ->
  traversal_inv tops (popped ++ [tile]) tiles'.
Proof.
  intros Hanti (Hnd & Hup & Hpar) (extra & -> & Hinc & Hnde & Hdis).
  assert (Htile : ~ In tile popped /\ ~ In tile tiles).
  { apply NoDup_remove_2 in Hnd. rewrite in_app_iff in Hnd. tauto. }
  assert (Hchild : forall c, In c extra -> exists k, c = tile ++ [k]).
  { intros c Hc. now apply in_children, Hinc. }
  assert (Hnew : forall c, In c extra -> ~ In c popped).
  { intros c Hc Hp. destruct (Hchild c Hc) as [k ->].
    destruct (Hpar (tile ++ [k])) as [Htop | (parent & k' & Heq & Hin)].
    - apply in_app_iff. now left.
    - destruct (Hup tile) as (T & HT & HTp).
      { apply in_app_iff. right. now left. }
      assert (Hp' : is_prefix T (tile ++ [k]) = true).
      { apply is_prefix_iff in HTp. destruct HTp as [l ->].
        apply is_prefix_iff. exists (l ++ [k]). now rewrite app_assoc. }
      specialize (Hanti T (tile ++ [k]) HT Htop Hp'). subst T.
      apply is_prefix_length in HTp. rewrite length_app in HTp. simpl in HTp. lia.
    - apply app_inj_tail in Heq. destruct Heq as [<- _]. tauto. }
  split; [| split].
  - replace ((popped ++ [tile]) ++ tiles ++ extra)
      with ((popped ++ tile :: tiles) ++ extra)
      by (rewrite <- !app_assoc; reflexivity).
    apply NoDup_app; [assumption | assumption |].
    intros x Hx He. apply in_app_iff in Hx. destruct Hx as [Hx | [<- | Hx]].
    + exact (Hnew x He Hx).
    + destruct (Hchild tile He) as [k Hk]. symmetry in Hk.
      now apply child_neq_parent in Hk.
    + exact (Hdis x He Hx).
  - intros c Hc.
    assert (Hold : In c (popped ++ tile :: tiles) \/ In c extra).
    { rewrite <- app_assoc in Hc. cbn [app] in Hc. apply in_app_iff in Hc.
      cbn [In] in Hc. rewrite in_app_iff in Hc. rewrite in_app_iff. cbn [In].
      tauto. }
    destruct Hold as [Hold | Hnewc]; [now apply Hup |].
    destruct (Hchild c Hnewc) as [k ->].
    destruct (Hup tile) as (T & HT & HTp).
    { apply in_app_iff. right. now left. }
    exists T. split; [assumption |].
    apply is_prefix_iff in HTp. destruct HTp as [l ->].
    apply is_prefix_iff. exists (l ++ [k]). now rewrite app_assoc.
  - intros c Hc.
    assert (Hold : In c (popped ++ tile :: tiles) \/ In c extra).
    { rewrite <- app_assoc in Hc. cbn [app] in Hc. apply in_app_iff in Hc.
      cbn [In] in Hc. rewrite in_app_iff in Hc. rewrite in_app_iff. cbn [In].
      tauto. }
    destruct Hold as [Hold | Hnewc].
    + destruct (Hpar c Hold) as [Htop | (parent & k & Heq & Hin)]; [now left |].
      right. exists parent, k. split; [assumption |].
      apply in_app_iff. now left.
    + destruct (Hchild c Hnewc) as [k ->]. right. exists tile, k.
      split; [reflexivity |]. apply in_app_iff. right. now left.
Qed.

Lemma scrape_loop_runs (E : Env) (site : Site) (t0 : datetime) :
  (forall a b, In a (top_tiles site) -> In b (top_tiles site) ->
               is_prefix a b = true -> a = b) ->
  forall fuel tiles events t w popped,
    traversal_inv (top_tiles site) popped tiles ->
    exists j,
      journal (snd (scrape_loop E fuel site t0 tiles events t w)) = journal w ++ j
      /\ runs_of (popped_tiles E fuel site t0 tiles events t w)
           (map req_tile (requests_of j))
      /\ NoDup (popped ++ popped_tiles E fuel site t0 tiles events t w).
Proof.
  intros Hanti. induction fuel as [|fuel IH]; intros tiles events t w popped Hinv.
  - exists []. rewrite !app_nil_r. destruct Hinv as [Hnd _].
    apply NoDup_app_remove_r in Hnd.
    destruct tiles; simpl; rewrite ?app_nil_r; repeat split; auto; constructor.
  - destruct tiles as [|tile tiles].
    { exists []. simpl. rewrite !app_nil_r. destruct Hinv as [Hnd _].
      rewrite app_nil_r in Hnd. repeat split; auto. constructor. }
    destruct (fetch_journal E site tile t0 (fetch_fuel t0 t) 0 t w)
      as (j1 & Hj1 & Hall1 & Hne1).
    destruct (run_of_tile tile (requests_of j1) Hall1) as [n Hn].
    { apply Hne1. rewrite fetch_fuel_S. discriminate. }
    assert (Hnd1 : NoDup (popped ++ [tile])).
    { destruct Hinv as [Hnd _].
      replace (popped ++ tile :: tiles) with ((popped ++ [tile]) ++ tiles) in Hnd
        by (rewrite <- app_assoc; reflexivity).
      now apply NoDup_app_remove_r in Hnd. }
    destruct (scrape_loop_step E fuel site t0 t tile tiles events w)
      as [(e & Hs & Hp) | (r & t' & ev & tl & Hf & Hext & Hs & Hp)].
    + rewrite Hs, Hp. cbn [snd]. exists j1.
      split; [assumption |]. split; [| assumption].
      rewrite Hn. rewrite <- (app_nil_r (repeat tile (S n))).
      apply runs_cons. constructor.
    + rewrite Hs, Hp.
      destruct (IH tl ev t' (snd (fetch E (fetch_fuel t0 t) site tile t0 0 t w))
                  (popped ++ [tile])) as (j2 & Hj2 & Hr2 & Hnd2).
      { eapply traversal_inv_step; eauto. }
      exists (j1 ++ j2).
      rewrite Hj2, Hj1, <- app_assoc. split; [reflexivity |].
      rewrite requests_of_app, map_app, Hn.
      split; [now apply runs_cons |].
      now rewrite <- app_assoc in Hnd2.
Qed.

(** C9.  In one traversal no tile is fetched twice: when no top tile
    of the site is equal to or an ancestor of another (the site of the
    program has one top tile), the tiles [scrape] pops from its queue,
    however it ends, are all different; and its requests are, for each
    popped tile in turn, the one or more requests of the fetch of that
    tile, so that no two fetches are for the same tile. *)
Theorem no_tile_fetched_twice (E : Env) (site : Site) (fuel : nat)
    (t : datetime) (w : World) :
  antichain (top_tiles site) = true ->
  NoDup (scrape_order E fuel site t w)
  /\ exists j,
       journal (snd (scrape E fuel site t w)) = journal w ++ j
       /\ runs_of (scrape_order E fuel site t w) (map req_tile (requests_of j))
       /\ fetched_tiles j = scrape_order E fuel site t w.
Proof.
  intros Hanti. apply antichain_spec in Hanti. destruct Hanti as [Hnd Hpair].
  destruct (scrape_loop_runs E site t Hpair fuel (top_tiles site) [] t w [])
    as (j & Hj & Hr & Hndp).
  { split; [exact Hnd |]. split.
    - intros c Hc. exists c. split; [assumption | apply is_prefix_refl].
    - intros c Hc. now left. }
  simpl in Hndp. split; [exact Hndp |].
  exists j. split; [exact Hj |]. split; [exact Hr |].
  unfold fetched_tiles. now apply collapse_runs.
Qed.

(* ================================================================== *)
(** ** Enumeration codes *)
(* ================================================================== *)

Lemma numbering_from_length (n : nat) (known : list string) :
  List.length (numbering_from n known) = List.length known.
Proof.
  unfold numbering_from. rewrite length_combine, length_map, length_seq. lia.
Qed.

Lemma numbering_from_cons (n : nat) (m : string) (known : list string) :
  numbering_from n (m :: known) = (m, Z.of_nat n) :: numbering_from (S n) known.
Proof. reflexivity. Qed.

Lemma numbering_from_app (n : nat) (a b : list string) :
  numbering_from n (a ++ b)
  = numbering_from n a ++ numbering_from (n + List.length a) b.
Proof.
  revert n. induction a as [|x a IH]; intros n.
  - simpl. now rewrite Nat.add_0_r.
  - cbn [app]. rewrite !numbering_from_cons, IH. cbn [app List.length].
    now rewrite Nat.add_succ_r.
Qed.

Lemma numbering_from_keys (n : nat) (known : list string) :
  map fst (numbering_from n known) = known.
Proof.
  revert n. induction known as [|x known IH]; intros n; [reflexivity |].
  rewrite numbering_from_cons. simpl. now rewrite IH.
Qed.

Lemma numbering_from_values (n : nat) (known : list string) :
  map snd (numbering_from n known) = map Z.of_nat (seq n (List.length known)).
Proof.
  revert n. induction known as [|x known IH]; intros n; [reflexivity |].
  rewrite numbering_from_cons. simpl. now rewrite IH.
Qed.

Lemma numbering_from_codes (n : nat) (known : list string) (m : string) (c : Z) :
  In (m, c) (numbering_from n known) ->
  Z.of_nat n <= c < Z.of_nat (n + List.length known).
Proof.
  revert n. induction known as [|x known IH]; intros n; [intros [] |].
  rewrite numbering_from_cons. intros [H | H].
  - injection H as _ <-. simpl. lia.
  - apply IH in H. simpl. lia.
Qed.

Lemma enum_lookup_mirror (m : string) (l : list (string * Z)) :
  enum_lookup (PStr m)
    (map (fun mc : string * Z => (PStr (fst mc), snd mc)) l) = assoc m l.
Proof.
  induction l as [|[k c] l IH]; simpl; [reflexivity |].
  destruct (String.eqb m k); auto.
Qed.

Lemma assoc_none_iff {A} (k : string) (l : list (string * A)) :
  assoc k l = None <-> ~ In k (map fst l).
Proof.
  induction l as [|[k' v] l IH]; simpl; [tauto |].
  destruct (String.eqb k k') eqn:He.
  - apply String.eqb_eq in He. subst. split; [discriminate | tauto].
  - apply String.eqb_neq in He. rewrite IH. split; [| tauto].
    intros H [H1 | H1]; [congruence | tauto].
Qed.

Lemma existsb_eqb_In (m : string) (l : list string) :
  existsb (String.eqb m) l = true <-> In m l.
Proof.
  rewrite existsb_exists. split.
  - intros [x [Hx He]]. apply String.eqb_eq in He. now subst.
  - intros H. exists m. split; [assumption | apply String.eqb_refl].
Qed.

(** The rank of a meaning is its code in the mirror. *)
Lemma mirror_rank (known : list string) :
  NoDup known ->
  forall i m, nth_error known i = Some m ->
              enum_lookup (PStr m) (mirror_of known) = Some (Z.of_nat i).
Proof.
  unfold mirror_of, numbering. intros Hnd i m.
  rewrite enum_lookup_mirror.
  assert (G : forall n, nth_error known i = Some m ->
                assoc m (numbering_from n known) = Some (Z.of_nat (n + i))).
  { revert i. induction Hnd as [|x known Hx Hnd IH]; intros i n Hi.
    - destruct i; discriminate.
    - rewrite numbering_from_cons. simpl. destruct i as [|i]; simpl in Hi.
      + injection Hi as ->. rewrite String.eqb_refl. now rewrite Nat.add_0_r.
      + destruct (String.eqb m x) eqn:He.
        * apply String.eqb_eq in He. subst. exfalso. apply Hx.
          eapply nth_error_In; eauto.
        * rewrite (IH i (S n) Hi). do 2 f_equal. lia. }
  intros Hi. now rewrite (G 0%nat Hi).
Qed.

Lemma len_mirror (known : list string) : len (mirror_of known) = len known.
Proof.
  unfold len, mirror_of, numbering. now rewrite length_map, numbering_from_length.
Qed.

Lemma mirror_snoc (known : list string) (m : string) :
  mirror_of (known ++ [m]) = mirror_of known ++ [(PStr m, len known)].
Proof.
  unfold mirror_of, numbering. rewrite numbering_from_app, map_app. reflexivity.
Qed.

Lemma table_snoc (known : list string) (m : string) :
  table_of (known ++ [m]) = table_of known ++ [(len known, m)].
Proof.
  unfold table_of, numbering. rewrite numbering_from_app, map_app. reflexivity.
Qed.

(** One allocation: [setdefault] with the length of the mirror. *)
Lemma setdefault_seen (known : list string) (m : string) :
  setdefault (mirror_of known) (PStr m) (len (mirror_of known))
  = Ok (mirror_of (seen known m)).
Proof.
  unfold setdefault, seen. cbn [hashable].
  unfold mirror_of at 1, numbering. rewrite enum_lookup_mirror.
  destruct (existsb (String.eqb m) known) eqn:He.
  - apply existsb_eqb_In in He.
    destruct (assoc m (numbering_from 0 known)) eqn:Ha; [reflexivity |].
    apply assoc_none_iff in Ha. now rewrite numbering_from_keys in Ha.
  - destruct (assoc m (numbering_from 0 known)) eqn:Ha.
    + apply assoc_keys in Ha. rewrite numbering_from_keys in Ha.
      apply existsb_eqb_In in Ha. congruence.
    + now rewrite mirror_snoc, len_mirror.
Qed.

Lemma allocate_first_seen (ms known : list string) :
  allocate ms (mirror_of known) = Ok (mirror_of (first_seen ms known)).
Proof.
  revert known. induction ms as [|m ms IH]; intros known; [reflexivity |].
  unfold allocate in *. cbn [for_each]. rewrite setdefault_seen.
  cbn [res_bind]. apply IH.
Qed.

Lemma first_seen_extends (ms known : list string) :
  NoDup known ->
  (exists news, first_seen ms known = known ++ news)
  /\ NoDup (first_seen ms known).
Proof.
  revert known. induction ms as [|m ms IH]; intros known Hnd.
  - split; [exists []; now rewrite app_nil_r | assumption].
  - unfold first_seen in *. cbn [fold_left]. unfold seen at 2 4.
    destruct (existsb (String.eqb m) known) eqn:He; [now apply IH |].
    assert (Hnd' : NoDup (known ++ [m])).
    { apply NoDup_app; [assumption | repeat constructor; intros [] |].
      intros x Hx [<- | []]. apply existsb_eqb_In in Hx. congruence. }
    destruct (IH _ Hnd') as [[news Hn] Hd]. split; [| assumption].
    exists (m :: news). rewrite Hn, <- app_assoc. reflexivity.
Qed.

Lemma enum_set_new (key : pyval) (c : Z) (e : Enum) :
  enum_lookup key e = None -> enum_set key c e = e ++ [(key, c)].
Proof.
  induction e as [|[k c'] e IH]; simpl; [reflexivity |].
  destruct (py_eqb key k); [discriminate |]. intros H. now rewrite IH.
Qed.

Lemma mirror_lookup_none (known : list string) (m : string) :
  ~ In m known -> enum_lookup (PStr m) (mirror_of known) = None.
Proof.
  intros H. unfold mirror_of, numbering. rewrite enum_lookup_mirror.
  apply assoc_none_iff. now rewrite numbering_from_keys.
Qed.

Lemma NoDup_snoc {A} (l : list A) (x : A) :
  NoDup (l ++ [x]) -> NoDup l /\ ~ In x l.
Proof.
  intros H. split.
  - now apply NoDup_app_remove_r in H.
  - apply NoDup_remove_2 in H. now rewrite app_nil_r in H.
Qed.

(** The mirror [init_db] builds from the table. *)
Lemma load_table (known : list string) :
  NoDup known -> load_enum (table_of known) = mirror_of known.
Proof.
  induction known as [|m known IH] using rev_ind; intros Hnd; [reflexivity |].
  apply NoDup_snoc in Hnd. destruct Hnd as [Hnd Hm].
  unfold load_enum in *. rewrite table_snoc, fold_left_app, (IH Hnd).
  cbn [fold_left]. rewrite enum_set_new by now apply mirror_lookup_none.
  now rewrite mirror_snoc.
Qed.

Lemma table_rows (known : list string) (c : Z) (m : string) :
  In (c, m) (table_of known) -> 0 <= c < len known /\ In m known.
Proof.
  unfold table_of, numbering. rewrite in_map_iff.
  intros [[m' c'] [Heq Hin]]. cbn [fst snd] in Heq. injection Heq as -> ->.
  split.
  - apply numbering_from_codes in Hin. unfold len. lia.
  - apply (in_map fst) in Hin. now rewrite numbering_from_keys in Hin.
Qed.

Lemma insert_or_ignore_stored (rows : list (Z * string)) (row : Z * string) :
  In row rows -> insert_or_ignore rows row = rows.
Proof.
  intros Hin. unfold insert_or_ignore.
  replace (existsb _ rows) with true; [reflexivity |].
  symmetry. apply existsb_exists. exists row. split; [assumption |].
  now rewrite Z.eqb_refl.
Qed.

Lemma insert_or_ignore_new (known : list string) (m : string) :
  ~ In m known ->
  insert_or_ignore (table_of known) (len known, m) = table_of (known ++ [m]).
Proof.
  intros Hm. unfold insert_or_ignore.
  replace (existsb _ (table_of known)) with false; [now rewrite table_snoc |].
  symmetry. apply not_true_is_false. intros H. apply existsb_exists in H.
  destruct H as [[c m'] [Hin Hc]]. apply table_rows in Hin.
  cbn [fst snd] in Hc. apply orb_true_iff in Hc. destruct Hc as [Hc | Hc].
  - apply Z.eqb_eq in Hc. lia.
  - apply String.eqb_eq in Hc. subst. tauto.
Qed.

Lemma persist_stored (rows : list (Z * string)) (e : Enum) :
  (forall k c, In (k, c) e -> In (c, sql_text k) rows) ->
  persist_enum rows e = rows.
Proof.
  unfold persist_enum. induction e as [|[k c] e IH]; intros H; [reflexivity |].
  cbn [fold_left]. rewrite insert_or_ignore_stored by (apply H; now left).
  apply IH. intros k' c' Hin. apply H. now right.
Qed.

Lemma mirror_in_table (known : list string) (k : pyval) (c : Z) :
  In (k, c) (mirror_of known) -> In (c, sql_text k) (table_of known).
Proof.
  unfold mirror_of, table_of. rewrite !in_map_iff.
  intros [[m c'] [Heq Hin]]. cbn [fst snd] in Heq. injection Heq as <- <-.
  exists (m, c'). split; [reflexivity | assumption].
Qed.

(** Persisting the mirror adds the new pairs and nothing else. *)
Lemma persist_extends (known news : list string) :
  NoDup (known ++ news) ->
  persist_enum (table_of known) (mirror_of (known ++ news))
  = table_of (known ++ news).
Proof.
  induction news as [|m news IH] using rev_ind; intros Hnd.
  - rewrite app_nil_r. apply persist_stored. apply mirror_in_table.
  - rewrite app_assoc in *. apply NoDup_snoc in Hnd. destruct Hnd as [Hnd Hm].
    rewrite mirror_snoc. unfold persist_enum in *. rewrite fold_left_app.
    rewrite (IH Hnd). cbn [fold_left sql_text].
    now apply insert_or_ignore_new.
Qed.

(** *** Codes within a run *)

Lemma enum_lookup_app (key : pyval) (e e' : Enum) :
  enum_lookup key (e ++ e')
  = match enum_lookup key e with
    | Some c => Some c
    | None => enum_lookup key e'
    end.
Proof.
  induction e as [|[k c] e IH]; simpl; [reflexivity |].
  destruct (py_eqb key k); auto.
Qed.

Lemma setdefault_keeps (e e' : Enum) (key key' : pyval) (default c : Z) :
  setdefault e key' default = Ok e' ->
  enum_lookup key e = Some c -> enum_lookup key e' = Some c.
Proof.
  unfold setdefault. intros H Hk.
  destruct (hashable key'); [| discriminate].
  destruct (enum_lookup key' e); injection H as <-; [assumption |].
  now rewrite enum_lookup_app, Hk.
Qed.

Lemma codes_kept_refl (enums : Enums) : codes_kept enums enums.
Proof. intros ec e key c He Hk. eauto. Qed.

Lemma codes_kept_trans (a b c : Enums) :
  codes_kept a b -> codes_kept b c -> codes_kept a c.
Proof.
  intros Hab Hbc ec e key code He Hk.
  destruct (Hab ec e key code He Hk) as (e' & He' & Hk'). eauto.
Qed.

Lemma normalize_col_keeps (x y : pyval) (enums enums' : Enums) (ec : string) :
  normalize_col (x, enums) ec = Ok (y, enums') -> codes_kept enums enums'.
Proof.
  unfold normalize_col. intros H.
  repeat res_step H; try discriminate;
    try (injection H as _ <-; apply codes_kept_refl).
  injection H as _ <-.
  match goal with
  | He : enums_get enums ec = Ok ?e, Hs : setdefault ?e _ _ = Ok ?e' |- _ =>
      rename e into e0; rename e' into e1; rename He into Hget; rename Hs into Hset
  end.
  unfold enums_get in Hget.
  destruct (assoc ec enums) as [e |] eqn:Hec; [| discriminate].
  injection Hget as ->.
  intros ec' e key c He Hk.
  destruct (string_dec ec' ec) as [-> | Hne].
  - rewrite assoc_set_same. rewrite Hec in He. injection He as <-.
    eexists. split; [reflexivity |]. eapply setdefault_keeps; eauto.
  - rewrite assoc_set_other by assumption. eauto.
Qed.

Lemma normalize_cols_keep (cols : list string) (x y : pyval)
    (enums enums' : Enums) :
  for_each normalize_col cols (x, enums) = Ok (y, enums') ->
  codes_kept enums enums'.
Proof.
  revert x enums. induction cols as [|c cols IH]; intros x enums H.
  - simpl in H. injection H as _ <-. apply codes_kept_refl.
  - cbn [for_each] in H.
    destruct (normalize_col (x, enums) c) as [[x1 en1] |] eqn:Hc; [| discriminate].
    cbn [res_bind] in H.
    eapply codes_kept_trans; [eapply normalize_col_keeps | eapply IH]; eauto.
Qed.

Lemma save_events_keep (E : Env) (site : Site) (t : datetime)
    (events : list Event) (enums enums' : Enums) (out out' : list Row) :
  for_each (save_event E site t) events (enums, out) = Ok (enums', out') ->
  codes_kept enums enums'.
Proof.
  revert enums out. induction events as [|ev events IH]; intros enums out H.
  - simpl in H. injection H as <- _. apply codes_kept_refl.
  - cbn [for_each] in H.
    destruct (save_event E site t (enums, out) ev) as [[en1 out1] |] eqn:Hev;
      [| discriminate].
    cbn [res_bind] in H.
    eapply codes_kept_trans; [| eapply IH; eauto].
    unfold save_event in Hev. destruct ev as [[p ix] desc].
    destruct (sorted_keys desc) as [ks |]; [| discriminate].
    cbn [res_bind] in Hev.
    destruct (assert (str_list_eqb ks desc_keys)); [| discriminate].
    cbn [res_bind] in Hev.
    destruct (for_each normalize_col (enum_cols E) (desc, enums))
      as [[desc' en'] |] eqn:Hn; [| discriminate].
    cbn [res_bind] in Hev.
    destruct (make_row E site t p ix desc' en') as [d |]; [| discriminate].
    cbn [res_bind] in Hev. injection Hev as <- _.
    eapply normalize_cols_keep; eauto.
Qed.

(** [save] never changes the code of a meaning. *)
Lemma save_keeps_codes (E : Env) (site : Site) (events : list Event)
    (t : datetime) (enums enums' : Enums) (db db' : Db) :
  save E site events t (enums, db) = Ok (enums', db') ->
  codes_kept enums enums'.
Proof.
  unfold save. destruct events as [|ev events].
  - intros H. injection H as <- _. apply codes_kept_refl.
  - intros H.
    destruct (for_each (save_event E site t) (ev :: events) (enums, []))
      as [[en out] |] eqn:Hout; [| discriminate].
    cbn [res_bind] in H.
    destruct (persist_enums E en (Enumeration db)) as [enumeration |];
      [| discriminate].
    cbn [res_bind] in H.
    destruct (for_each (insert_event E enumeration) out (Events db));
      [| discriminate].
    cbn [res_bind] in H. injection H as <- _.
    eapply save_events_keep; eauto.
Qed.

(** C6.  Let the distinct meanings of a column, in the order in which
    they were first seen, be [known], its table holding each with its
    rank as code.  The mirror loaded at startup is that numbering.
    Looking meanings up or allocating codes for them, in order, leaves
    the mirror that numbers the meanings first seen so far: the old
    ones keep their place and code, each new one is added once, after
    them, with the next code.  Persisting it leaves the table of that
    numbering, the rows stored before untouched; inserting a stored
    pair again, or persisting again, changes nothing; and the next run
    loads the same codes.  Whatever the values met, [save] leaves
    every meaning of the mirror its code. *)
Theorem enumeration_codes_are_stable (known ms : list string) :
  NoDup known ->
  let known' := first_seen ms known in
  load_enum (table_of known) = mirror_of known
  /\ allocate ms (mirror_of known) = Ok (mirror_of known')
  /\ (forall d enums ec m e,
        assoc ec d = Some (PStr m) -> m <> "Not Supplied" -> m <> "" ->
        enums_get enums ec = Ok e ->
        normalize_col (PDict d, enums) ec
        = (e' <- setdefault e (PStr m) (len e) ;;
           Ok (PDict d, assoc_set ec e' enums))%res)
  /\ (exists news, known' = known ++ news
                   /\ mirror_of known' = mirror_of known
                        ++ map (fun mc : string * Z => (PStr (fst mc), snd mc))
                             (numbering_from (List.length known) news)
                   /\ table_of known' = table_of known
                        ++ map (fun mc : string * Z => (snd mc, fst mc))
                             (numbering_from (List.length known) news))
  /\ NoDup known'
  /\ NoDup (map snd (mirror_of known'))
  /\ (forall i m, nth_error known i = Some m ->
        enum_lookup (PStr m) (mirror_of known) = Some (Z.of_nat i)
        /\ enum_lookup (PStr m) (mirror_of known') = Some (Z.of_nat i))
  /\ (forall i m, nth_error known' i = Some m ->
        enum_lookup (PStr m) (mirror_of known') = Some (Z.of_nat i))
  /\ persist_enum (table_of known) (mirror_of known') = table_of known'
  /\ (forall row, In row (table_of known') ->
        insert_or_ignore (table_of known') row = table_of known')
  /\ persist_enum (table_of known') (mirror_of known') = table_of known'
  /\ load_enum (table_of known') = mirror_of known'
  /\ (forall E site events t enums enums' db db',
        save E site events t (enums, db) = Ok (enums', db') ->
        forall ec e key c,
          assoc ec enums = Some e -> enum_lookup key e = Some c ->
          exists e', assoc ec enums' = Some e' /\ enum_lookup key e' = Some c).
Proof.
  intros Hnd known'.
  destruct (first_seen_extends ms known Hnd) as [[news Hnews] Hnd'].
  fold known' in Hnews, Hnd'.
  split; [now apply load_table |].
  split; [apply allocate_first_seen |].
  split.
  { intros d enums ec m e Hv Hns Hne He.
    rewrite (normalize_col_eq _ enums _ _ Hv).
    replace (existsb (py_eq_str (PStr m)) na_like_values) with false.
    - cbn [truthy]. apply String.eqb_neq in Hne. rewrite Hne. cbn [negb].
      now rewrite He.
    - symmetry. apply not_true_is_false. rewrite na_like_iff. congruence. }
  split.
  { exists news. split; [assumption |]. rewrite Hnews.
    unfold mirror_of, table_of, numbering.
    now rewrite numbering_from_app, !map_app. }
  split; [assumption |].
  split.
  { unfold mirror_of, numbering. rewrite map_map. cbn [snd].
    rewrite numbering_from_values.
    apply Injective_map_NoDup; [intros a b; apply Nat2Z.inj |].
    apply seq_NoDup. }
  split.
  { intros i m Hi. split; [now apply mirror_rank |].
    apply mirror_rank; [assumption |]. rewrite Hnews.
    rewrite nth_error_app1; [assumption |].
    apply nth_error_Some. congruence. }
  split; [intros i m; now apply mirror_rank |].
  split; [rewrite Hnews in *; now apply persist_extends |].
  split; [intros; now apply insert_or_ignore_stored |].
  split; [apply persist_stored, mirror_in_table |].
  split; [now apply load_table |].
  intros E site events t enums enums' db db' Hsave.
  exact (save_keeps_codes E site events t enums enums' db db' Hsave).
Qed.

(* ================================================================== *)
(** ** The cursor of a job *)
(* ================================================================== *)

Lemma insert_events_app (E : Env) (enumeration : list (string * list (Z * string)))
    (out rows rows' : list Row) :
  for_each (insert_event E enumeration) out rows = Ok rows' ->
  rows' = rows ++ out.
Proof.
  revert rows. induction out as [|d out IH]; intros rows H.
  - simpl in H. injection H as <-. now rewrite app_nil_r.
  - cbn [for_each] in H.
    destruct (insert_event E enumeration rows d) as [rows1 |] eqn:Hins;
      [| discriminate].
    cbn [res_bind] in H. apply IH in H. subst rows'.
    unfold insert_event in Hins.
    repeat res_step Hins; try discriminate.
    injection Hins as <-. now rewrite <- app_assoc.
Qed.

Lemma make_row_time (E : Env) (site : Site) (t : datetime) (p : Q * Q)
    (ix : Z) (desc : pyval) (enums : Enums) (row : Row) :
  make_row E site t p ix desc enums = Ok row ->
  assoc "time" row = Some (PInt (timestamp (tz site) t)).
Proof.
  unfold make_row. destruct p as [lon lat]. intros H.
  repeat res_step H; try discriminate.
  injection H as <-. reflexivity.
Qed.

Lemma save_events_time (E : Env) (site : Site) (t : datetime)
    (events : list Event) (enums enums' : Enums) (out out' : list Row) :
  for_each (save_event E site t) events (enums, out) = Ok (enums', out') ->
  Forall (fun row => assoc "time" row = Some (PInt (timestamp (tz site) t))) out ->
  Forall (fun row => assoc "time" row = Some (PInt (timestamp (tz site) t))) out'.
Proof.
  revert enums out. induction events as [|ev events IH]; intros enums out H Hout.
  - simpl in H. now injection H as _ <-.
  - cbn [for_each] in H.
    destruct (save_event E site t (enums, out) ev) as [[en1 out1] |] eqn:Hev;
      [| discriminate].
    cbn [res_bind] in H. apply (IH _ _ H). clear H IH.
    unfold save_event in Hev. destruct ev as [[p ix] desc].
    destruct (sorted_keys desc) as [ks |]; [| discriminate].
    cbn [res_bind] in Hev.
    destruct (assert (str_list_eqb ks desc_keys)); [| discriminate].
    cbn [res_bind] in Hev.
    destruct (for_each normalize_col (enum_cols E) (desc, enums))
      as [[desc' en'] |]; [| discriminate].
    cbn [res_bind] in Hev.
    destruct (make_row E site t p ix desc' en') as [d |] eqn:Hd; [| discriminate].
    cbn [res_bind] in Hev.
    match type of Hev with
    | Ok (_, if ?b then _ else _) = _ => destruct b
    end; injection Hev as _ <-; [assumption |].
    apply Forall_app. split; [assumption |].
    constructor; [| constructor]. eapply make_row_time; eauto.
Qed.

(** [save] leaves the jobs alone and adds rows dated [the_time]. *)
Lemma save_effect (E : Env) (site : Site) (events : list Event) (t : datetime)
    (enums enums' : Enums) (db db' : Db) :
  save E site events t (enums, db) = Ok (enums', db') ->
  Jobs db' = Jobs db
  /\ exists out,
       Events db' = Events db ++ out
       /\ Forall (fun row => assoc "time" row = Some (PInt (timestamp (tz site) t)))
            out.
Proof.
  unfold save. destruct events as [|ev events].
  - intros H. injection H as _ <-. split; [reflexivity |].
    exists []. now rewrite app_nil_r.
  - intros H.
    destruct (for_each (save_event E site t) (ev :: events) (enums, []))
      as [[en out] |] eqn:Hout; [| discriminate].
    cbn [res_bind] in H.
    destruct (persist_enums E en (Enumeration db)) as [enumeration |];
      [| discriminate].
    cbn [res_bind] in H.
    destruct (for_each (insert_event E enumeration) out (Events db))
      as [rows |] eqn:Hrows; [| discriminate].
    cbn [res_bind] in H. injection H as _ <-. cbn [Jobs Events].
    split; [reflexivity |]. exists out.
    split; [eapply insert_events_app; eauto |].
    eapply save_events_time; eauto.
Qed.

Lemma select_job_In (db : Db) (job : Job) :
  select_job db = Some job -> In job (Jobs db).
Proof.
  unfold select_job.
  assert (G : forall jobs best,
            fold_left
              (fun best j =>
                 if pending j then
                   match best with
                   | Some b => if job_id j <? job_id b then Some j else best
                   | None => Some j
                   end
                 else best) jobs best = Some job ->
            In job jobs \/ best = Some job).
  { induction jobs as [|j jobs IH]; intros best H; simpl in H; [now right |].
    apply IH in H. destruct H as [H | H]; [left; now right |].
    destruct (pending j); [| now right].
    destruct best as [b |].
    - destruct (job_id j <? job_id b); [| now right].
      injection H as <-. left. now left.
    - injection H as <-. left. now left. }
  intros H. apply G in H. destruct H as [H | H]; [assumption | discriminate].
Qed.

Lemma update_time_next_spec (t id : Z) (jobs : list Job) :
  (forall j, In j (update_time_next t id jobs) -> job_id j = id ->
             time_next j = Some t)
  /\ (forall j, In j jobs -> job_id j = id ->
        exists j', In j' (update_time_next t id jobs)
                   /\ job_id j' = id /\ time_next j' = Some t)
  /\ (forall j, In j jobs -> job_id j <> id -> In j (update_time_next t id jobs)).
Proof.
  unfold update_time_next. repeat split.
  - intros j Hin Hid. apply in_map_iff in Hin. destruct Hin as [j0 [Heq _]].
    destruct (job_id j0 =? id) eqn:He.
    + subst j. reflexivity.
    + subst j. apply Z.eqb_neq in He. congruence.
  - intros j Hin Hid. eexists. split.
    + apply in_map_iff. exists j. split; [reflexivity | assumption].
    + apply Z.eqb_eq in Hid. rewrite Hid. cbn [job_id time_next].
      apply Z.eqb_eq in Hid. auto.
  - intros j Hin Hid. apply in_map_iff. exists j. split; [| assumption].
    apply Z.eqb_neq in Hid. now rewrite Hid.
Qed.

Lemma main_step_commit (E : Env) (tiles_fuel : nat) (enums enums' : Enums)
    (db db' : Db) (job : Job) (site : Site) (events : list Event)
    (time_actual : datetime) (w w' : World) :
  select_job db = Some job ->
  py_nth sites (job_site job) = Ok site ->
  scrape E tiles_fuel site (start_time site job) w
    = (Return (events, time_actual), w') ->
  save E site events time_actual (enums, db) = Ok (enums', db') ->
  main_step E tiles_fuel (enums, db) w
  = (Return (Some (enums',
       {| Jobs := update_time_next
                    (timestamp (tz site)
                       (dt_add (start_time site job) query_time_increment))
                    (job_id job) (Jobs db');
          Events := Events db';
          Enumeration := Enumeration db' |})), w').
Proof.
  intros Hj Hs Hsc Hsv. cbn [main_step]. rewrite Hj. unfold bind at 1.
  rewrite Hs. cbn [lift ret]. unfold bind at 1. rewrite Hsc.
  unfold bind. rewrite Hsv. reflexivity.
Qed.

(** C1 (amended).  When a snapshot is processed and committed, the
    cursor of its job becomes the time the snapshot was requested at
    plus 15 minutes on the wall clock of the site (that is the
    requested epoch time plus 900 seconds when the UTC offset is the
    same at both), whatever time [scrape] reached by shifting: that
    time dates the rows saved and nothing else. *)
Theorem cursor_advances_from_requested_time (E : Env) (tiles_fuel : nat)
    (enums enums' : Enums) (db db' : Db) (job : Job) (site : Site)
    (events : list Event) (time_actual : datetime) (w w' : World) :
  select_job db = Some job ->
  py_nth sites (job_site job) = Ok site ->
  scrape E tiles_fuel site (start_time site job) w
    = (Return (events, time_actual), w') ->
  save E site events time_actual (enums, db) = Ok (enums', db') ->
  let requested := start_time site job in
  let cursor := timestamp (tz site) (dt_add requested query_time_increment) in
  exists db'',
    main_step E tiles_fuel (enums, db) w = (Return (Some (enums', db'')), w')
    /\ (exists j, In j (Jobs db'') /\ job_id j = job_id job
                  /\ time_next j = Some cursor)
    /\ (forall j, In j (Jobs db'') -> job_id j = job_id job ->
                  time_next j = Some cursor)
    /\ (utcoffset (tz site) (wall requested + 15 * 60) false
        = utcoffset (tz site) (wall requested) (fold requested) ->
        cursor = timestamp (tz site) requested + 15 * 60)
    /\ (exists out,
          Events db'' = Events db ++ out
          /\ Forall (fun row =>
                       assoc "time" row
                       = Some (PInt (timestamp (tz site) time_actual))) out).
Proof.
  intros Hj Hs Hsc Hsv requested cursor.
  destruct (save_effect E site events time_actual enums enums' db db' Hsv)
    as [Hjobs Hrows].
  eexists. split; [eapply main_step_commit; eauto |].
  cbn [Jobs Events]. rewrite Hjobs.
  destruct (update_time_next_spec cursor (job_id job) (Jobs db))
    as (Hall & Hex & _).
  split; [apply (Hex job); [now apply select_job_In | reflexivity] |].
  split; [exact Hall |].
  split; [| exact Hrows].
  intros Hoff. unfold cursor, timestamp, dt_add, query_time_increment.
  cbn [wall fold]. rewrite Hoff. lia.
Qed.

(* ================================================================== *)
(** * The properties on the examples *)
(* ================================================================== *)

(** The snapshot requested at 1600000000 is found one minute late;
    its rows are dated 1600000060 and the cursor becomes 1600000900. *)
Lemma cursor_advances_from_requested_time_witness :
  exists st w',
    main_step (Demo.env Demo.late) 10 (Demo.enums1, Demo.db1) Demo.w0
    = (Return (Some st), w')
    /\ exists j, In j (Jobs (snd st)) /\ job_id j = 1
                 /\ time_next j = Some (1600000000 + 15 * 60).
Proof.
  assert (H : exists events t w' enums' db',
            scrape (Demo.env Demo.late) 10 nyc (start_time nyc Demo.job1) Demo.w0
            = (Return (events, t), w')
            /\ save (Demo.env Demo.late) nyc events t (Demo.enums1, Demo.db1)
               = Ok (enums', db')).
  { let r := eval vm_compute in
        (scrape (Demo.env Demo.late) 10 nyc (start_time nyc Demo.job1) Demo.w0) in
    match r with
    | (Return (?ev, ?t), ?w') =>
        let s := eval vm_compute in
            (save (Demo.env Demo.late) nyc ev t (Demo.enums1, Demo.db1)) in
        match s with
        | Ok (?en, ?db) =>
            exists ev, t, w', en, db; split; vm_compute; reflexivity
        end
    end. }
  destruct H as (events & t & w' & enums' & db' & Hsc & Hsv).
  destruct (cursor_advances_from_requested_time (Demo.env Demo.late) 10
              Demo.enums1 enums' Demo.db1 db' Demo.job1 nyc events t Demo.w0 w'
              eq_refl eq_refl Hsc Hsv)
    as (db'' & Hstep & Hex & _).
  exists (enums', db''), w'. split; [exact Hstep | exact Hex].
Defined.

(** C1 as stated fails: the snapshot requested at t0 = 1600000000 is
    found at t0 + 60 s, within the bound, and the cursor stored is
    t0 + 15 min, not t0 + 60 s + 15 min. *)
Lemma cursor_ignores_realignment :
  match main_step (Demo.env Demo.late) 10 (Demo.enums1, Demo.db1) Demo.w0,
        scrape (Demo.env Demo.late) 10 nyc (start_time nyc Demo.job1) Demo.w0
  with
  | (Return (Some (_, db')), _), (Return (_, time_actual), _) =>
      timestamp new_york (start_time nyc Demo.job1) = 1600000000
      /\ timestamp new_york time_actual = 1600000000 + 60
      /\ cursors db' = [(1, Some (1600000000 + 15 * 60))]
      /\ cursors db' <> [(1, Some (1600000000 + 60 + 15 * 60))]
      /\ map (assoc "time") (Events db')
         = [Some (PInt (1600000000 + 60)); Some (PInt (1600000000 + 60));
            Some (PInt (1600000000 + 60)); Some (PInt (1600000000 + 60))]
  | _, _ => False
  end.
Proof.
  vm_compute. repeat split; discriminate.
Qed.


(** With no data at any time, the fetch of the top tile is given up
    after requests at t, t+30, t+60 and t+90, and [scrape] returns no
    event and the time t+120. *)
Lemma forbidden_shifts_anchor_skips_others_witness :
  scrape (Demo.env Demo.never) 5 nyc Demo.t1 Demo.w0
  = (Return ([], {| wall := wall Demo.t1 + 120; fold := false |}),
     {| n_requests := 4;
        journal := [ Get (request_url nyc Demo.t1 Demo.top);
                     Get (request_url nyc (dt_add Demo.t1 30) Demo.top);
                     Get (request_url nyc (dt_add Demo.t1 60) Demo.top);
                     Get (request_url nyc (dt_add Demo.t1 90) Demo.top) ] |}).
Proof.
  destruct (forbidden_shifts_anchor_skips_others (Demo.env Demo.never) nyc
              Demo.top [] eq_refl eq_refl)
    as (_ & _ & _ & _ & Hskip & Hgive & _).
  specialize (Hgive Demo.t1 Demo.w0).
  cbv zeta in Hgive.
  assert (Hr : forall n url, refused (get (Demo.env Demo.never) n url))
    by (intros; split; reflexivity).
  specialize (Hgive (Hr _ _) (Hr _ _) (Hr _ _) (Hr _ _)).
  unfold scrape. change (top_tiles nyc) with [Demo.top].
  rewrite (Hskip 4%nat Demo.top [] [] Demo.t1 Demo.t1 Demo.w0 _ _ _ Hgive eq_refl).
  reflexivity.
Defined.

(** With the upstream out of order, the third try raises and [scrape]
    ends with the exception. *)
Lemma transient_errors_abort_run_witness :
  fst (scrape (Demo.env Demo.down) 5 nyc Demo.t1 Demo.w0)
  = Throw (RetriesExceeded (request_url nyc Demo.t1 Demo.top) 503
             "Service Unavailable")
  /\ journal (snd (scrape (Demo.env Demo.down) 5 nyc Demo.t1 Demo.w0))
     = [ Get (request_url nyc Demo.t1 Demo.top); Sleep retry;
         Get (request_url nyc Demo.t1 Demo.top); Sleep retry;
         Get (request_url nyc Demo.t1 Demo.top) ].
Proof.
  assert (Hr : forall n url, transient (get (Demo.env Demo.down) n url))
    by (intros; split; [reflexivity | discriminate]).
  destruct (transient_errors_abort_run (Demo.env Demo.down) nyc Demo.top []
              [] Demo.t1 Demo.t1 Demo.w0 4 (Hr _ _) (Hr _ _) (Hr _ _))
    as (_ & _ & _ & _ & Hthrow & _).
  unfold scrape. change (top_tiles nyc) with [Demo.top].
  rewrite Hthrow. split; reflexivity.
Defined.

(** The cluster of two itemized events, 3 + 4 = 7 customers: two
    events, tagged 1 and 2. *)
Lemma itemized_cluster_emits_witness :
  exists evs,
    process_outage (Demo.env Demo.late) Demo.top ([], []) Demo.cluster_b
    = Ok (evs, [])
    /\ map (fun ev : Event => snd (fst ev)) evs = [1; 2].
Proof.
  eexists. split.
  - eapply (itemized_cluster_emits (Demo.env Demo.late) Demo.top [] []
              Demo.cluster_b _ _ _ _ _ _ 7).
    + unfold is_cluster. repeat split; try reflexivity;
        eexists; split; reflexivity.
    + reflexivity.
    + reflexivity.
    + reflexivity.
    + reflexivity.
    + reflexivity.
    + reflexivity.
  - reflexivity.
Defined.

(** The cluster to be resolved, at a point of the north-west child:
    that child is queued, and only it. *)
Lemma unitemized_cluster_enqueues_witness :
  process_outage (Demo.env Demo.late) Demo.top ([], []) Demo.cluster_c
  = Ok ([], [Demo.tile_nw])
  /\ process_outage (Demo.env Demo.late) Demo.top ([], [Demo.tile_nw])
       Demo.cluster_c
     = Ok ([], [Demo.tile_nw]).
Proof.
  assert (Hc : exists p desc sub,
            is_cluster (Demo.env Demo.late) Demo.cluster_c p desc sub
            /\ truthy sub = false).
  { do 3 eexists. unfold is_cluster. repeat split; try reflexivity;
      eexists; split; reflexivity. }
  destruct Hc as (p & desc & sub & Hc & Hsub).
  split.
  - destruct (unitemized_cluster_enqueues (Demo.env Demo.late) Demo.top [] []
                Demo.cluster_c p desc sub Hc Hsub) as (Hfirst & _).
    rewrite Hfirst. clear Hfirst.
    destruct Hc as (Hp & _). vm_compute in Hp. injection Hp as <-.
    reflexivity.
  - destruct (unitemized_cluster_enqueues (Demo.env Demo.late) Demo.top []
                [Demo.tile_nw] Demo.cluster_c p desc sub Hc Hsub)
      as (Hfirst & _).
    rewrite Hfirst. clear Hfirst.
    destruct Hc as (Hp & _). vm_compute in Hp. injection Hp as <-.
    reflexivity.
Defined.

(** The site has one top tile; whatever the upstream, no tile is
    fetched twice in a snapshot. *)
Lemma no_tile_fetched_twice_witness :
  scrape_order (Demo.env Demo.late) 10 nyc Demo.t1 Demo.w0
  = [Demo.top; Demo.tile_nw]
  /\ NoDup (scrape_order (Demo.env Demo.late) 10 nyc Demo.t1 Demo.w0).
Proof.
  split; [vm_compute; reflexivity |].
  exact (proj1 (no_tile_fetched_twice (Demo.env Demo.late) nyc 10 Demo.t1
                  Demo.w0 eq_refl)).
Defined.

(** A column that knows "Tree" and then meets "Wire", "Tree", "Fuse". *)
Lemma enumeration_codes_are_stable_witness :
  allocate ["Wire"; "Tree"; "Fuse"]
    (load_enum [(0, "Tree")])
  = Ok [(PStr "Tree", 0); (PStr "Wire", 1); (PStr "Fuse", 2)]
  /\ persist_enum [(0, "Tree")]
       [(PStr "Tree", 0); (PStr "Wire", 1); (PStr "Fuse", 2)]
     = [(0, "Tree"); (1, "Wire"); (2, "Fuse")].
Proof.
  assert (Hnd : NoDup ["Tree"]) by (repeat constructor; intros []).
  destruct (enumeration_codes_are_stable ["Tree"] ["Wire"; "Tree"; "Fuse"] Hnd)
    as (Hload & Halloc & _ & _ & _ & _ & _ & _ & Hpersist & _).
  split.
  - change [(0, "Tree")] with (table_of ["Tree"]). rewrite Hload. exact Halloc.
  - exact Hpersist.
Defined.

(** ** Two remarks *)

(** The cursor moves by 15 minutes of wall clock: from 01:45 of the
    night daylight time ends in (2020-11-01T05:45Z) it goes to 02:00
    standard time, 75 minutes later. *)
Lemma cursor_when_daylight_time_ends :
  timestamp new_york
    (dt_add (fromtimestamp new_york 1604209500) query_time_increment)
  = 1604209500 + 75 * 60.
Proof. reflexivity. Qed.

(** A site whose first top tile is a child of a later one has that
    child popped twice: once as a top tile, once as the child its
    parent zooms into.  No site of the program is such. *)
Lemma nested_top_tiles_are_popped_twice :
  scrape_order (Demo.env Demo.steady) 10 Demo.nested Demo.t1 Demo.w0
  = [Demo.tile_nw; Demo.top; Demo.tile_nw]
  /\ antichain (top_tiles Demo.nested) = false
  /\ Forall (fun site => antichain (top_tiles site) = true) sites.
Proof.
  split; [vm_compute; reflexivity |].
  split; [reflexivity |]. repeat constructor.
Qed.

(* ================================================================== *)
(** * Further properties *)
(* ================================================================== *)

(* ================================================================== *)
(** ** Jobs *)
(* ================================================================== *)

Lemma select_job_fold (jobs seen : list Job) (best : option Job) :
  match best with
  | Some b => In b seen /\ pending b = true
              /\ forall j, In j seen -> pending j = true -> job_id b <= job_id j
  | None => forall j, In j seen -> pending j = false
  end ->
  match fold_left (fun best j =>
                     if pending j then
                       match best with
                       | Some b => if job_id j <? job_id b then Some j else best
                       | None => Some j
                       end
                     else best) jobs best with
  | Some b => In b (seen ++ jobs) /\ pending b = true
              /\ forall j, In j (seen ++ jobs) -> pending j = true ->
                           job_id b <= job_id j
  | None => forall j, In j (seen ++ jobs) -> pending j = false
  end.
Proof.
  revert seen best. induction jobs as [|j0 jobs IH]; intros seen best Hinv.
  - rewrite app_nil_r. exact Hinv.
  - cbn [fold_left].
    replace (seen ++ j0 :: jobs) with ((seen ++ [j0]) ++ jobs)
      by (rewrite <- app_assoc; reflexivity).
    apply IH.
    destruct (pending j0) eqn:Hp.
    + destruct best as [b |].
      * destruct Hinv as (Hin & Hpb & Hmin).
        destruct (job_id j0 <? job_id b) eqn:Hlt.
        { apply Z.ltb_lt in Hlt. split; [apply in_app_iff; right; now left |].
          split; [assumption |].
          intros j Hj Hpj. apply in_app_iff in Hj. destruct Hj as [Hj | [<- | []]].
          - specialize (Hmin j Hj Hpj). lia.
          - lia. }
        { apply Z.ltb_ge in Hlt. split; [apply in_app_iff; now left |].
          split; [assumption |].
          intros j Hj Hpj. apply in_app_iff in Hj. destruct Hj as [Hj | [<- | []]].
          - now apply Hmin.
          - assumption. }
      * split; [apply in_app_iff; right; now left |]. split; [assumption |].
        intros j Hj Hpj. apply in_app_iff in Hj. destruct Hj as [Hj | [<- | []]].
        { rewrite (Hinv j Hj) in Hpj. discriminate. }
        { lia. }
    + destruct best as [b |].
      * destruct Hinv as (Hin & Hpb & Hmin).
        split; [apply in_app_iff; now left |]. split; [assumption |].
        intros j Hj Hpj. apply in_app_iff in Hj. destruct Hj as [Hj | [<- | []]].
        { now apply Hmin. }
        { congruence. }
      * intros j Hj. apply in_app_iff in Hj. destruct Hj as [Hj | [<- | []]];
          [now apply Hinv | assumption].
Qed.

(** X1.  The job [main] takes up is a pending one, a job whose cursor
    is null or not beyond its [time_max], and among the pending ones
    one of least [job_id]; there is none exactly when no job is
    pending. *)
Theorem select_job_least_pending (db : Db) :
  match select_job db with
  | Some job =>
      In job (Jobs db)
      /\ (time_next job = None
          \/ exists t, time_next job = Some t /\ t <= time_max job)
      /\ forall j, In j (Jobs db) -> pending j = true -> job_id job <= job_id j
  | None =>
      forall j, In j (Jobs db) ->
                exists t, time_next j = Some t /\ time_max j < t
  end.
Proof.
  pose proof (select_job_fold (Jobs db) [] None) as H. cbn [app] in H.
  fold (select_job db) in H.
  assert (H0 : forall j : Job, In j [] -> pending j = false) by (intros j []).
  specialize (H H0). clear H0.
  destruct (select_job db) as [job |].
  - destruct H as (Hin & Hp & Hmin). split; [assumption |]. split; [| assumption].
    unfold pending in Hp. destruct (time_next job) as [t |]; [| now left].
    right. exists t. split; [reflexivity |]. now apply Z.leb_le.
  - intros j Hj. specialize (H j Hj). unfold pending in H.
    destruct (time_next j) as [t |]; [| discriminate].
    exists t. split; [reflexivity |]. now apply Z.leb_gt.
Qed.

(* ================================================================== *)
(** ** What a run leaves of the database *)
(* ================================================================== *)

Lemma persist_enum_appends (e : Enum) (rows : list (Z * string)) :
  exists more, persist_enum rows e = rows ++ more.
Proof.
  unfold persist_enum. revert rows.
  induction e as [|[meaning c] e IH]; intros rows.
  - exists []. now rewrite app_nil_r.
  - cbn [fold_left]. unfold insert_or_ignore at 2.
    destruct (existsb _ rows); [apply IH |].
    destruct (IH (rows ++ [(c, sql_text meaning)])) as [more Hm].
    exists ((c, sql_text meaning) :: more). rewrite Hm, <- app_assoc. reflexivity.
Qed.

Lemma assoc_set_keys {A} (k : string) (v v0 : A) (l : list (string * A)) :
  assoc k l = Some v0 -> map fst (assoc_set k v l) = map fst l.
Proof.
  induction l as [|[k' v'] l IH]; simpl; [discriminate |].
  destruct (String.eqb k k') eqn:He; simpl.
  - apply String.eqb_eq in He. now subst.
  - intros H. now rewrite IH.
Qed.

Lemma persist_enums_grows (enums : Enums) (cols : list string)
    (enumeration enumeration' : list (string * list (Z * string))) :
  for_each (fun enumeration ec =>
              (rows <- table ec enumeration ;;
               e <- enums_get enums ec ;;
               Ok (assoc_set ec (persist_enum rows e) enumeration))%res)
           cols enumeration = Ok enumeration' ->
  map fst enumeration' = map fst enumeration
  /\ forall ec rows, assoc ec enumeration = Some rows ->
       exists more, assoc ec enumeration' = Some (rows ++ more).
Proof.
  revert enumeration. induction cols as [|c cols IH]; intros enumeration H.
  - simpl in H. injection H as <-. split; [reflexivity |].
    intros ec rows Hr. exists []. now rewrite app_nil_r.
  - cbn [for_each] in H. unfold table in H at 1.
    destruct (assoc c enumeration) as [rows0 |] eqn:Hc; [| discriminate].
    cbn [res_bind] in H.
    destruct (enums_get enums c) as [e |]; [| discriminate].
    cbn [res_bind] in H. apply IH in H. destruct H as [Hk Hext].
    split; [rewrite Hk; eapply assoc_set_keys; eauto |].
    intros ec rows Hr.
    destruct (persist_enum_appends e rows0) as [more0 Hm0].
    destruct (string_dec ec c) as [-> | Hne].
    + rewrite Hc in Hr. injection Hr as <-.
      destruct (Hext c (rows0 ++ more0)) as [more Hm].
      { rewrite assoc_set_same. now rewrite Hm0. }
      exists (more0 ++ more). now rewrite app_assoc.
    + apply Hext. now rewrite assoc_set_other.
Qed.

Lemma grows_refl (db : Db) : grows db db.
Proof.
  split; [reflexivity |]. split; [exists []; now rewrite app_nil_r |].
  split; [reflexivity |].
  intros ec rows H. exists []. now rewrite app_nil_r.
Qed.

Lemma grows_trans (a b c : Db) : grows a b -> grows b c -> grows a c.
Proof.
  intros (Hj1 & [o1 He1] & Hk1 & Ht1) (Hj2 & [o2 He2] & Hk2 & Ht2).
  split; [congruence |].
  split; [exists (o1 ++ o2); rewrite He2, He1; now rewrite app_assoc |].
  split; [congruence |].
  intros ec rows Hr. destruct (Ht1 ec rows Hr) as [m1 Hm1].
  destruct (Ht2 ec _ Hm1) as [m2 Hm2].
  exists (m1 ++ m2). now rewrite app_assoc.
Qed.

Lemma save_grows (E : Env) (site : Site) (events : list Event) (t : datetime)
    (enums enums' : Enums) (db db' : Db) :
  save E site events t (enums, db) = Ok (enums', db') -> grows db db'.
Proof.
  unfold save. destruct events as [|ev events].
  - intros H. injection H as _ <-. apply grows_refl.
  - intros H.
    destruct (for_each (save_event E site t) (ev :: events) (enums, []))
      as [[en out] |]; [| discriminate].
    cbn [res_bind] in H.
    destruct (persist_enums E en (Enumeration db)) as [enumeration |] eqn:Hp;
      [| discriminate].
    cbn [res_bind] in H.
    destruct (for_each (insert_event E enumeration) out (Events db))
      as [rows |] eqn:Hrows; [| discriminate].
    cbn [res_bind] in H. injection H as _ <-.
    apply insert_events_app in Hrows. apply persist_enums_grows in Hp.
    destruct Hp as [Hk Hext].
    split; [reflexivity |]. split; [exists out; exact Hrows |].
    split; [exact Hk | exact Hext].
Qed.

Lemma update_time_next_frame (t id : Z) (jobs : list Job) :
  map job_frame (update_time_next t id jobs) = map job_frame jobs.
Proof.
  unfold update_time_next. rewrite map_map. apply map_ext.
  intros j. destruct (job_id j =? id); reflexivity.
Qed.

(** One turn of [main], by cases. *)
Lemma main_step_cases (E : Env) (tiles_fuel : nat) (enums : Enums) (db : Db)
    (w : World) :
  (select_job db = None
   /\ main_step E tiles_fuel (enums, db) w = (Return None, w))
  \/ (exists job,
        select_job db = Some job
        /\ ((exists e, py_nth sites (job_site job) = Raise e
                       /\ main_step E tiles_fuel (enums, db) w = (Throw e, w))
            \/ exists site,
                 py_nth sites (job_site job) = Ok site
                 /\ let s := scrape E tiles_fuel site (start_time site job) w in
                    match fst s with
                    | Return (events, time_actual) =>
                        match save E site events time_actual (enums, db) with
                        | Ok (enums', db') =>
                            main_step E tiles_fuel (enums, db) w
                            = (Return (Some (enums',
                                 {| Jobs := update_time_next
                                      (timestamp (tz site)
                                         (dt_add (start_time site job)
                                            query_time_increment))
                                      (job_id job) (Jobs db');
                                    Events := Events db';
                                    Enumeration := Enumeration db' |})), snd s)
                        | Raise e =>
                            main_step E tiles_fuel (enums, db) w = (Throw e, snd s)
                        end
                    | Throw e =>
                        main_step E tiles_fuel (enums, db) w = (Throw e, snd s)
                    | Timeout =>
                        main_step E tiles_fuel (enums, db) w = (Timeout, snd s)
                    end)).
Proof.
  cbn [main_step]. destruct (select_job db) as [job |]; [right | left; auto].
  exists job. split; [reflexivity |]. unfold bind, lift.
  destruct (py_nth sites (job_site job)) as [site | e]; unfold ret, throw;
    cbv beta iota.
  - right. exists site. split; [reflexivity |]. cbv zeta.
    destruct (scrape E tiles_fuel site (start_time site job) w)
      as [[[events ta] | e |] w']; cbn [fst snd]; try reflexivity.
    destruct (save E site events ta (enums, db)) as [[en' db'] | e];
      reflexivity.
  - left. exists e. auto.
Qed.

Lemma main_step_grows (E : Env) (tiles_fuel : nat) (enums enums' : Enums)
    (db db' : Db) (w w' : World) :
  main_step E tiles_fuel (enums, db) w = (Return (Some (enums', db')), w') ->
  grows db db'.
Proof.
  intros H.
  destruct (main_step_cases E tiles_fuel enums db w)
    as [[_ Hs] | (job & Hj & [(e & _ & Hs) | (site & Hsite & Hs)])];
    try congruence.
  cbv zeta in Hs.
  destruct (fst (scrape E tiles_fuel site (start_time site job) w))
    as [[events ta] | e |]; try congruence.
  destruct (save E site events ta (enums, db)) as [[en1 db1] | e] eqn:Hsv;
    try congruence.
  rewrite Hs in H. injection H as _ <- _.
  apply save_grows in Hsv. destruct Hsv as (Hj1 & He1 & Hk1 & Ht1).
  split; [cbn [Jobs]; now rewrite update_time_next_frame |].
  split; [exact He1 |]. split; assumption.
Qed.

(** X2.  However a run ends, the database it leaves holds what it
    held before: [main] adds no job and removes none, and leaves each
    job its [job_id], [site] and [time_max]; the rows of [Events] and
    of every enumeration table are still there, unchanged and in their
    order, the new rows coming after them. *)
Theorem main_only_adds (E : Env) (tiles_fuel fuel : nat) (enums : Enums)
    (db : Db) (w : World) :
  let db' := final_db (main E tiles_fuel fuel (enums, db) w) in
  map job_frame (Jobs db') = map job_frame (Jobs db)
  /\ (exists out, Events db' = Events db ++ out)
  /\ map fst (Enumeration db') = map fst (Enumeration db)
  /\ (forall ec rows, assoc ec (Enumeration db) = Some rows ->
        exists more, assoc ec (Enumeration db') = Some (rows ++ more)).
Proof.
  cbv zeta. change (grows db (final_db (main E tiles_fuel fuel (enums, db) w))).
  revert enums db w. induction fuel as [|fuel IH]; intros enums db w.
  - apply grows_refl.
  - cbn [main].
    destruct (main_step E tiles_fuel (enums, db) w) as [[[[en1 db1] |] | e |] w1]
      eqn:Hs; try apply grows_refl.
    eapply grows_trans; [eapply main_step_grows; eauto | apply IH].
Qed.

(** X3.  When [main] returns, all jobs are done: the cursor of every
    job is beyond its [time_max].  A run started on such a database,
    whatever the upstream, sends no request, takes no pause and leaves
    the database as it is. *)
Theorem main_returns_when_all_jobs_done (E : Env) (tiles_fuel fuel : nat)
    (st : Enums * Db) (w : World) (db' : Db) (w' : World) :
  main E tiles_fuel fuel st w = (Return tt, db', w') ->
  (forall j, In j (Jobs db') -> exists t, time_next j = Some t /\ time_max j < t)
  /\ forall E' tiles_fuel' fuel' enums w0,
       main E' tiles_fuel' (S fuel') (enums, db') w0 = (Return tt, db', w0).
Proof.
  intros H.
  assert (Hnone : select_job db' = None).
  { revert st w H. induction fuel as [|fuel IH]; intros [enums db] w H.
    - discriminate.
    - cbn [main] in H.
      destruct (main_step_cases E tiles_fuel enums db w)
        as [[Hn Hs] | (job & Hj & Hs)].
      + rewrite Hs in H. injection H as <- _. exact Hn.
      + destruct (main_step E tiles_fuel (enums, db) w)
          as [[[st1 |] | e |] w1] eqn:Hm; try discriminate.
        * eapply IH; eauto.
        * exfalso. destruct Hs as [(e & _ & Hs) | (site & _ & Hs)];
            [discriminate |].
          cbv zeta in Hs.
          destruct (fst (scrape E tiles_fuel site (start_time site job) w))
            as [[events ta] | e |]; try discriminate.
          destruct (save E site events ta (enums, db)) as [[en1 db1] | e];
            discriminate. }
  split.
  - pose proof (select_job_fold (Jobs db') [] None) as Hf. cbn [app] in Hf.
    fold (select_job db') in Hf. rewrite Hnone in Hf.
    intros j Hj. assert (Hp : pending j = false) by (apply Hf; [intros ? [] | assumption]).
    unfold pending in Hp. destruct (time_next j) as [t |]; [| discriminate].
    exists t. split; [reflexivity |]. now apply Z.leb_gt.
  - intros E' tf' fuel' enums w0. cbn [main main_step]. now rewrite Hnone.
Qed.

(* ================================================================== *)
(** ** The pace of the requests *)
(* ================================================================== *)

Lemma paced_app (n m k : nat) (j1 j2 : list event) :
  paced n j1 m -> paced m j2 k -> paced n (j1 ++ j2) k.
Proof.
  intros H1 H2. induction H1 as [n | n n' url j H IH | n n' j H IH].
  - exact H2.
  - rewrite <- app_assoc. apply paced_get. now apply IH.
  - cbn [app]. apply paced_retry. now apply IH.
Qed.

Lemma paced_got (n : nat) (url : Request) : paced n (got n url) (S n).
Proof.
  rewrite <- (app_nil_r (got n url)). apply paced_get, paced_nil.
Qed.

Lemma fetch_paced (E : Env) (site : Site) (tile : QuadKey) (t0 : datetime)
    (fuel tries : nat) (t : datetime) (w : World) :
  exists j,
    journal (snd (fetch E fuel site tile t0 tries t w)) = journal w ++ j
    /\ paced (n_requests w) j
         (n_requests (snd (fetch E fuel site tile t0 tries t w))).
Proof.
  revert tries t w. induction fuel as [|fuel IH]; intros tries t w.
  - exists []. simpl. rewrite app_nil_r. split; [reflexivity | apply paced_nil].
  - assert (Hone : forall o : outcome (Response * datetime),
              exists j,
                journal (snd (o, after_get w (request_url site t tile)))
                = journal w ++ j
                /\ paced (n_requests w) j
                     (n_requests (snd (o, after_get w (request_url site t tile))))).
    { intros o. exists (got (n_requests w) (request_url site t tile)).
      split; [reflexivity | apply paced_got]. }
    rewrite fetch_S. cbv zeta.
    destruct (ok _); [apply Hone |].
    destruct (_ =? forbidden).
    + destruct (top_tiles site) as [|top0 rest]; [apply Hone |].
      destruct (quadkey_eqb tile top0); [| apply Hone].
      destruct (_ >? _); [apply Hone |].
      destruct (IH 0%nat (dt_add t subquery_time_increment)
                  (after_get w (request_url site t tile))) as (j & Hj & Hp).
      exists (got (n_requests w) (request_url site t tile) ++ j).
      rewrite Hj. cbn [after_get journal]. rewrite <- app_assoc.
      split; [reflexivity |]. apply paced_get. exact Hp.
    + destruct (Nat.leb max_tries (S tries)); [apply Hone |].
      destruct (IH (S tries) t
                  (after_sleep (after_get w (request_url site t tile)) retry))
        as (j & Hj & Hp).
      exists (got (n_requests w) (request_url site t tile) ++ Sleep retry :: j).
      rewrite Hj. cbn [after_sleep after_get journal]. rewrite <- !app_assoc.
      split; [reflexivity |]. apply paced_get, paced_retry. exact Hp.
Qed.

Lemma scrape_loop_paced (E : Env) (site : Site) (t0 : datetime) (fuel : nat) :
  forall tiles events t w,
  exists j,
    journal (snd (scrape_loop E fuel site t0 tiles events t w)) = journal w ++ j
    /\ paced (n_requests w) j
         (n_requests (snd (scrape_loop E fuel site t0 tiles events t w))).
Proof.
  induction fuel as [|fuel IH]; intros tiles events t w.
  - exists []. rewrite app_nil_r.
    destruct tiles; simpl; split; auto using paced_nil.
  - destruct tiles as [|tile tiles].
    { exists []. rewrite app_nil_r. simpl. split; auto using paced_nil. }
    destruct (fetch_paced E site tile t0 (fetch_fuel t0 t) 0 t w) as (j1 & Hj1 & Hp1).
    destruct (scrape_loop_step E fuel site t0 t tile tiles events w)
      as [(e & Hs & _) | (r & t' & ev & tl & _ & _ & Hs & _)].
    + rewrite Hs. cbn [snd]. eauto.
    + rewrite Hs.
      destruct (IH tl ev t' (snd (fetch E (fetch_fuel t0 t) site tile t0 0 t w)))
        as (j2 & Hj2 & Hp2).
      exists (j1 ++ j2). rewrite Hj2, Hj1, <- app_assoc.
      split; [reflexivity |]. eapply paced_app; eauto.
Qed.

Lemma main_step_paced (E : Env) (tiles_fuel : nat) (enums : Enums) (db : Db)
    (w : World) :
  exists j,
    journal (snd (main_step E tiles_fuel (enums, db) w)) = journal w ++ j
    /\ paced (n_requests w) j
         (n_requests (snd (main_step E tiles_fuel (enums, db) w))).
Proof.
  assert (Hnil : exists j, journal w = journal w ++ j
                           /\ paced (n_requests w) j (n_requests w)).
  { exists []. rewrite app_nil_r. split; [reflexivity | apply paced_nil]. }
  destruct (main_step_cases E tiles_fuel enums db w)
    as [[_ Hs] | (job & _ & [(e & _ & Hs) | (site & _ & Hs)])];
    try (rewrite Hs; exact Hnil).
  cbv zeta in Hs.
  assert (Hw : snd (main_step E tiles_fuel (enums, db) w)
               = snd (scrape E tiles_fuel site (start_time site job) w)).
  { destruct (fst (scrape E tiles_fuel site (start_time site job) w))
      as [[events ta] | e |]; try (now rewrite Hs).
    destruct (save E site events ta (enums, db)) as [[en1 db1] | e];
      now rewrite Hs. }
  rewrite Hw. apply scrape_loop_paced.
Qed.

Lemma div_succ (n : nat) :
  (S n / request_sleep_interval
   = n / request_sleep_interval
     + if Nat.eqb (Nat.modulo (S n) request_sleep_interval) 0 then 1 else 0)%nat.
Proof.
  unfold request_sleep_interval.
  pose proof (Nat.div_mod_eq (S n) 30) as H1.
  pose proof (Nat.div_mod_eq n 30) as H2.
  pose proof (Nat.mod_upper_bound n 30) as H3.
  pose proof (Nat.mod_upper_bound (S n) 30) as H4.
  destruct (Nat.eqb_spec (S n mod 30) 0); lia.
Qed.

Lemma pauses_app (k : sleep_key) (a b : list event) :
  pauses k (a ++ b) = (pauses k a + pauses k b)%nat.
Proof. unfold pauses. now rewrite filter_app, length_app. Qed.

Lemma paced_counts (n n' : nat) (j : list event) :
  paced n j n' ->
  n' = (n + List.length (requests_of j))%nat
  /\ (pauses between_requests j + n / request_sleep_interval
      = n' / request_sleep_interval)%nat.
Proof.
  intros H. induction H as [n | n n' url j H [IH1 IH2] | n n' j H [IH1 IH2]].
  - simpl. split; lia.
  - rewrite requests_of_app, requests_of_got, pauses_app. cbn [app List.length].
    split; [lia |]. rewrite <- IH2, div_succ. unfold got.
    destruct (Nat.eqb (Nat.modulo (S n) request_sleep_interval) 0);
      cbn; lia.
  - cbn [requests_of]. split; [assumption |].
    rewrite <- IH2. reflexivity.
Qed.

(** X4.  Over a whole run, whatever the replies and however it ends,
    the journal of the process is made of what [sleepy_get] writes for
    each request, with the pauses of the retries between them: each
    request adds one to [n_requests], and a pause between requests is
    taken after every thirtieth request of the process and at no other
    time, the count running on from tile to tile and from snapshot to
    snapshot. *)
Theorem requests_are_paced (E : Env) (tiles_fuel fuel : nat) (st : Enums * Db)
    (w : World) :
  let w' := final_world (main E tiles_fuel fuel st w) in
  exists j,
    journal w' = journal w ++ j
    /\ paced (n_requests w) j (n_requests w')
    /\ n_requests w' = (n_requests w + List.length (requests_of j))%nat
    /\ (pauses between_requests j + n_requests w / request_sleep_interval
        = n_requests w' / request_sleep_interval)%nat.
Proof.
  cbv zeta.
  assert (H : exists j,
            journal (final_world (main E tiles_fuel fuel st w)) = journal w ++ j
            /\ paced (n_requests w) j
                 (n_requests (final_world (main E tiles_fuel fuel st w)))).
  { revert st w. induction fuel as [|fuel IH]; intros [enums db] w.
    - exists []. simpl. rewrite app_nil_r. split; [reflexivity | apply paced_nil].
    - cbn [main].
      destruct (main_step_paced E tiles_fuel enums db w) as (j1 & Hj1 & Hp1).
      destruct (main_step E tiles_fuel (enums, db) w) as [[[st1 |] | e |] w1];
        cbn [snd fst final_world] in *; eauto.
      destruct (IH st1 w1) as (j2 & Hj2 & Hp2).
      exists (j1 ++ j2). unfold final_world in *. rewrite Hj2, Hj1, <- app_assoc.
      split; [reflexivity |]. eapply paced_app; eauto. }
  destruct H as (j & Hj & Hp). exists j.
  split; [assumption |]. split; [assumption |]. now apply paced_counts.
Qed.

(* ================================================================== *)
(** ** The requests of a fetch *)
(* ================================================================== *)

Lemma pauses_got (n : nat) (url : Request) : pauses retry (got n url) = 0%nat.
Proof. unfold got. destruct (Nat.eqb _ 0); reflexivity. Qed.

Lemma fetch_counts (E : Env) (site : Site) (tile : QuadKey) (t0 : datetime)
    (fuel tries : nat) (t : datetime) (w : World) :
  (tries < max_tries)%nat ->
  exists j,
    journal (snd (fetch E fuel site tile t0 tries t w)) = journal w ++ j
    /\ (fuel <> 0 -> 1 <= List.length (requests_of j))%nat
    /\ (List.length (requests_of j)
        <= max_tries - tries + max_tries * shifts_left t0 t)%nat
    /\ (pauses retry j
        <= max_tries - 1 - tries + (max_tries - 1) * shifts_left t0 t)%nat
    /\ (hd_error (top_tiles site) <> Some tile ->
        (List.length (requests_of j) <= max_tries - tries)%nat
        /\ (pauses retry j <= max_tries - 1 - tries)%nat).
Proof.
  unfold max_tries.
  revert tries t w. induction fuel as [|fuel IH]; intros tries t w Ht.
  - exists []. simpl. rewrite app_nil_r. unfold pauses. simpl.
    repeat split; lia.
  - assert (Hone : forall o : outcome (Response * datetime),
              exists j,
                journal (snd (o, after_get w (request_url site t tile)))
                = journal w ++ j
                /\ (S fuel <> 0 -> 1 <= List.length (requests_of j))%nat
                /\ (List.length (requests_of j)
                    <= 3 - tries + 3 * shifts_left t0 t)%nat
                /\ (pauses retry j <= 3 - 1 - tries + (3 - 1) * shifts_left t0 t)%nat
                /\ (hd_error (top_tiles site) <> Some tile ->
                    (List.length (requests_of j) <= 3 - tries)%nat
                    /\ (pauses retry j <= 3 - 1 - tries)%nat)).
    { intros o. exists (got (n_requests w) (request_url site t tile)).
      rewrite requests_of_got, pauses_got. cbn [List.length].
      repeat split; lia. }
    rewrite fetch_S. cbv zeta.
    destruct (ok _); [apply Hone |].
    destruct (_ =? forbidden).
    + destruct (top_tiles site) as [|top0 rest] eqn:Htop; [apply Hone |].
      destruct (quadkey_eqb tile top0) eqn:Heq; [| apply Hone].
      destruct (_ >? _) eqn:Hd; [apply Hone |].
      apply quadkey_eqb_eq in Heq. subst top0.
      destruct (IH 0%nat (dt_add t subquery_time_increment)
                  (after_get w (request_url site t tile)))
        as (j & Hj & _ & Hn & Hp & _); [lia |].
      exists (got (n_requests w) (request_url site t tile) ++ j).
      rewrite Hj. cbn [after_get journal]. rewrite <- app_assoc.
      split; [reflexivity |].
      rewrite requests_of_app, requests_of_got, pauses_app, pauses_got.
      cbn [app List.length]. rewrite (shifts_left_next _ _ Hd).
      split; [lia |]. split; [lia |]. split; [lia |].
      intros Hne. exfalso. apply Hne. reflexivity.
    + destruct (Nat.leb max_tries (S tries)) eqn:Hl; [apply Hone |].
      apply Nat.leb_gt in Hl. unfold max_tries in Hl.
      destruct (IH (S tries) t
                  (after_sleep (after_get w (request_url site t tile)) retry))
        as (j & Hj & _ & Hn & Hp & Ho); [lia |].
      exists (got (n_requests w) (request_url site t tile) ++ Sleep retry :: j).
      rewrite Hj. cbn [after_sleep after_get journal]. rewrite <- !app_assoc.
      split; [reflexivity |].
      rewrite requests_of_app, requests_of_got, pauses_app, pauses_got.
      cbn [app List.length requests_of].
      change (pauses retry (Sleep retry :: j)) with (S (pauses retry j)).
      split; [lia |]. split; [lia |]. split; [lia |].
      intros Hne. specialize (Ho Hne). lia.
Qed.

Lemma shifts_left_le (t0 t : datetime) :
  wall t0 <= wall t -> (shifts_left t0 t <= 3)%nat.
Proof.
  intros H. unfold shifts_left, subquery_time_max_dist, subquery_time_increment,
    dt_sub.
  assert (Hd : (1 * 60 + 30 - (wall t - wall t0)) / 30 <= 3).
  { apply Z.div_le_upper_bound; lia. }
  lia.
Qed.

(** X5.  The fetch of a tile always ends, whatever the replies: it
    sends at least one request and at most twelve, three at each of
    the four times from the start of the snapshot to 90 seconds after
    it, and waits for a retry at most eight times; for a tile other
    than the first top tile of the site, it sends at most three
    requests and waits at most twice. *)
Theorem fetch_is_bounded (E : Env) (site : Site) (tile : QuadKey)
    (t0 t : datetime) (w : World) :
  wall t0 <= wall t ->
  let out := fetch E (fetch_fuel t0 t) site tile t0 0 t w in
  fst out <> Timeout
  /\ exists j,
       journal (snd out) = journal w ++ j
       /\ (1 <= List.length (requests_of j) <= 12)%nat
       /\ (pauses retry j <= 8)%nat
       /\ (hd_error (top_tiles site) <> Some tile ->
           (List.length (requests_of j) <= 3)%nat
           /\ (pauses retry j <= 2)%nat).
Proof.
  intros Hle out. split; [apply fetch_total |].
  destruct (fetch_counts E site tile t0 (fetch_fuel t0 t) 0 t w)
    as (j & Hj & H1 & Hn & Hp & Ho); [unfold max_tries; lia |].
  pose proof (shifts_left_le t0 t Hle) as Hs.
  unfold max_tries in *.
  exists j. split; [exact Hj |].
  split; [split; [apply H1; rewrite fetch_fuel_S; discriminate | lia] |].
  split; [lia |].
  intros Hne. specialize (Ho Hne). lia.
Qed.

(* ================================================================== *)
(** ** What a fetch returns *)
(* ================================================================== *)

Lemma shifted_succ (k : nat) (t : datetime) :
  shifted k (dt_add t subquery_time_increment) = shifted (S k) t.
Proof. unfold shifted. now rewrite Nat.iter_succ_r. Qed.

Lemma wall_shifted (k : nat) (t : datetime) :
  wall (shifted k t) = wall t + subquery_time_increment * Z.of_nat k.
Proof.
  unfold shifted. induction k as [|k IH].
  - simpl. lia.
  - rewrite Nat.iter_succ. unfold dt_add at 1. cbn [wall]. rewrite IH. lia.
Qed.

Lemma fetch_result (E : Env) (site : Site) (tile : QuadKey) (t0 : datetime)
    (fuel tries : nat) (t : datetime) (w : World)
    (r : Response) (t' : datetime) (w' : World) :
  fetch E fuel site tile t0 tries t w = (Return (r, t'), w') ->
  (ok r = true \/ refused r)
  /\ exists k,
       t' = shifted k t
       /\ (k <> 0%nat -> hd_error (top_tiles site) = Some tile)
       /\ (ok r = true -> k = 0%nat \/ dt_sub t' t0 <= subquery_time_max_dist)
       /\ (refused r ->
           (hd_error (top_tiles site) = Some tile
            /\ k <> 0%nat /\ dt_sub t' t0 > subquery_time_max_dist)
           \/ (hd_error (top_tiles site) <> Some tile /\ k = 0%nat))
       /\ (dt_sub t t0 <= subquery_time_max_dist ->
           dt_sub t' t0 <= subquery_time_max_dist + subquery_time_increment).
Proof.
  revert tries t w. induction fuel as [|fuel IH]; intros tries t w H.
  - discriminate.
  - rewrite fetch_S in H. cbv zeta in H.
    destruct (ok (get E (n_requests w) (request_url site t tile))) eqn:Hok.
    { injection H as <- <- _. split; [now left |].
      exists 0%nat. split; [reflexivity |]. split; [congruence |].
      split; [now left |].
      split; [intros [Hf _]; congruence |].
      unfold subquery_time_increment. lia. }
    destruct (_ =? forbidden) eqn:Hst.
    + assert (Href : refused (get E (n_requests w) (request_url site t tile)))
        by (split; [assumption | now apply Z.eqb_eq]).
      destruct (top_tiles site) as [|top0 rest] eqn:Htop; [discriminate |].
      destruct (quadkey_eqb tile top0) eqn:Heq.
      * apply quadkey_eqb_eq in Heq. subst top0.
        destruct (_ >? _) eqn:Hd.
        { injection H as <- <- _. split; [now right |].
          exists 1%nat. split; [reflexivity |].
          split; [reflexivity |].
          split; [intros Hok'; congruence |].
          split; [intros _; left; split; [reflexivity |]; split;
                  [discriminate | lia] |].
          rewrite dt_sub_add. lia. }
        { apply IH in H. destruct H as [Hr (k & Hk & Hne & Hok' & Hre & Hle)].
          split; [exact Hr |].
          exists (S k). rewrite <- shifted_succ.
          split; [exact Hk |]. split; [reflexivity |].
          split.
          - intros Ho. right. destruct (Hok' Ho) as [-> | Hb]; [| exact Hb].
            subst t'.
            change (dt_sub (dt_add t subquery_time_increment) t0
                    <= subquery_time_max_dist). lia.
          - split.
            + intros Hf. left. split; [reflexivity |]. split; [discriminate |].
              destruct (Hre Hf) as [(_ & _ & Hb) | (Hb & _)];
                [exact Hb | now exfalso; apply Hb].
            + intros _. apply Hle. lia. }
      * injection H as <- <- _. split; [now right |].
        exists 0%nat. split; [reflexivity |]. split; [congruence |].
        split; [now left |].
        split.
        { intros _. right. split; [| reflexivity]. cbn [hd_error].
          apply quadkey_eqb_neq in Heq. congruence. }
        { unfold subquery_time_increment. lia. }
    + destruct (Nat.leb max_tries (S tries)); [discriminate |].
      now apply IH in H.
Qed.

(** X6.  A fetch that returns has got either a success or a
    "forbidden": no other reply comes out of the loop.  The time it
    returns is the time it started at, shifted a number of times by 30
    seconds; only the first top tile of the site is ever shifted.  A
    success that was met after a shift was asked for within 90 seconds
    of the start of the snapshot; a "forbidden" comes out for the first
    top tile only once the next time is beyond those 90 seconds, and
    for any other tile at once, with the time as it was. *)
Theorem fetch_returns_success_or_forbidden (E : Env) (site : Site)
    (tile : QuadKey) (t0 : datetime) (fuel tries : nat) (t : datetime)
    (w : World) (r : Response) (t' : datetime) (w' : World) :
  fetch E fuel site tile t0 tries t w = (Return (r, t'), w') ->
  (ok r = true \/ (ok r = false /\ status_code r = forbidden))
  /\ exists k,
       t' = shifted k t
       /\ wall t' = wall t + 30 * Z.of_nat k
       /\ (k <> 0%nat -> hd_error (top_tiles site) = Some tile)
       /\ (ok r = true -> k = 0%nat \/ dt_sub t' t0 <= 90)
       /\ (ok r = false ->
           (hd_error (top_tiles site) = Some tile
            /\ k <> 0%nat /\ dt_sub t' t0 > 90)
           \/ (hd_error (top_tiles site) <> Some tile /\ t' = t))
       /\ (dt_sub t t0 <= 90 -> dt_sub t' t0 <= 120).
Proof.
  intros H. apply fetch_result in H.
  destruct H as [Hr (k & Hk & Hne & Hok & Hre & Hle)].
  split; [exact Hr |]. exists k.
  split; [exact Hk |].
  split; [rewrite Hk, wall_shifted; reflexivity |].
  split; [exact Hne |]. split; [exact Hok |].
  split; [| exact Hle].
  intros Hf. destruct Hr as [Ho | Href]; [congruence |].
  destruct (Hre Href) as [H1 | [H1 ->]]; [now left | right].
  split; [exact H1 | exact Hk].
Qed.

(* ================================================================== *)
(** ** The time of a snapshot *)
(* ================================================================== *)

Lemma children_not_above (anchor : QuadKey) (tiles' : list QuadKey) :
  queue_extends anchor [] tiles' ->
  forall c, In c tiles' -> is_prefix c anchor = false.
Proof.
  intros (extra & -> & Hinc & _ & _) c Hc. cbn [app] in Hc.
  apply Hinc, in_children in Hc. destruct Hc as [k ->].
  destruct (is_prefix (anchor ++ [k]) anchor) eqn:Hp; [| reflexivity].
  apply is_prefix_length in Hp. rewrite length_app in Hp. simpl in Hp. lia.
Qed.

(** X7.  For a site with one top tile, as the site of the program,
    the time [scrape] returns, which dates the rows that are saved, is
    the time requested or that time plus 30, 60, 90 or 120 seconds;
    when at least one event was collected it is at most 90 seconds
    after the time requested. *)
Theorem snapshot_time_in_window (E : Env) (fuel : nat) (site : Site)
    (anchor : QuadKey) (t0 : datetime) (w : World) (events : list Event)
    (t' : datetime) (w' : World) :
  top_tiles site = [anchor] ->
  scrape E fuel site t0 w = (Return (events, t'), w') ->
  exists k,
    (k <= 4)%nat
    /\ t' = shifted k t0
    /\ wall t' = wall t0 + 30 * Z.of_nat k
    /\ (events <> [] -> (k <= 3)%nat).
Proof.
  intros Htop H. unfold scrape in H. rewrite Htop in H.
  destruct fuel as [|fuel]; [discriminate |].
  rewrite scrape_loop_cons in H.
  destruct (fetch E (fetch_fuel t0 t0) site anchor t0 0 t0 w)
    as [[[r t1] | e |] w1] eqn:Hf; try discriminate.
  apply fetch_result in Hf.
  destruct Hf as [Hr (k & Hk & _ & Hok & Hre & Hle)].
  assert (Hw : wall t1 = wall t0 + 30 * Z.of_nat k)
    by (rewrite Hk, wall_shifted; reflexivity).
  assert (H4 : (k <= 4)%nat).
  { rewrite dt_sub_diag in Hle. unfold dt_sub, subquery_time_max_dist,
      subquery_time_increment in Hle. lia. }
  assert (H3 : ok r = true -> (k <= 3)%nat).
  { intros Ho. destruct (Hok Ho) as [-> | Hb]; [lia |].
    unfold dt_sub, subquery_time_max_dist in Hb. lia. }
  destruct (ok r) eqn:Ho; cbn [negb] in H.
  - destruct (file_data r) as [outages |]; cbn [res_bind] in H; [| discriminate].
    destruct (for_each (process_outage E anchor) outages ([], []))
      as [[ev tl] | e] eqn:Hfe; [| discriminate].
    apply for_each_queue in Hfe.
    destruct (scrape_loop_time_fixed E site anchor [] Htop t0 t1 fuel tl ev w1
                (children_not_above anchor tl Hfe)) as (j & _ & _ & Hret).
    rewrite H in Hret. specialize (Hret events t' eq_refl). subst t'.
    exists k. auto.
  - assert (He : events = [] /\ t' = t1).
    { destruct fuel; simpl in H; injection H as <- <- _; auto. }
    destruct He as [-> ->]. exists k.
    split; [assumption |]. split; [assumption |]. split; [assumption |].
    intros Hne. now exfalso.
Qed.

(* ================================================================== *)
(** ** Where the requests go *)
(* ================================================================== *)

Lemma fetch_requests_site (E : Env) (site : Site) (tile : QuadKey)
    (t0 : datetime) (fuel tries : nat) (t : datetime) (w : World) :
  exists j,
    journal (snd (fetch E fuel site tile t0 tries t w)) = journal w ++ j
    /\ Forall (fun url =>
                 req_root url = url_root site /\ req_tile url = tile
                 /\ exists k, req_time url = wall t + 30 * Z.of_nat k)
         (requests_of j).
Proof.
  revert tries t w. induction fuel as [|fuel IH]; intros tries t w.
  - exists []. simpl. rewrite app_nil_r. auto.
  - assert (Hurl : req_root (request_url site t tile) = url_root site
                   /\ req_tile (request_url site t tile) = tile
                   /\ exists k, req_time (request_url site t tile)
                                = wall t + 30 * Z.of_nat k).
    { repeat split. exists 0%nat. cbn. lia. }
    assert (Hone : forall o : outcome (Response * datetime),
              exists j,
                journal (snd (o, after_get w (request_url site t tile)))
                = journal w ++ j
                /\ Forall (fun url =>
                             req_root url = url_root site /\ req_tile url = tile
                             /\ exists k, req_time url = wall t + 30 * Z.of_nat k)
                     (requests_of j)).
    { intros o. exists (got (n_requests w) (request_url site t tile)).
      rewrite requests_of_got. split; [reflexivity |]. now constructor. }
    rewrite fetch_S. cbv zeta.
    destruct (ok _); [apply Hone |].
    destruct (_ =? forbidden).
    + destruct (top_tiles site) as [|top0 rest]; [apply Hone |].
      destruct (quadkey_eqb tile top0); [| apply Hone].
      destruct (_ >? _); [apply Hone |].
      destruct (IH 0%nat (dt_add t subquery_time_increment)
                  (after_get w (request_url site t tile))) as (j & Hj & Hall).
      exists (got (n_requests w) (request_url site t tile) ++ j).
      rewrite Hj. cbn [after_get journal]. rewrite <- app_assoc.
      split; [reflexivity |]. rewrite requests_of_app, requests_of_got.
      constructor; [exact Hurl |].
      eapply Forall_impl; [| exact Hall].
      intros url (H1 & H2 & k & Hk). split; [assumption |].
      split; [assumption |]. exists (S k). rewrite Hk.
      unfold dt_add, subquery_time_increment. cbn [wall]. lia.
    + destruct (Nat.leb max_tries (S tries)); [apply Hone |].
      destruct (IH (S tries) t
                  (after_sleep (after_get w (request_url site t tile)) retry))
        as (j & Hj & Hall).
      exists (got (n_requests w) (request_url site t tile) ++ [Sleep retry] ++ j).
      rewrite Hj. cbn [after_sleep after_get journal]. rewrite <- !app_assoc.
      split; [reflexivity |]. rewrite !requests_of_app, requests_of_got.
      constructor; [exact Hurl | exact Hall].
Qed.

Lemma scrape_loop_requests_site (E : Env) (site : Site) (t0 : datetime)
    (fuel : nat) :
  forall tiles events t w,
    (forall c, In c tiles ->
               exists T, In T (top_tiles site) /\ is_prefix T c = true) ->
    (exists k, wall t = wall t0 + 30 * Z.of_nat k) ->
    exists j,
      journal (snd (scrape_loop E fuel site t0 tiles events t w)) = journal w ++ j
      /\ Forall (fun url =>
                   req_root url = url_root site
                   /\ (exists T, In T (top_tiles site)
                                 /\ is_prefix T (req_tile url) = true)
                   /\ exists k, req_time url = wall t0 + 30 * Z.of_nat k)
           (requests_of j).
Proof.
  induction fuel as [|fuel IH]; intros tiles events t w Hq [k0 Ht].
  - exists []. rewrite app_nil_r. destruct tiles; simpl; auto.
  - destruct tiles as [|tile tiles].
    { exists []. rewrite app_nil_r. simpl. auto. }
    destruct (fetch_requests_site E site tile t0 (fetch_fuel t0 t) 0 t w)
      as (j1 & Hj1 & Hall1).
    assert (Hall1' : Forall (fun url =>
                   req_root url = url_root site
                   /\ (exists T, In T (top_tiles site)
                                 /\ is_prefix T (req_tile url) = true)
                   /\ exists k, req_time url = wall t0 + 30 * Z.of_nat k)
           (requests_of j1)).
    { eapply Forall_impl; [| exact Hall1].
      intros url (H1 & H2 & k & Hk). split; [assumption |].
      split; [rewrite H2; apply Hq; now left |].
      exists (k0 + k)%nat. lia. }
    destruct (scrape_loop_step E fuel site t0 t tile tiles events w)
      as [(e & Hs & _) | (r & t' & ev & tl & Hf & Hext & Hs & _)].
    + rewrite Hs. cbn [snd]. eauto.
    + rewrite Hs.
      destruct (IH tl ev t' (snd (fetch E (fetch_fuel t0 t) site tile t0 0 t w)))
        as (j2 & Hj2 & Hall2).
      { destruct Hext as (extra & -> & Hinc & _ & _).
        intros c Hc. apply in_app_iff in Hc. destruct Hc as [Hc | Hc].
        - apply Hq. now right.
        - apply Hinc, in_children in Hc. destruct Hc as [q ->].
          destruct (Hq tile (or_introl eq_refl)) as (T & HT & Hp).
          exists T. split; [assumption |].
          apply is_prefix_iff in Hp. destruct Hp as [l ->].
          apply is_prefix_iff. exists (l ++ [q]). now rewrite app_assoc. }
      { apply fetch_result in Hf. destruct Hf as [_ (k & Hk & _)].
        exists (k0 + k)%nat. rewrite Hk, wall_shifted.
        unfold subquery_time_increment. lia. }
      exists (j1 ++ j2). rewrite Hj2, Hj1, <- app_assoc.
      split; [reflexivity |]. rewrite requests_of_app.
      apply Forall_app. auto.
Qed.

(** X8.  Every request of a snapshot, however the snapshot ends, goes
    to the root URL of the site, asks for a top tile of the site or
    for a tile below one, and carries the time requested or that time
    plus a whole number of 30-second steps, never an earlier time. *)
Theorem requests_stay_within_site (E : Env) (fuel : nat) (site : Site)
    (t : datetime) (w : World) :
  exists j,
    journal (snd (scrape E fuel site t w)) = journal w ++ j
    /\ Forall (fun url =>
                 req_root url = url_root site
                 /\ (exists T, In T (top_tiles site)
                               /\ is_prefix T (req_tile url) = true)
                 /\ exists k, req_time url = wall t + 30 * Z.of_nat k)
         (requests_of j).
Proof.
  unfold scrape. apply scrape_loop_requests_site.
  - intros c Hc. exists c. split; [assumption | apply is_prefix_refl].
  - exists 0%nat. lia.
Qed.

(* ================================================================== *)
(** ** Helpers *)
(* ================================================================== *)

Lemma str_list_eqb_eq (a b : list string) : str_list_eqb a b = true <-> a = b.
Proof.
  unfold str_list_eqb. destruct (list_eq_dec string_dec a b); split; congruence.
Qed.

Lemma val1_ok (x : pyval) (k : string) (v : pyval) :
  val1 x k = Ok v <-> x = PDict [(k, v)].
Proof.
  split.
  - destruct x as [| | | | |d]; try discriminate. unfold val1.
    destruct (str_list_eqb (keys d) [k]) eqn:He; [| discriminate].
    apply str_list_eqb_eq in He. cbn [assert res_bind getitem].
    destruct d as [|[k' v'] [|? ?]]; try discriminate.
    injection He as ->. cbn [assoc]. rewrite String.eqb_refl.
    intros H. now injection H as ->.
  - intros ->. unfold val1. cbn [keys map fst].
    replace (str_list_eqb [k] [k]) with true
      by (symmetry; now apply str_list_eqb_eq).
    cbn. now rewrite String.eqb_refl.
Qed.

(** X9.  [el1] returns the element of a one-element iterable and
    raises [ValueError] on an empty one and on one of two elements or
    more.  [val1] returns the value of the dictionary that has the
    given key and no other; on a dictionary with other keys, or with
    none, it raises [AssertionError] and never looks the key up. *)
Theorem helpers_accept_singletons (A : Type) (l : list A) (d : list (string * pyval))
    (k : string) :
  (forall a, el1 l = Ok a <-> l = [a])
  /\ (List.length l <> 1%nat -> el1 l = Raise ValueError)
  /\ (forall x v, val1 x k = Ok v <-> x = PDict [(k, v)])
  /\ (keys d <> [k] -> val1 (PDict d) k = Raise AssertionError).
Proof.
  split.
  { intros a. destruct l as [|x [|y l']]; simpl; split; congruence. }
  split.
  { destruct l as [|x [|y l']]; simpl; intros H; congruence. }
  split; [intros x v; apply val1_ok |].
  intros Hne. unfold val1.
  destruct (str_list_eqb (keys d) [k]) eqn:He; [| reflexivity].
  apply str_list_eqb_eq in He. contradiction.
Qed.

(* ================================================================== *)
(** ** The point of a record *)
(* ================================================================== *)

Lemma remove_key_idem (k : string) (d : list (string * pyval)) :
  remove_key k (remove_key k d) = remove_key k d.
Proof.
  induction d as [|[k' v] d IH]; simpl; [reflexivity |].
  destruct (String.eqb k k') eqn:He; [assumption |].
  simpl. now rewrite He, IH.
Qed.

Lemma decode_point_eq (E : Env) (outage : pyval) (g : list (string * pyval)) :
  getitem outage "geom" = Ok (PDict g) ->
  decode_point E outage =
  (v <- val1 (PDict (remove_key "a" g)) "p" ;;
   l <- iter v ;;
   s <- el1 l ;;
   b <- encode_ascii s ;;
   pts <- decode_polyline E b (polyline_precision E) ;;
   el1 pts)%res.
Proof. intros H. unfold decode_point. rewrite H. reflexivity. Qed.

(** X10.  The point of a record is read from its geometry: once the
    member ['a'] is set aside, the geometry must hold the member ['p']
    and no other, with one encoded path in it, an ASCII string that
    decodes to one point.  The member ['a'] makes no difference; any
    other member besides ['p'], or no ['p'], raises [AssertionError];
    no path or several paths, and a path of no point or of several,
    raise [ValueError]. *)
Theorem point_of_a_record (E : Env) (outage : pyval) (g : list (string * pyval)) :
  getitem outage "geom" = Ok (PDict g) ->
  (forall p,
     decode_point E outage = Ok p <->
     exists v s b,
       remove_key "a" g = [("p", v)]
       /\ iter v = Ok [s]
       /\ encode_ascii s = Ok b
       /\ decode_polyline E b (polyline_precision E) = Ok [p])
  /\ (forall outage',
        getitem outage' "geom" = Ok (PDict (remove_key "a" g)) ->
        decode_point E outage' = decode_point E outage)
  /\ (keys (remove_key "a" g) <> ["p"] ->
      decode_point E outage = Raise AssertionError)
  /\ (forall v l,
        remove_key "a" g = [("p", v)] -> iter v = Ok l ->
        List.length l <> 1%nat ->
        decode_point E outage = Raise ValueError)
  /\ (forall v s b pts,
        remove_key "a" g = [("p", v)] -> iter v = Ok [s] ->
        encode_ascii s = Ok b ->
        decode_polyline E b (polyline_precision E) = Ok pts ->
        List.length pts <> 1%nat ->
        decode_point E outage = Raise ValueError).
Proof.
  intros Hg. rewrite (decode_point_eq E outage g Hg).
  split.
  { intros p. split.
    - intros H.
      destruct (val1 (PDict (remove_key "a" g)) "p") as [v |] eqn:Hv;
        [| discriminate].
      apply val1_ok in Hv. injection Hv as Hv. cbn [res_bind] in H.
      destruct (iter v) as [l |] eqn:Hl; [| discriminate]. cbn [res_bind] in H.
      destruct l as [|s [|s' l']]; try discriminate. cbn [el1 res_bind] in H.
      destruct (encode_ascii s) as [b |] eqn:Hb; [| discriminate].
      cbn [res_bind] in H.
      destruct (decode_polyline E b (polyline_precision E)) as [pts |] eqn:Hd;
        [| discriminate].
      cbn [res_bind] in H.
      destruct pts as [|q [|q' pts']]; try discriminate.
      injection H as ->. exists v, s, b. auto.
    - intros (v & s & b & Hr & Hl & Hb & Hd).
      rewrite Hr. replace (val1 (PDict [("p", v)]) "p") with (Ok v)
        by (symmetry; now apply val1_ok).
      cbn [res_bind]. rewrite Hl. cbn [el1 res_bind]. rewrite Hb.
      cbn [res_bind]. rewrite Hd. reflexivity. }
  split.
  { intros outage' Hg'. rewrite (decode_point_eq E outage' _ Hg').
    now rewrite remove_key_idem. }
  split.
  { intros Hk. unfold val1.
    destruct (str_list_eqb (keys (remove_key "a" g)) ["p"]) eqn:He;
      [| reflexivity].
    apply str_list_eqb_eq in He. contradiction. }
  split.
  { intros v l Hr Hl Hn. rewrite Hr.
    replace (val1 (PDict [("p", v)]) "p") with (Ok v)
      by (symmetry; now apply val1_ok).
    cbn [res_bind]. rewrite Hl. cbn [res_bind].
    destruct l as [|s [|s' l']]; simpl in *; congruence. }
  intros v s b pts Hr Hl Hb Hd Hn. rewrite Hr.
  replace (val1 (PDict [("p", v)]) "p") with (Ok v)
    by (symmetry; now apply val1_ok).
  cbn [res_bind]. rewrite Hl. cbn [el1 res_bind]. rewrite Hb.
  cbn [res_bind]. rewrite Hd. cbn [res_bind].
  destruct pts as [|q [|q' pts']]; simpl in *; congruence.
Qed.

(* ================================================================== *)
(** ** Records of one event *)
(* ================================================================== *)

Lemma insert_sorted_In (x s : string) (l : list string) :
  In x (insert_sorted s l) <-> x = s \/ In x l.
Proof.
  induction l as [|y l IH]; simpl; [intuition congruence |].
  destruct (String.leb s y); simpl; [intuition congruence |].
  rewrite IH. intuition congruence.
Qed.

Lemma sorted_In (x : string) (l : list string) : In x (sorted l) <-> In x l.
Proof.
  unfold sorted. induction l as [|y l IH]; simpl; [tauto |].
  rewrite insert_sorted_In, IH. intuition congruence.
Qed.

Lemma py_eq_str_eq (v : pyval) (s : string) :
  py_eq_str v s = true <-> v = PStr s.
Proof.
  unfold py_eq_str. destruct v; cbn [py_eqb]; try (split; congruence).
  rewrite String.eqb_eq. split; congruence.
Qed.

(** X11.  A record that is not a cluster gives one event, the point of
    the record with the index 1 and the description, and leaves the
    queue alone; it is accepted exactly when its keys are ['desc'],
    ['geom'], ['id'] and ['title'], its title is ['Outage
    Information'] and the ['outages'] of its description is [None].
    A record that fails one of the three checks raises
    [AssertionError]; a description without ['outages'] raises
    [KeyError]. *)
Theorem single_event_is_checked (E : Env) (tile : QuadKey)
    (events : list Event) (tiles : list QuadKey) (outage : pyval)
    (p : Q * Q) (desc cluster : pyval) :
  decode_point E outage = Ok p ->
  getitem outage "desc" = Ok desc ->
  getitem desc "cluster" = Ok cluster ->
  truthy cluster = false ->
  let accepted :=
    sorted_keys outage = Ok ["desc"; "geom"; "id"; "title"]
    /\ getitem outage "title" = Ok (PStr "Outage Information")
    /\ getitem desc "outages" = Ok PNone in
  (accepted ->
   process_outage E tile (events, tiles) outage
   = Ok (events ++ [(p, 1, desc)], tiles))
  /\ (forall st', process_outage E tile (events, tiles) outage = Ok st' ->
                  accepted /\ st' = (events ++ [(p, 1, desc)], tiles))
  /\ (forall e, process_outage E tile (events, tiles) outage = Raise e ->
                e = AssertionError
                \/ (e = KeyError /\ getitem desc "outages" = Raise KeyError)).
Proof.
  intros Hp Hd Hc Ht accepted.
  assert (Hstep : process_outage E tile (events, tiles) outage =
    (ks <- sorted_keys outage ;;
     _ <- assert (str_list_eqb ks ["desc"; "geom"; "id"; "title"]) ;;
     title <- getitem outage "title" ;;
     _ <- assert (py_eq_str title "Outage Information") ;;
     sub <- getitem desc "outages" ;;
     _ <- assert (match sub with PNone => true | _ => false end) ;;
     Ok (events ++ [(p, 1, desc)], tiles))%res).
  { unfold process_outage. rewrite Hp. cbn [res_bind]. rewrite Hd.
    cbn [res_bind]. rewrite Hc. cbn [res_bind]. rewrite Ht. reflexivity. }
  rewrite Hstep. clear Hstep.
  destruct outage as [| | | | |o]; try discriminate.
  destruct desc as [| | | | |dd]; try discriminate.
  cbn [sorted_keys res_bind].
  split.
  { intros (Hk & Hti & Hs). cbn [sorted_keys] in Hk. injection Hk as ->.
    rewrite Hti, Hs. reflexivity. }
  destruct (str_list_eqb (sorted (keys o)) ["desc"; "geom"; "id"; "title"])
    eqn:Hk; cbn [assert res_bind].
  2:{ split; [discriminate |]. intros e H. injection H as <-. now left. }
  apply str_list_eqb_eq in Hk.
  assert (Hin : In "title" (keys o)).
  { apply sorted_In. rewrite Hk. simpl. auto. }
  destruct (assoc "title" o) as [title |] eqn:Hti.
  2:{ apply assoc_none_iff in Hti. contradiction. }
  unfold getitem at 1 3. rewrite Hti. cbn [res_bind].
  destruct (py_eq_str title "Outage Information") eqn:Hte; cbn [assert res_bind].
  2:{ split; [discriminate |]. intros e H. injection H as <-. now left. }
  apply py_eq_str_eq in Hte. subst title.
  unfold getitem.
  destruct (assoc "outages" dd) as [sub |] eqn:Hsub; cbn [res_bind].
  2:{ split; [discriminate |]. intros e H. injection H as <-. right. auto. }
  destruct sub; cbn [assert res_bind];
    try (split; [discriminate | intros e H; injection H as <-; now left]).
  split; [| discriminate].
  intros st' H. injection H as <-. split; [| reflexivity].
  unfold accepted. cbn [sorted_keys]. rewrite Hk. unfold getitem.
  rewrite Hti, Hsub. auto.
Qed.

(* ================================================================== *)
(** ** The constraints of the schema *)
(* ================================================================== *)

Lemma keys_unique_snoc (rows : list Row) (row : Row) :
  keys_unique rows ->
  existsb (same_key row) rows = false ->
  keys_unique (rows ++ [row]).
Proof.
  unfold keys_unique. intros Hu Hn.
  assert (Hall : Forall (fun a => same_key row a = false) rows).
  { apply Forall_forall. intros a Ha.
    destruct (same_key row a) eqn:Hs; [| reflexivity].
    assert (existsb (same_key row) rows = true); [| congruence].
    apply existsb_exists. eauto. }
  clear Hn. induction Hu as [|a l Ha Hu IH].
  - repeat constructor.
  - cbn [app]. inversion Hall as [|? ? Hra Hrl]; subst.
    constructor; [| now apply IH].
    apply Forall_app. split; [assumption | now constructor].
Qed.

Lemma insert_event_ok (E : Env) (enumeration : list (string * list (Z * string)))
    (rows rows' : list Row) (row : Row) :
  insert_event E enumeration rows row = Ok rows' ->
  rows' = rows ++ [row]
  /\ existsb (same_key row) rows = false
  /\ refers E enumeration row = true
  /\ (exists v, assoc "cust_a" row = Some v /\ v <> PNone).
Proof.
  unfold insert_event, refers. intros H.
  destruct (forallb (fun kv => bindable (snd kv)) row); [| discriminate].
  cbn [res_bind] in H.
  destruct (assoc "cust_a" row) as [v |] eqn:Hc; [| discriminate].
  assert (Hv : v <> PNone) by (intros ->; discriminate).
  replace (match v with PNone => Raise IntegrityError | _ => Ok tt end)
    with (@Ok unit tt) in H by (destruct v; congruence).
  cbn [res_bind] in H.
  destruct (existsb (same_key row) rows); [discriminate |].
  cbn [res_bind] in H.
  match type of H with
  | res_bind (if ?b then _ else _) _ = _ => destruct b; [| discriminate]
  end.
  cbn [res_bind] in H. injection H as <-. eauto 6.
Qed.

Lemma insert_events_ok (E : Env) (enumeration : list (string * list (Z * string)))
    (out rows rows' : list Row) :
  for_each (insert_event E enumeration) out rows = Ok rows' ->
  (keys_unique rows -> keys_unique rows')
  /\ Forall (fun row => refers E enumeration row = true
                        /\ exists v, assoc "cust_a" row = Some v /\ v <> PNone)
       out.
Proof.
  revert rows. induction out as [|d out IH]; intros rows H.
  - simpl in H. injection H as <-. auto.
  - cbn [for_each] in H.
    destruct (insert_event E enumeration rows d) as [rows1 |] eqn:Hins;
      [| discriminate].
    cbn [res_bind] in H. apply insert_event_ok in Hins.
    destruct Hins as (-> & Hn & Hr & Hc).
    apply IH in H. destruct H as [Hu Hall]. split.
    + intros Hu0. apply Hu. now apply keys_unique_snoc.
    + constructor; auto.
Qed.

Lemma references_app (rows more : list (Z * string)) (v : pyval) :
  references rows v = true -> references (rows ++ more) v = true.
Proof.
  destruct v; simpl; try congruence; rewrite existsb_app; intros ->; reflexivity.
Qed.

Lemma refers_grows (E : Env) (t t' : list (string * list (Z * string)))
    (row : Row) :
  (forall ec rows, assoc ec t = Some rows ->
     exists more, assoc ec t' = Some (rows ++ more)) ->
  refers E t row = true -> refers E t' row = true.
Proof.
  intros Hext. unfold refers. rewrite !forallb_forall.
  intros H ec Hec. specialize (H ec Hec).
  destruct (assoc ec row) as [v |]; [| discriminate].
  destruct (assoc ec t) as [rows |] eqn:Ht; [| discriminate].
  destruct (Hext ec rows Ht) as [more ->]. now apply references_app.
Qed.

(** What one turn of the loop of [save] does, when it succeeds. *)
Lemma save_event_ok (E : Env) (site : Site) (t : datetime) (enums en' : Enums)
    (out out' : list Row) (p : Q * Q) (ix : Z) (desc : pyval) :
  save_event E site t (enums, out) (p, ix, desc) = Ok (en', out') ->
  exists desc' d,
    sorted_keys desc = Ok desc_keys
    /\ for_each normalize_col (enum_cols E) (desc, enums) = Ok (desc', en')
    /\ make_row E site t p ix desc' en' = Ok d
    /\ out' = if existsb (fun d' => py_eqb (PDict d') (PDict d)) out
              then out else out ++ [d].
Proof.
  unfold save_event. intros H.
  destruct (sorted_keys desc) as [ks |] eqn:Hs; [| discriminate].
  cbn [res_bind] in H.
  destruct (str_list_eqb ks desc_keys) eqn:Hk; [| discriminate].
  apply str_list_eqb_eq in Hk. subst ks. cbn [assert res_bind] in H.
  destruct (for_each normalize_col (enum_cols E) (desc, enums))
    as [[desc' en1] |] eqn:Hn; [| discriminate].
  cbn [res_bind] in H.
  destruct (make_row E site t p ix desc' en1) as [d |] eqn:Hd; [| discriminate].
  cbn [res_bind] in H. injection H as <- <-.
  exists desc', d. auto.
Qed.

(** X12.  A [save] that succeeds keeps the constraints of the schema.
    If no two rows of [Events] had the same primary key and every
    value of an enumerated column was null or a code of the table of
    its column, the same holds afterwards, of the old rows, whose
    codes are still in the tables, and of the new ones; and every new
    row has a customer count that is not null. *)
Theorem save_keeps_constraints (E : Env) (site : Site) (events : list Event)
    (t : datetime) (enums enums' : Enums) (db db' : Db) :
  save E site events t (enums, db) = Ok (enums', db') ->
  (constraints_hold E db -> constraints_hold E db')
  /\ exists out,
       Events db' = Events db ++ out
       /\ (List.length out <= List.length events)%nat
       /\ Forall (fun row =>
                    refers E (Enumeration db') row = true
                    /\ exists v, assoc "cust_a" row = Some v /\ v <> PNone) out.
Proof.
  intros H. pose proof (save_grows _ _ _ _ _ _ _ _ H) as (_ & _ & _ & Hext).
  unfold save in H. destruct events as [|ev events].
  - injection H as _ <-. split; [auto |]. exists [].
    rewrite app_nil_r. auto.
  - destruct (for_each (save_event E site t) (ev :: events) (enums, []))
      as [[en out] |] eqn:Hout; [| discriminate].
    cbn [res_bind] in H.
    destruct (persist_enums E en (Enumeration db)) as [enumeration |] eqn:Hp;
      [| discriminate].
    cbn [res_bind] in H.
    destruct (for_each (insert_event E enumeration) out (Events db))
      as [rows |] eqn:Hrows; [| discriminate].
    cbn [res_bind] in H. injection H as _ <-. cbn [Events Enumeration] in *.
    pose proof (insert_events_app _ _ _ _ _ Hrows) as Happ.
    apply insert_events_ok in Hrows. destruct Hrows as [Hu Hnew].
    split.
    + intros [Hk Hfk]. split; cbn [Events Enumeration]; [now apply Hu |].
      rewrite Happ. apply Forall_app. split.
      * eapply Forall_impl; [| exact Hfk]. intros row. now apply refers_grows.
      * eapply Forall_impl; [| exact Hnew]. now intros row [Hr _].
    + exists out. split; [assumption |]. split; [| assumption].
      clear - Hout.
      assert (G : forall evs enums0 out0 en1 out1,
                for_each (save_event E site t) evs (enums0, out0) = Ok (en1, out1) ->
                (List.length out1 <= List.length out0 + List.length evs)%nat).
      { induction evs as [|e evs IH]; intros enums0 out0 en1 out1 H.
        - simpl in H. injection H as _ <-. simpl. lia.
        - cbn [for_each] in H.
          destruct (save_event E site t (enums0, out0) e) as [[en2 out2] |] eqn:He;
            [| discriminate].
          cbn [res_bind] in H. apply IH in H.
          assert (List.length out2 <= S (List.length out0))%nat.
          { destruct e as [[p ix] desc]. apply save_event_ok in He.
            destruct He as (desc' & d & _ & _ & _ & ->).
            match goal with
            | |- context [if ?b then _ else _] => destruct b
            end; rewrite ?length_app; simpl; lia. }
          simpl. lia. }
      apply G in Hout. simpl in *. lia.
Qed.

(* ================================================================== *)
(** ** The empty string in an enumerated column *)
(* ================================================================== *)

(** Two equal dictionaries have equal values at a key of the first. *)
Lemma py_eqb_dict_assoc (d1 d2 : list (string * pyval)) (k : string) (v1 : pyval) :
  py_eqb (PDict d1) (PDict d2) = true ->
  assoc k d1 = Some v1 ->
  exists v2, assoc k d2 = Some v2 /\ py_eqb v1 v2 = true.
Proof.
  intros H. cbn [py_eqb] in H. apply andb_true_iff in H. destruct H as [_ H].
  revert H. induction d1 as [|[k1 w1] d1 IH]; intros H Ha; [discriminate |].
  simpl in H. apply andb_true_iff in H. destruct H as [Hf Hrest].
  cbn [assoc] in Ha. destruct (String.eqb k k1) eqn:He; [| now apply IH].
  apply String.eqb_eq in He. subst k1. injection Ha as ->.
  clear - Hf. induction d2 as [|[k2 w2] d2 IH]; [discriminate |].
  simpl in Hf. cbn [assoc]. destruct (String.eqb k k2); eauto.
Qed.

Lemma references_not_text (rows : list (Z * string)) (s : string) :
  references rows (PStr s) = false.
Proof. reflexivity. Qed.

(** The rows [save] makes hold every enumerated column, and the row of
    an event with an empty string holds it, or an equal row does. *)
Lemma save_events_empty (E : Env) (site : Site) (t : datetime) (ec : string) :
  In ec (enum_cols E) ->
  forall events enums out en' out',
    for_each (save_event E site t) events (enums, out) = Ok (en', out') ->
    (forall row, In row out -> exists c, assoc ec row = Some c) ->
    (forall row, In row out' -> exists c, assoc ec row = Some c)
    /\ (forall row, In row out -> In row out')
    /\ forall p ix d,
         In (p, ix, PDict d) events -> assoc ec d = Some (PStr "") ->
         exists row, In row out' /\ assoc ec row = Some (PStr "").
Proof.
  intros Hec. induction events as [|ev events IH]; intros enums out en' out' H Hout.
  - simpl in H. injection H as _ <-. split; [assumption |].
    split; [auto |]. intros p ix d [].
  - cbn [for_each] in H.
    destruct (save_event E site t (enums, out) ev) as [[en1 out1] |] eqn:Hev;
      [| discriminate].
    cbn [res_bind] in H. destruct ev as [[p0 ix0] desc0].
    apply save_event_ok in Hev.
    destruct Hev as (desc' & row0 & Hk & Hn & Hrow & Hout1).
    destruct (make_row_cell _ _ _ _ _ _ _ _ _ Hrow Hec) as (c0 & Hc0 & Ha0).
    assert (Hout1' : forall row, In row out1 -> exists c, assoc ec row = Some c).
    { intros row Hr. rewrite Hout1 in Hr.
      match type of Hr with
      | context [if ?b then _ else _] => destruct b
      end; [now apply Hout |].
      apply in_app_iff in Hr. destruct Hr as [Hr | [<- | []]]; eauto. }
    assert (Hsub : forall row, In row out -> In row out1).
    { intros row Hr. rewrite Hout1.
      match goal with
      | |- context [if ?b then _ else _] => destruct b
      end; [assumption |].
      apply in_app_iff. now left. }
    destruct (IH _ _ _ _ H Hout1') as (H1 & H2 & H3).
    split; [assumption |]. split; [auto |].
    intros p ix d [Heq | Hin] Hd; [| eauto].
    injection Heq as -> -> ->.
    destruct (normalize_cols_dict _ _ _ _ _ Hn (ex_intro _ d eq_refl)) as [d' ->].
    destruct (normalize_cols_empty _ _ _ _ _ _ Hd Hn) as [Hd' _].
    assert (Hrow0 : assoc ec row0 = Some (PStr "")).
    { unfold enum_cell, getitem in Hc0. rewrite Hd' in Hc0. simpl in Hc0.
      congruence. }
    destruct (existsb (fun d' => py_eqb (PDict d') (PDict row0)) out) eqn:Hex.
    + apply existsb_exists in Hex. destruct Hex as (r1 & Hr1 & Heq1).
      destruct (Hout r1 Hr1) as [c1 Hc1].
      destruct (py_eqb_dict_assoc _ _ _ _ Heq1 Hc1) as (v2 & Hv2 & Hpe).
      rewrite Hrow0 in Hv2. injection Hv2 as <-.
      apply (proj1 (py_eq_str_eq c1 "")) in Hpe. subst c1.
      exists r1. split; [apply H2; now apply Hsub | assumption].
    + exists row0. split; [| assumption]. apply H2. rewrite Hout1.
      apply in_app_iff. right. now left.
Qed.

(** X13.  An event that has the empty string in an enumerated column
    cannot be saved.  The row made for it holds the empty string in
    that column, which is neither null nor a code of the table, so the
    insertion of the row, when nothing else fails before, breaks the
    foreign key of the column: [save] raises, for the whole snapshot. *)
Theorem empty_string_is_refused (E : Env) (site : Site) (events : list Event)
    (t : datetime) (st : Enums * Db) (p : Q * Q) (ix : Z)
    (d : list (string * pyval)) (ec : string) :
  In (p, ix, PDict d) events ->
  In ec (enum_cols E) ->
  assoc ec d = Some (PStr "") ->
  (exists e, save E site events t st = Raise e)
  /\ forall enumeration rows row,
       assoc ec row = Some (PStr "") ->
       insert_event E enumeration rows row = Raise IntegrityError
       \/ insert_event E enumeration rows row = Raise InterfaceError.
Proof.
  intros Hin Hec Hd. split.
  - destruct (save E site events t st) as [[enums' db'] | e] eqn:H; [| eauto].
    exfalso. destruct st as [enums db]. unfold save in H.
    destruct events as [|ev events]; [destruct Hin |].
    destruct (for_each (save_event E site t) (ev :: events) (enums, []))
      as [[en out] |] eqn:Hout; [| discriminate].
    cbn [res_bind] in H.
    destruct (persist_enums E en (Enumeration db)) as [enumeration |];
      [| discriminate].
    cbn [res_bind] in H.
    destruct (for_each (insert_event E enumeration) out (Events db))
      as [rows |] eqn:Hrows; [| discriminate].
    apply insert_events_ok in Hrows. destruct Hrows as [_ Hall].
    destruct (save_events_empty E site t ec Hec _ _ _ _ _ Hout) as (_ & _ & Hex).
    { intros row []. }
    destruct (Hex p ix d Hin Hd) as (row & Hrow & Ha).
    rewrite Forall_forall in Hall. destruct (Hall row Hrow) as [Hr _].
    unfold refers in Hr. rewrite forallb_forall in Hr.
    specialize (Hr ec Hec). rewrite Ha in Hr.
    destruct (assoc ec enumeration); discriminate.
  - intros enumeration rows row Ha. unfold insert_event.
    destruct (forallb (fun kv => bindable (snd kv)) row); [| now right].
    cbn [res_bind]. left.
    destruct (assoc "cust_a" row) as [[]|]; try reflexivity; cbn [res_bind];
      (destruct (existsb (same_key row) rows); [reflexivity |]; cbn [res_bind];
       replace (forallb _ (enum_cols E)) with false; [reflexivity |];
       symmetry; apply not_true_is_false; intros Hf;
       rewrite forallb_forall in Hf; specialize (Hf ec Hec);
       rewrite Ha in Hf; destruct (assoc ec enumeration); discriminate).
Qed.

(* ================================================================== *)
(** ** The mirror at startup *)
(* ================================================================== *)

Lemma init_db_load_all (E : Env) (db : Db) :
  init_db E db = load_all (enum_cols E) (Enumeration db) [].
Proof. reflexivity. Qed.

Lemma load_all_cons (c : string) (cols : list string)
    (T : list (string * list (Z * string))) (acc : Enums) :
  load_all (c :: cols) T acc =
  match assoc c T with
  | Some rows => load_all cols T (assoc_set c (load_enum rows) acc)
  | None => Raise OperationalError
  end.
Proof.
  unfold load_all. cbn [for_each]. unfold table at 1.
  destruct (assoc c T); reflexivity.
Qed.

Lemma load_all_values (cols : list string) (T : list (string * list (Z * string))) :
  forall acc r,
    load_all cols T acc = Ok r ->
    (forall ec, In ec cols ->
       exists rows, assoc ec T = Some rows /\ assoc ec r = Some (load_enum rows))
    /\ (forall k, ~ In k cols -> assoc k r = assoc k acc).
Proof.
  induction cols as [|c cols IH]; intros acc r H.
  - unfold load_all in H. simpl in H. injection H as <-.
    split; [intros ec [] | reflexivity].
  - rewrite load_all_cons in H.
    destruct (assoc c T) as [rows |] eqn:Hc; [| discriminate].
    destruct (IH _ _ H) as [H1 H2]. split.
    + intros ec Hin. destruct (in_dec string_dec ec cols) as [Hi | Hni]; [auto |].
      destruct Hin as [-> | Hin]; [| contradiction].
      exists rows. split; [assumption |].
      rewrite (H2 _ Hni). apply assoc_set_same.
    + intros k Hk. simpl in Hk. rewrite H2 by tauto.
      apply assoc_set_other. intros ->. tauto.
Qed.

Lemma load_all_raise (cols : list string) (T : list (string * list (Z * string))) :
  forall acc e,
    load_all cols T acc = Raise e ->
    e = OperationalError /\ exists ec, In ec cols /\ assoc ec T = None.
Proof.
  induction cols as [|c cols IH]; intros acc e H.
  - discriminate.
  - rewrite load_all_cons in H.
    destruct (assoc c T) as [rows |] eqn:Hc.
    + apply IH in H. destruct H as [-> (ec & Hin & Hn)].
      split; [reflexivity |]. exists ec. split; [now right | assumption].
    + injection H as <-. split; [reflexivity |]. exists c. split; [now left | assumption].
Qed.

Lemma assoc_set_keys_new {A} (k : string) (v : A) (l : list (string * A)) :
  assoc k l = None -> map fst (assoc_set k v l) = map fst l ++ [k].
Proof.
  induction l as [|[k' v'] l IH]; simpl; [reflexivity |].
  destruct (String.eqb k k') eqn:He; [discriminate |].
  intros H. simpl. now rewrite IH.
Qed.

Lemma assoc_set_keys_eq {A B} (k : string) (v : A) (v' : B)
    (a : list (string * A)) (b : list (string * B)) :
  map fst a = map fst b ->
  map fst (assoc_set k v a) = map fst (assoc_set k v' b).
Proof.
  revert b. induction a as [|[ka va] a IH]; intros [|[kb vb] b] H;
    try discriminate; [reflexivity |].
  simpl in H. injection H as -> H. simpl.
  destruct (String.eqb k kb); simpl; [now rewrite H |].
  now rewrite (IH b H).
Qed.

Lemma load_all_keys (cols : list string)
    (T1 T2 : list (string * list (Z * string))) :
  forall acc1 acc2 r1 r2,
    load_all cols T1 acc1 = Ok r1 ->
    load_all cols T2 acc2 = Ok r2 ->
    map fst acc1 = map fst acc2 ->
    map fst r1 = map fst r2.
Proof.
  induction cols as [|c cols IH]; intros acc1 acc2 r1 r2 H1 H2 Hk.
  - unfold load_all in *. simpl in *. congruence.
  - rewrite load_all_cons in H1, H2.
    destruct (assoc c T1); [| discriminate].
    destruct (assoc c T2); [| discriminate].
    eapply IH; eauto. now apply assoc_set_keys_eq.
Qed.

Lemma load_all_NoDup (cols : list string) (T : list (string * list (Z * string))) :
  forall acc r,
    load_all cols T acc = Ok r ->
    NoDup (map fst acc) ->
    NoDup (map fst r)
    /\ forall k, In k (map fst r) <-> In k (map fst acc) \/ In k cols.
Proof.
  induction cols as [|c cols IH]; intros acc r H Hnd.
  - unfold load_all in H. simpl in H. injection H as <-.
    split; [assumption |]. intros k. simpl. tauto.
  - rewrite load_all_cons in H.
    destruct (assoc c T) as [rows |]; [| discriminate].
    assert (Hkeys : NoDup (map fst (assoc_set c (load_enum rows) acc))
                    /\ forall k, In k (map fst (assoc_set c (load_enum rows) acc))
                                 <-> In k (map fst acc) \/ k = c).
    { destruct (assoc c acc) as [e0 |] eqn:Ha.
      - rewrite (assoc_set_keys _ _ _ _ Ha). split; [assumption |].
        intros k. split; [auto |]. intros [Hk | ->]; [assumption |].
        eapply assoc_keys; eauto.
      - rewrite (assoc_set_keys_new _ _ _ Ha). split.
        + apply NoDup_app; [assumption | repeat constructor; intros [] |].
          intros x Hx [<- | []]. now apply assoc_none_iff in Ha.
        + intros k. rewrite in_app_iff. simpl. intuition. }
    destruct Hkeys as [Hnd' Hin'].
    destruct (IH _ _ H Hnd') as [H1 H2]. split; [assumption |].
    intros k. rewrite H2, Hin'. simpl. intuition.
Qed.

Lemma load_all_total (cols : list string) (T : list (string * list (Z * string))) :
  (forall ec, In ec cols -> exists rows, assoc ec T = Some rows) ->
  forall acc, exists r, load_all cols T acc = Ok r.
Proof.
  induction cols as [|c cols IH]; intros Hall acc.
  - eexists. reflexivity.
  - rewrite load_all_cons. destruct (Hall c (or_introl eq_refl)) as [rows ->].
    apply IH. intros ec Hin. apply Hall. now right.
Qed.

(** Two dictionaries with the same keys in the same order, each once,
    and the same value at each key, are the same. *)
Lemma assoc_ext {A} (l1 l2 : list (string * A)) :
  NoDup (map fst l1) ->
  map fst l1 = map fst l2 ->
  (forall k, In k (map fst l1) -> assoc k l1 = assoc k l2) ->
  l1 = l2.
Proof.
  revert l2. induction l1 as [|[k v] l1 IH]; intros [|[k' v'] l2] Hnd Hk Ha;
    try discriminate; [reflexivity |].
  simpl in Hk. injection Hk as <- Hk.
  inversion Hnd as [|? ? Hnk Hnd']; subst.
  pose proof (Ha k (or_introl eq_refl)) as H0. simpl in H0.
  rewrite String.eqb_refl in H0. injection H0 as <-.
  f_equal. apply IH; [assumption | assumption |].
  intros k0 Hk0. specialize (Ha k0 (or_intror Hk0)). simpl in Ha.
  destruct (String.eqb k0 k) eqn:He; [| assumption].
  apply String.eqb_eq in He. subst. contradiction.
Qed.

(** *** Looking a meaning up in the mirror of a table *)

Lemma enum_lookup_set_text (a b : string) (c : Z) (e : Enum) :
  Forall (fun kc => exists m, fst kc = PStr m) e ->
  enum_lookup (PStr a) (enum_set (PStr b) c e)
  = if String.eqb a b then Some c else enum_lookup (PStr a) e.
Proof.
  induction e as [|[k c'] e IH]; intros Hall.
  - cbn [enum_set enum_lookup py_eqb]. reflexivity.
  - inversion Hall as [|? ? [m Hm] Hall']; subst. cbn [fst] in Hm. subst k.
    cbn [enum_set py_eqb].
    destruct (String.eqb b m) eqn:Hbm.
    + apply String.eqb_eq in Hbm. subst m. cbn [enum_lookup py_eqb].
      destruct (String.eqb a b); reflexivity.
    + cbn [enum_lookup py_eqb]. rewrite (IH Hall').
      destruct (String.eqb a m) eqn:Ham; [| reflexivity].
      apply String.eqb_eq in Ham. subst m.
      rewrite String.eqb_sym in Hbm. now rewrite Hbm.
Qed.

Lemma enum_set_text (b : string) (c : Z) (e : Enum) :
  Forall (fun kc => exists m, fst kc = PStr m) e ->
  Forall (fun kc => exists m, fst kc = PStr m) (enum_set (PStr b) c e).
Proof.
  induction e as [|[k c'] e IH]; intros Hall.
  - constructor; [exists b; reflexivity | constructor].
  - inversion Hall as [|? ? Hk Hall']; subst. cbn [enum_set].
    destruct (py_eqb (PStr b) k); constructor; auto.
Qed.

Lemma load_enum_snoc (rows : list (Z * string)) (c : Z) (m : string) :
  load_enum (rows ++ [(c, m)]) = enum_set (PStr m) c (load_enum rows).
Proof. unfold load_enum. now rewrite fold_left_app. Qed.

Lemma load_enum_text (rows : list (Z * string)) :
  Forall (fun kc => exists m, fst kc = PStr m) (load_enum rows).
Proof.
  induction rows as [|[c m] rows IH] using rev_ind; [constructor |].
  rewrite load_enum_snoc. now apply enum_set_text.
Qed.

Lemma load_enum_lookup (rows : list (Z * string)) :
  (forall c m, enum_lookup (PStr m) (load_enum rows) = Some c -> In (c, m) rows)
  /\ (NoDup (map snd rows) ->
      forall c m, In (c, m) rows -> enum_lookup (PStr m) (load_enum rows) = Some c).
Proof.
  induction rows as [|[c0 m0] rows [IH1 IH2]] using rev_ind.
  - split; [discriminate | intros _ c m []].
  - rewrite load_enum_snoc. split.
    + intros c m. rewrite enum_lookup_set_text by apply load_enum_text.
      rewrite in_app_iff. destruct (String.eqb m m0) eqn:He.
      * apply String.eqb_eq in He. subst. intros H. injection H as <-.
        right. now left.
      * intros H. left. now apply IH1.
    + rewrite map_app. cbn [map snd]. intros Hnd.
      apply NoDup_snoc in Hnd. destruct Hnd as [Hnd Hm0].
      intros c m Hin. rewrite enum_lookup_set_text by apply load_enum_text.
      apply in_app_iff in Hin. destruct Hin as [Hin | [Heq | []]].
      * destruct (String.eqb m m0) eqn:He; [| now apply IH2].
        apply String.eqb_eq in He. subst. exfalso. apply Hm0.
        apply in_map_iff. exists (c, m0). auto.
      * injection Heq as <- <-. now rewrite String.eqb_refl.
Qed.

(** X14.  [init_db] on an existing database succeeds when every
    enumerated column has its table, and otherwise fails on the first
    table that is missing.  The mirror it builds has one dictionary
    for each column, all its keys are strings, and a meaning has a
    code in the dictionary only if the table holds the pair; when the
    meanings of the table are distinct, as the schema requires, the
    dictionary gives each meaning of the table its code. *)
Theorem init_db_mirrors_the_tables (E : Env) (db : Db) :
  match init_db E db with
  | Ok enums =>
      NoDup (map fst enums)
      /\ (forall k, In k (map fst enums) <-> In k (enum_cols E))
      /\ forall ec, In ec (enum_cols E) ->
           exists rows e,
             assoc ec (Enumeration db) = Some rows
             /\ assoc ec enums = Some e
             /\ (forall key c, In (key, c) e -> exists m, key = PStr m)
             /\ (forall c m, enum_lookup (PStr m) e = Some c -> In (c, m) rows)
             /\ (NoDup (map snd rows) ->
                 forall c m, In (c, m) rows -> enum_lookup (PStr m) e = Some c)
  | Raise e =>
      e = OperationalError
      /\ exists ec, In ec (enum_cols E) /\ assoc ec (Enumeration db) = None
  end.
Proof.
  rewrite init_db_load_all.
  destruct (load_all (enum_cols E) (Enumeration db) []) as [enums | e] eqn:H.
  - destruct (load_all_NoDup _ _ _ _ H (NoDup_nil _)) as [Hnd Hk].
    destruct (load_all_values _ _ _ _ H) as [Hv _].
    split; [assumption |].
    split; [intros k; rewrite Hk; simpl; tauto |].
    intros ec Hec. destruct (Hv ec Hec) as (rows & Hr & He).
    exists rows, (load_enum rows). split; [assumption |]. split; [assumption |].
    split.
    { intros key c Hin. pose proof (load_enum_text rows) as Ht.
      rewrite Forall_forall in Ht. exact (Ht _ Hin). }
    apply load_enum_lookup.
  - now apply load_all_raise in H.
Qed.

(* ================================================================== *)
(** ** The mirror and the tables *)
(* ================================================================== *)

Lemma in_step_ahead (T : list (string * list (Z * string))) (enums : Enums)
    (ec : string) :
  in_step T enums ec -> ahead T enums ec.
Proof.
  intros (known & Hnd & Ht & He). exists known, [].
  rewrite app_nil_r. auto.
Qed.

Lemma normalize_col_ahead (T : list (string * list (Z * string)))
    (d : list (string * pyval)) (enums enums' : Enums) (y : pyval) (ec : string) :
  normalize_col (PDict d, enums) ec = Ok (y, enums') ->
  ahead T enums ec ->
  (forall v, assoc ec d = Some v -> truthy v = true -> exists m, v = PStr m) ->
  (forall c, ahead T enums c -> ahead T enums' c)
  /\ map fst enums' = map fst enums
  /\ exists d', y = PDict d'
       /\ forall k v, assoc k d' = Some v -> truthy v = true -> assoc k d = Some v.
Proof.
  intros H Hah Htxt.
  destruct (assoc ec d) as [v |] eqn:Hv.
  2:{ unfold normalize_col, getitem in H. rewrite Hv in H. discriminate. }
  rewrite (normalize_col_eq _ enums _ _ Hv) in H.
  destruct (existsb (py_eq_str v) na_like_values).
  { injection H as <- <-. split; [auto |]. split; [reflexivity |].
    eexists. split; [reflexivity |]. intros k v0 Hk Ht.
    destruct (string_dec k ec) as [-> | Hne].
    - rewrite assoc_set_same in Hk. injection Hk as <-. discriminate.
    - now rewrite assoc_set_other in Hk. }
  destruct (truthy v) eqn:Htr.
  2:{ injection H as <- <-. split; [auto |]. split; [reflexivity |]. eauto. }
  destruct (Htxt v eq_refl Htr) as [m ->].
  destruct Hah as (known & news & Hnd & Ht & He).
  unfold enums_get in H. rewrite He in H. cbn [res_bind] in H.
  rewrite setdefault_seen in H. cbn [res_bind] in H. injection H as <- <-.
  split.
  { intros c Hc. destruct (string_dec c ec) as [-> | Hne].
    - unfold seen. destruct (existsb (String.eqb m) (known ++ news)) eqn:Hex.
      + exists known, news. rewrite assoc_set_same. auto.
      + exists known, (news ++ [m]). rewrite assoc_set_same, app_assoc.
        split; [| auto].
        apply NoDup_app; [assumption | repeat constructor; intros [] |].
        intros x Hx [<- | []]. apply existsb_eqb_In in Hx. congruence.
    - destruct Hc as (k1 & n1 & H1 & H2 & H3). exists k1, n1.
      rewrite assoc_set_other by assumption. auto. }
  split; [eapply assoc_set_keys; eauto |]. eauto.
Qed.

Lemma normalize_cols_ahead (T : list (string * list (Z * string)))
    (cols : list string) :
  forall todo d enums y enums',
    for_each normalize_col todo (PDict d, enums) = Ok (y, enums') ->
    incl todo cols ->
    (forall ec, In ec cols -> ahead T enums ec) ->
    (forall ec v, In ec cols -> assoc ec d = Some v -> truthy v = true ->
                  exists m, v = PStr m) ->
    (forall ec, In ec cols -> ahead T enums' ec)
    /\ map fst enums' = map fst enums.
Proof.
  induction todo as [|c todo IH]; intros d enums y enums' H Hinc Hah Htxt.
  - simpl in H. injection H as _ <-. auto.
  - cbn [for_each] in H.
    destruct (normalize_col (PDict d, enums) c) as [[y1 en1] |] eqn:Hc;
      [| discriminate].
    cbn [res_bind] in H.
    assert (Hcin : In c cols) by (apply Hinc; now left).
    destruct (normalize_col_ahead T d enums en1 y1 c Hc (Hah c Hcin))
      as (Hah1 & Hk1 & d1 & -> & Hd1).
    { intros v Hv Ht. eapply Htxt; eauto. }
    destruct (IH d1 en1 y enums' H) as [Hah2 Hk2].
    + intros x Hx. apply Hinc. now right.
    + intros ec Hec. apply Hah1. now apply Hah.
    + intros ec v Hec Hv Ht. eapply Htxt; eauto.
    + split; [assumption | congruence].
Qed.

Lemma save_events_ahead (E : Env) (site : Site) (t : datetime)
    (T : list (string * list (Z * string))) :
  forall events enums out en' out',
    for_each (save_event E site t) events (enums, out) = Ok (en', out') ->
    Forall (fun ev : Event => textual E (snd ev)) events ->
    (forall ec, In ec (enum_cols E) -> ahead T enums ec) ->
    (forall ec, In ec (enum_cols E) -> ahead T en' ec)
    /\ map fst en' = map fst enums.
Proof.
  induction events as [|ev events IH]; intros enums out en' out' H Htx Hah.
  - simpl in H. injection H as <- _. auto.
  - cbn [for_each] in H.
    destruct (save_event E site t (enums, out) ev) as [[en1 out1] |] eqn:Hev;
      [| discriminate].
    cbn [res_bind] in H. destruct ev as [[p ix] desc].
    inversion Htx as [|? ? Htx0 Htx']; subst. cbn [snd] in Htx0.
    apply save_event_ok in Hev.
    destruct Hev as (desc' & row & Hk & Hn & _ & _).
    destruct desc as [| | | | |d]; try discriminate.
    destruct (normalize_cols_ahead T (enum_cols E) _ _ _ _ _ Hn
                (incl_refl _) Hah) as [Hah1 Hk1].
    { intros ec v Hec Hv Ht. apply (Htx0 ec v Hec); [| assumption].
      unfold getitem. now rewrite Hv. }
    destruct (IH _ _ _ _ H Htx' Hah1) as [Hah2 Hk2].
    split; [assumption | congruence].
Qed.

Lemma persist_enums_in_step (en : Enums) :
  forall todo T T',
    for_each (fun enumeration ec =>
                (rows <- table ec enumeration ;;
                 e <- enums_get en ec ;;
                 Ok (assoc_set ec (persist_enum rows e) enumeration))%res)
             todo T = Ok T' ->
    (forall ec, ahead T en ec -> ahead T' en ec)
    /\ (forall ec, in_step T en ec -> in_step T' en ec)
    /\ (forall ec, In ec todo -> ahead T en ec -> in_step T' en ec).
Proof.
  induction todo as [|c todo IH]; intros T T' H.
  - simpl in H. injection H as <-. split; [auto |]. split; [auto |].
    intros ec [].
  - cbn [for_each] in H. unfold table in H at 1.
    destruct (assoc c T) as [rows |] eqn:Hrows; [| discriminate].
    cbn [res_bind] in H. unfold enums_get in H at 1.
    destruct (assoc c en) as [e |] eqn:He; [| discriminate].
    cbn [res_bind] in H.
    set (T1 := assoc_set c (persist_enum rows e) T) in *.
    assert (Hsync : ahead T en c -> in_step T1 en c).
    { intros (known & news & Hnd & Ht & Hm).
      rewrite Hrows in Ht. injection Ht as ->.
      rewrite He in Hm. injection Hm as ->.
      exists (known ++ news). split; [assumption |].
      unfold T1. rewrite assoc_set_same, persist_extends by assumption. auto. }
    assert (Hother : forall ec, ec <> c -> assoc ec T1 = assoc ec T).
    { intros ec Hne. unfold T1. now apply assoc_set_other. }
    assert (Hah1 : forall ec, ahead T en ec -> ahead T1 en ec).
    { intros ec Hec. destruct (string_dec ec c) as [-> | Hne].
      - now apply in_step_ahead, Hsync.
      - destruct Hec as (k1 & n1 & H1 & H2 & H3). exists k1, n1.
        rewrite Hother by assumption. auto. }
    assert (Hin1 : forall ec, in_step T en ec -> in_step T1 en ec).
    { intros ec Hec. destruct (string_dec ec c) as [-> | Hne].
      - now apply Hsync, in_step_ahead.
      - destruct Hec as (k1 & H1 & H2 & H3). exists k1.
        rewrite Hother by assumption. auto. }
    destruct (IH _ _ H) as (IH1 & IH2 & IH3).
    split; [auto |]. split; [auto |].
    intros ec [<- | Hin] Hec; [apply IH2; now apply Hsync |].
    apply IH3; auto.
Qed.

(** X15.  Let the mirror be the one [init_db] loads from the
    database, the codes of every enumeration table being the ranks of
    its meanings, as in a database the program has filled by itself.
    After a [save] of events whose categorical values are strings or
    have no truth, the same holds again: the tables number their
    meanings by rank, and the mirror the run goes on with is exactly
    the mirror a restart would load from the database. *)
Theorem mirror_is_what_a_restart_loads (E : Env) (site : Site)
    (events : list Event) (t : datetime) (enums enums' : Enums) (db db' : Db) :
  init_db E db = Ok enums ->
  ranked E db ->
  Forall (fun ev : Event => textual E (snd ev)) events ->
  save E site events t (enums, db) = Ok (enums', db') ->
  init_db E db' = Ok enums' /\ ranked E db'.
Proof.
  intros Hinit Hrank Htx H.
  rewrite init_db_load_all in Hinit.
  destruct (load_all_values _ _ _ _ Hinit) as [Hval _].
  destruct (load_all_NoDup _ _ _ _ Hinit (NoDup_nil _)) as [Hnd Hkeys].
  assert (Hstep : forall ec, In ec (enum_cols E) ->
                             in_step (Enumeration db) enums ec).
  { intros ec Hec. destruct (Hrank ec Hec) as (known & Hk & Ht).
    destruct (Hval ec Hec) as (rows & Hr & He).
    rewrite Ht in Hr. injection Hr as <-.
    exists known. rewrite He, load_table by assumption. auto. }
  assert (Hgoal : forall en T,
            (forall ec, In ec (enum_cols E) -> in_step T en ec) ->
            map fst en = map fst enums ->
            load_all (enum_cols E) T [] = Ok en
            /\ forall ec, In ec (enum_cols E) ->
                 exists known, NoDup known /\ assoc ec T = Some (table_of known)).
  { intros en T Hs Hk. split.
    - destruct (load_all_total (enum_cols E) T) with (acc := @nil (string * Enum))
        as [r Hr].
      { intros ec Hec. destruct (Hs ec Hec) as (known & _ & Ht & _). eauto. }
      rewrite Hr. f_equal.
      destruct (load_all_values _ _ _ _ Hr) as [Hv2 _].
      destruct (load_all_NoDup _ _ _ _ Hr (NoDup_nil _)) as [Hnd2 Hkeys2].
      apply assoc_ext; [assumption | |].
      + rewrite Hk. eapply load_all_keys; eauto.
      + intros k Hkin. apply Hkeys2 in Hkin. destruct Hkin as [[] | Hkin].
        destruct (Hv2 k Hkin) as (rows & Hr2 & He2).
        destruct (Hs k Hkin) as (known & Hkn & Ht & Hm).
        rewrite Ht in Hr2. injection Hr2 as <-.
        rewrite He2, Hm, load_table by assumption. reflexivity.
    - intros ec Hec. destruct (Hs ec Hec) as (known & Hkn & Ht & _). eauto. }
  unfold save in H. destruct events as [|ev events].
  - injection H as <- <-. apply Hgoal; auto.
  - destruct (for_each (save_event E site t) (ev :: events) (enums, []))
      as [[en out] |] eqn:Hout; [| discriminate].
    cbn [res_bind] in H.
    destruct (persist_enums E en (Enumeration db)) as [enumeration |] eqn:Hp;
      [| discriminate].
    cbn [res_bind] in H.
    destruct (for_each (insert_event E enumeration) out (Events db))
      as [rows |]; [| discriminate].
    cbn [res_bind] in H. injection H as <- <-.
    destruct (save_events_ahead E site t (Enumeration db) _ _ _ _ _ Hout Htx)
      as [Hah Hk].
    { intros ec Hec. now apply in_step_ahead, Hstep. }
    destruct (persist_enums_in_step en _ _ _ Hp) as (_ & _ & Hsync).
    unfold ranked. cbn [Enumeration]. rewrite init_db_load_all. cbn [Enumeration].
    apply Hgoal; [| assumption].
    intros ec Hec. apply Hsync; auto.
Qed.

(* ================================================================== *)
(** ** Coordinates *)
(* ================================================================== *)





(* ================================================================== *)
(** ** A snapshot without data *)
(* ================================================================== *)

(** X17.  When the site has no data for a snapshot, its one top tile
    being refused at the time requested and 30, 60 and 90 seconds
    later, the turn of [main] for the snapshot sends these four
    requests and no other, stores no row and no code, and moves the
    cursor of the job on by the increment: the job does not stay on a
    snapshot that is missing. *)
Theorem snapshot_without_data_is_passed (E : Env) (tiles_fuel : nat)
    (enums : Enums) (db : Db) (job : Job) (site : Site) (anchor : QuadKey)
    (w : World) :
  select_job db = Some job ->
  py_nth sites (job_site job) = Ok site ->
  top_tiles site = [anchor] ->
  (forall k, (k < 4)%nat ->
     refused (get E (k + n_requests w)
                (request_url site (shifted k (start_time site job)) anchor))) ->
  exists j,
    main_step E (S tiles_fuel) (enums, db) w
    = (Return (Some (enums,
         {| Jobs := update_time_next
                      (timestamp (tz site)
                         (dt_add (start_time site job) query_time_increment))
                      (job_id job) (Jobs db);
            Events := Events db;
            Enumeration := Enumeration db |})),
       {| n_requests := 4 + n_requests w; journal := journal w ++ j |})
    /\ requests_of j
       = map (fun k => request_url site (shifted k (start_time site job)) anchor)
           [0; 1; 2; 3]%nat.
Proof.
  intros Hj Hs Htop Href.
  set (t0 := start_time site job) in *.
  pose proof (fetch_anchor_given_up E site anchor [] Htop t0 w
                (Href 0%nat ltac:(lia)) (Href 1%nat ltac:(lia))
                (Href 2%nat ltac:(lia)) (Href 3%nat ltac:(lia))) as Hf.
  cbv beta zeta in Hf.
  match type of Hf with
  | _ = (Return (?r, ?t4), {| n_requests := _; journal := _ ++ ?j |}) =>
      assert (Hsc : scrape E (S tiles_fuel) site t0 w
                    = (Return ([], t4),
                       {| n_requests := 4 + n_requests w;
                          journal := journal w ++ j |}));
      [| exists j; split;
         [apply (main_step_commit E (S tiles_fuel) enums enums db db job site
                   [] t4 w _ Hj Hs Hsc eq_refl)
         | rewrite !requests_of_app, !requests_of_got; reflexivity]]
  end.
  unfold scrape. rewrite Htop.
  rewrite (scrape_loop_skip _ _ _ _ _ _ _ _ _ _ _ _ Hf)
    by (apply (Href 3%nat); lia).
  destruct tiles_fuel; reflexivity.
Qed.

(* ================================================================== *)
(** ** An event met twice *)
(* ================================================================== *)

Lemma assoc_set_id {A} (k : string) (v : A) (l : list (string * A)) :
  assoc k l = Some v -> assoc_set k v l = l.
Proof.
  induction l as [|[k' v'] l IH]; simpl; [discriminate |].
  destruct (String.eqb k k') eqn:He.
  - apply String.eqb_eq in He. subst. intros H. now injection H as ->.
  - intros H. now rewrite IH.
Qed.

Lemma py_eqb_refl_hashable (v : pyval) : hashable v = true -> py_eqb v v = true.
Proof.
  destruct v; simpl; try discriminate; intros _.
  - reflexivity.
  - now destruct b.
  - apply Z.eqb_refl.
  - apply String.eqb_refl.
Qed.

Lemma py_eqb_refl_falsy (v : pyval) : truthy v = false -> py_eqb v v = true.
Proof.
  destruct v as [| b | z | s | l | d]; simpl.
  - reflexivity.
  - now destruct b.
  - intros _. apply Z.eqb_refl.
  - intros _. apply String.eqb_refl.
  - destruct l; [reflexivity | discriminate].
  - destruct d; [reflexivity | discriminate].
Qed.

(** After [setdefault] the key has a code. *)
Lemma setdefault_lookup (e e' : Enum) (key : pyval) (default : Z) :
  setdefault e key default = Ok e' -> exists c, enum_lookup key e' = Some c.
Proof.
  unfold setdefault. destruct (hashable key) eqn:Hh; [| discriminate].
  destruct (enum_lookup key e) as [c |] eqn:Hl; intros H; injection H as <-.
  - eauto.
  - exists default. rewrite enum_lookup_app, Hl. cbn [enum_lookup].
    now rewrite py_eqb_refl_hashable.
Qed.

(** Normalising a column again, with a mirror that has kept the codes
    of the first time, gives the same description and leaves that
    mirror as it is. *)
Lemma normalize_col_again (x y : pyval) (enums e1 en : Enums) (c : string) :
  normalize_col (x, enums) c = Ok (y, e1) ->
  codes_kept e1 en ->
  normalize_col (x, en) c = Ok (y, en).
Proof.
  intros H Hk. destruct x as [| | | | |d]; try discriminate.
  destruct (assoc c d) as [v |] eqn:Hv.
  2:{ unfold normalize_col, getitem in H. rewrite Hv in H. discriminate. }
  rewrite (normalize_col_eq _ enums _ _ Hv) in H.
  rewrite (normalize_col_eq _ en _ _ Hv).
  destruct (existsb (py_eq_str v) na_like_values).
  { injection H as <- _. reflexivity. }
  destruct (truthy v); [| injection H as <- _; reflexivity].
  unfold enums_get in H.
  destruct (assoc c enums) as [e |] eqn:He; [| discriminate].
  cbn [res_bind] in H.
  destruct (setdefault e v (len e)) as [e' |] eqn:Hs; [| discriminate].
  cbn [res_bind] in H. injection H as <- <-.
  destruct (setdefault_lookup _ _ _ _ Hs) as [code Hc].
  destruct (Hk c e' v code) as (e'' & He'' & Hc''); [apply assoc_set_same | exact Hc |].
  unfold enums_get. rewrite He''. cbn [res_bind]. unfold setdefault.
  replace (hashable v) with true
    by (unfold setdefault in Hs; destruct (hashable v); [reflexivity | discriminate]).
  rewrite Hc''. cbn [res_bind]. now rewrite assoc_set_id.
Qed.

Lemma normalize_cols_again (cols : list string) :
  forall x y enums e1 en,
    for_each normalize_col cols (x, enums) = Ok (y, e1) ->
    codes_kept e1 en ->
    for_each normalize_col cols (x, en) = Ok (y, en).
Proof.
  induction cols as [|c cols IH]; intros x y enums e1 en H Hk.
  - simpl in H. injection H as <- _. reflexivity.
  - cbn [for_each] in *.
    destruct (normalize_col (x, enums) c) as [[x1 e0] |] eqn:Hc; [| discriminate].
    cbn [res_bind] in H.
    rewrite (normalize_col_again x x1 enums e0 en c Hc).
    + cbn [res_bind]. eapply IH; eauto.
    + eapply codes_kept_trans; [eapply normalize_cols_keep; eauto | exact Hk].
Qed.

(** Normalising keeps every value but ['Not Supplied']. *)
Lemma normalize_cols_value (cols : list string) :
  forall d y enums e1 k v,
    for_each normalize_col cols (PDict d, enums) = Ok (y, e1) ->
    assoc k d = Some v -> v <> PStr "Not Supplied" ->
    exists d', y = PDict d' /\ assoc k d' = Some v.
Proof.
  induction cols as [|c cols IH]; intros d y enums e1 k v H Hv Hne.
  - simpl in H. injection H as <- _. eauto.
  - cbn [for_each] in H.
    destruct (normalize_col (PDict d, enums) c) as [[x1 e0] |] eqn:Hc;
      [| discriminate].
    cbn [res_bind] in H.
    destruct (assoc c d) as [vc |] eqn:Hvc.
    2:{ unfold normalize_col, getitem in Hc. rewrite Hvc in Hc. discriminate. }
    rewrite (normalize_col_eq _ enums _ _ Hvc) in Hc.
    destruct (existsb (py_eq_str vc) na_like_values) eqn:Hna.
    + injection Hc as <- <-. eapply IH; eauto.
      destruct (string_dec k c) as [-> | Hkc]; [| now rewrite assoc_set_other].
      apply na_like_iff in Hna. congruence.
    + destruct (truthy vc).
      * destruct (enums_get enums c) as [e |]; [| discriminate].
        cbn [res_bind] in Hc.
        destruct (setdefault e vc (len e)); [| discriminate].
        injection Hc as <- <-. eapply IH; eauto.
      * injection Hc as <- <-. eapply IH; eauto.
Qed.

Lemma enum_cell_kept (desc : pyval) (e1 en : Enums) (ec : string) (c : pyval) :
  enum_cell desc e1 ec = Ok c -> codes_kept e1 en -> enum_cell desc en ec = Ok c.
Proof.
  unfold enum_cell. intros H Hk.
  destruct (getitem desc ec) as [v |]; [| discriminate]. cbn [res_bind] in *.
  destruct (truthy v); [| assumption].
  unfold enums_get in *.
  destruct (assoc ec e1) as [e |] eqn:He; [| discriminate]. cbn [res_bind] in H.
  destruct (enum_lookup v e) as [code |] eqn:Hl; [| discriminate].
  destruct (Hk ec e v code He Hl) as (e' & He' & Hl').
  rewrite He'. cbn [res_bind]. now rewrite Hl'.
Qed.

Lemma cells_kept (desc : pyval) (e1 en : Enums) (cols : list string) :
  codes_kept e1 en ->
  forall acc cells,
    for_each (fun cells ec =>
                (c <- enum_cell desc e1 ec ;; Ok (assoc_set ec c cells))%res)
             cols acc = Ok cells ->
    for_each (fun cells ec =>
                (c <- enum_cell desc en ec ;; Ok (assoc_set ec c cells))%res)
             cols acc = Ok cells.
Proof.
  intros Hk. induction cols as [|c0 cols IH]; intros acc cells H.
  - exact H.
  - cbn [for_each] in *.
    destruct (enum_cell desc e1 c0) as [v |] eqn:Hc; [| discriminate].
    rewrite (enum_cell_kept _ _ _ _ _ Hc Hk). cbn [res_bind] in *. now apply IH.
Qed.

Lemma make_row_kept (E : Env) (site : Site) (t : datetime) (p : Q * Q) (ix : Z)
    (desc : pyval) (e1 en : Enums) (d : Row) :
  make_row E site t p ix desc e1 = Ok d ->
  codes_kept e1 en ->
  make_row E site t p ix desc en = Ok d.
Proof.
  unfold make_row. destruct p as [lon lat]. intros H Hk.
  destruct (getitem desc "cust_a") as [ca |]; [| discriminate].
  cbn [res_bind] in *.
  destruct (val1 ca "val") as [cust |]; [| discriminate]. cbn [res_bind] in *.
  destruct (getitem desc "etr") as [etr |]; [| discriminate].
  cbn [res_bind] in *.
  destruct (encode_etr E etr) as [etr' |]; [| discriminate]. cbn [res_bind] in *.
  match type of H with
  | (res_bind ?m _ = _) => destruct m as [cells |] eqn:Hcells; [| discriminate]
  end.
  rewrite (cells_kept _ _ _ _ Hk _ _ Hcells). exact H.
Qed.

(** *** A row is equal to itself *)

Lemma In_assoc {A} (k : string) (v : A) (l : list (string * A)) :
  NoDup (map fst l) -> In (k, v) l -> assoc k l = Some v.
Proof.
  induction l as [|[k' v'] l IH]; intros Hnd Hin; [destruct Hin |].
  simpl in Hnd. inversion Hnd as [|? ? Hk Hnd']; subst.
  cbn [assoc]. destruct Hin as [Heq | Hin].
  - injection Heq as -> ->. now rewrite String.eqb_refl.
  - destruct (String.eqb k k') eqn:He; [| now apply IH].
    apply String.eqb_eq in He. subst. exfalso. apply Hk.
    apply in_map_iff. exists (k', v). auto.
Qed.

Lemma py_eqb_dict_refl (d : list (string * pyval)) :
  NoDup (map fst d) ->
  (forall k v, In (k, v) d -> py_eqb v v = true) ->
  py_eqb (PDict d) (PDict d) = true.
Proof.
  intros Hnd Hv. cbn [py_eqb]. rewrite Nat.eqb_refl. cbn [andb].
  match goal with
  | |- ?f d = true => assert (G : forall l, incl l d -> f l = true)
  end.
  { induction l as [|[k v] l IH]; intros Hinc; [reflexivity |].
    simpl. rewrite IH by (intros x Hx; apply Hinc; now right).
    rewrite andb_true_r.
    assert (Ha : assoc k d = Some v)
      by (apply In_assoc; [assumption | apply Hinc; now left]).
    assert (Hr : py_eqb v v = true) by (apply (Hv k); apply Hinc; now left).
    clear - Ha Hr. induction d as [|[k' v'] d IH]; [discriminate |].
    simpl. cbn [assoc] in Ha. destruct (String.eqb k k'); [| now apply IH].
    now injection Ha as ->. }
  apply G, incl_refl.
Qed.

Lemma cells_keys (desc : pyval) (enums : Enums) (cols : list string) :
  forall acc cells,
    for_each (fun cells ec =>
                (c <- enum_cell desc enums ec ;; Ok (assoc_set ec c cells))%res)
             cols acc = Ok cells ->
    NoDup (map fst acc) ->
    (forall k v, In (k, v) acc -> py_eqb v v = true) ->
    NoDup (map fst cells) /\ forall k v, In (k, v) cells -> py_eqb v v = true.
Proof.
  induction cols as [|c0 cols IH]; intros acc cells H Hnd Hv.
  - simpl in H. injection H as <-. auto.
  - cbn [for_each] in H.
    destruct (enum_cell desc enums c0) as [v0 |] eqn:Hc; [| discriminate].
    cbn [res_bind] in H. apply IH in H; [assumption | |].
    + destruct (assoc c0 acc) as [v1 |] eqn:Ha.
      * now rewrite (assoc_set_keys _ _ _ _ Ha).
      * rewrite (assoc_set_keys_new _ _ _ Ha).
        apply NoDup_app; [assumption | repeat constructor; intros [] |].
        intros x Hx [<- | []]. now apply assoc_none_iff in Ha.
    + assert (Hr0 : py_eqb v0 v0 = true).
      { unfold enum_cell in Hc.
        destruct (getitem desc c0) as [v |]; [| discriminate].
        cbn [res_bind] in Hc. destruct (truthy v) eqn:Ht.
        - destruct (enums_get enums c0) as [e |]; [| discriminate].
          cbn [res_bind] in Hc.
          destruct (enum_lookup v e); [| discriminate].
          injection Hc as <-. apply Z.eqb_refl.
        - injection Hc as <-. now apply py_eqb_refl_falsy. }
      clear - Hv Hr0. induction acc as [|[k1 v1] acc IHa]; intros k v Hin.
      * destruct Hin as [Heq | []]. now injection Heq as _ <-.
      * cbn [assoc_set] in Hin. destruct (String.eqb c0 k1).
        { destruct Hin as [Heq | Hin]; [now injection Heq as _ <- |].
          apply (Hv k). now right. }
        { destruct Hin as [Heq | Hin].
          - injection Heq as <- <-. apply (Hv k1). now left.
          - apply (IHa (fun k v H => Hv k v (or_intror H)) k v Hin). }
Qed.

Lemma encode_etr_refl (E : Env) (etr v : pyval) :
  encode_etr E etr = Ok v -> py_eqb v v = true.
Proof.
  unfold encode_etr.
  destruct (py_eq_str etr "ETR-NULL"); [intros H; now injection H as <- |].
  destruct (py_eq_str etr "ETR-EXP"); [intros H; now injection H as <- |].
  destruct etr; try discriminate.
  destruct (fromisoformat E _); [| discriminate].
  intros H. injection H as <-. apply Z.eqb_refl.
Qed.

Lemma make_row_refl (E : Env) (site : Site) (t : datetime) (p : Q * Q) (ix : Z)
    (desc : pyval) (enums : Enums) (d : Row) (n : Z) :
  make_row E site t p ix desc enums = Ok d ->
  getitem desc "cust_a" = Ok (PDict [("val", PInt n)]) ->
  py_eqb (PDict d) (PDict d) = true.
Proof.
  unfold make_row. destruct p as [lon lat]. intros H Hca.
  rewrite Hca in H. cbn [res_bind] in H.
  replace (val1 (PDict [("val", PInt n)]) "val") with (Ok (PInt n)) in H
    by (symmetry; now apply val1_ok).
  cbn [res_bind] in H.
  destruct (getitem desc "etr") as [etr |]; [| discriminate].
  cbn [res_bind] in H.
  destruct (encode_etr E etr) as [etr' |] eqn:Hetr; [| discriminate].
  cbn [res_bind] in H.
  match type of H with
  | (res_bind ?m _ = _) => destruct m as [cells |] eqn:Hcells; [| discriminate]
  end.
  cbn [res_bind] in H.
  match type of H with
  | ((if ?b then _ else _) = _) => destruct b eqn:Hb; [discriminate |]
  end.
  injection H as <-.
  destruct (cells_keys _ _ _ _ _ Hcells (NoDup_nil _)) as [Hnd Hv];
    [intros k v [] |].
  apply encode_etr_refl in Hetr.
  set (fixed := [("site", PInt (code site)); ("ilon", PInt (fixed_point E lon));
                 ("ilat", PInt (fixed_point E lat));
                 ("time", PInt (timestamp (tz site) t));
                 ("outage_ix", PInt ix); ("cust_a", PInt n); ("etr", etr')]) in *.
  change (py_eqb (PDict (fixed ++ cells)) (PDict (fixed ++ cells)) = true).
  apply py_eqb_dict_refl.
  - rewrite map_app. apply NoDup_app; [| assumption |].
    + repeat constructor; simpl; intuition discriminate.
    + intros k Hk Hc.
      assert (existsb (fun kv : string * pyval =>
                         existsb (String.eqb (fst kv)) (keys fixed)) cells = true);
        [| congruence].
      apply in_map_iff in Hc. destruct Hc as [[k' v'] [Hfst Hin]].
      cbn [fst] in Hfst. subst k'.
      apply existsb_exists. exists (k, v'). split; [assumption |].
      apply existsb_exists. exists k. split; [exact Hk | apply String.eqb_refl].
  - intros k v Hin. apply in_app_iff in Hin. destruct Hin as [Hin | Hin].
    + unfold fixed in Hin. simpl in Hin.
      repeat (destruct Hin as [Heq | Hin];
              [injection Heq as _ <-; try apply Z.eqb_refl; assumption |]).
      destruct Hin.
    + eapply Hv; eauto.
Qed.

Lemma save_events_out (E : Env) (site : Site) (t : datetime) :
  forall events enums out en' out',
    for_each (save_event E site t) events (enums, out) = Ok (en', out') ->
    incl out out'.
Proof.
  induction events as [|ev events IH]; intros enums out en' out' H.
  - simpl in H. injection H as _ <-. apply incl_refl.
  - cbn [for_each] in H.
    destruct (save_event E site t (enums, out) ev) as [[en1 out1] |] eqn:Hev;
      [| discriminate].
    cbn [res_bind] in H. destruct ev as [[p ix] desc].
    apply save_event_ok in Hev. destruct Hev as (desc' & d & _ & _ & _ & ->).
    apply IH in H. intros x Hx. apply H.
    match goal with
    | |- context [if ?b then _ else _] => destruct b
    end; [assumption | apply in_app_iff; now left].
Qed.

(** An event that was met before changes nothing. *)
Lemma save_event_again (E : Env) (site : Site) (t : datetime)
    (p : Q * Q) (ix : Z) (desc : pyval) (n : Z) :
  getitem desc "cust_a" = Ok (PDict [("val", PInt n)]) ->
  forall events enums out en out',
    for_each (save_event E site t) events (enums, out) = Ok (en, out') ->
    In (p, ix, desc) events ->
    save_event E site t (en, out') (p, ix, desc) = Ok (en, out').
Proof.
  intros Hca. induction events as [|ev events IH]; intros enums out en out' H Hin.
  - destruct Hin.
  - cbn [for_each] in H.
    destruct (save_event E site t (enums, out) ev) as [[en1 out1] |] eqn:Hev;
      [| discriminate].
    cbn [res_bind] in H. destruct Hin as [-> | Hin]; [| eapply IH; eauto].
    pose proof (save_events_keep _ _ _ _ _ _ _ _ H) as Hkept.
    pose proof (save_events_out _ _ _ _ _ _ _ _ H) as Hincl.
    apply save_event_ok in Hev.
    destruct Hev as (desc' & d & Hk & Hn & Hrow & Hout1).
    unfold save_event. rewrite Hk. cbn [res_bind].
    replace (str_list_eqb desc_keys desc_keys) with true by reflexivity.
    cbn [assert res_bind].
    rewrite (normalize_cols_again _ _ _ _ _ _ Hn Hkept). cbn [res_bind].
    rewrite (make_row_kept _ _ _ _ _ _ _ _ _ Hrow Hkept). cbn [res_bind].
    replace (existsb (fun d' => py_eqb (PDict d') (PDict d)) out') with true;
      [reflexivity |].
    symmetry. apply existsb_exists.
    destruct (existsb (fun d' => py_eqb (PDict d') (PDict d)) out) eqn:Hex.
    + apply existsb_exists in Hex. destruct Hex as (d1 & Hd1 & Heq).
      exists d1. split; [| assumption]. apply Hincl. now rewrite Hout1.
    + exists d. split.
      * apply Hincl. rewrite Hout1. apply in_app_iff. right. now left.
      * destruct desc as [| | | | |dd]; try discriminate.
        unfold getitem in Hca.
        destruct (assoc "cust_a" dd) as [ca |] eqn:Hdd; [| discriminate].
        injection Hca as ->.
        destruct (normalize_cols_value _ _ _ _ _ _ _ Hn Hdd) as (d' & -> & Hd');
          [discriminate |].
        eapply make_row_refl; [exact Hrow |]. unfold getitem. now rewrite Hd'.
Qed.

(** X18.  An event that is met a second time in a snapshot, as an
    outage reported by two tiles is, changes nothing of what [save]
    does: the mirror, the rows inserted and the exception raised, if
    one is, are those of the snapshot without the repeat.  (The
    customer count of the event is an integer.) *)
Theorem repeated_event_is_saved_once (E : Env) (site : Site)
    (events : list Event) (t : datetime) (st : Enums * Db)
    (p : Q * Q) (ix : Z) (desc : pyval) (n : Z) :
  In (p, ix, desc) events ->
  getitem desc "cust_a" = Ok (PDict [("val", PInt n)]) ->
  save E site (events ++ [(p, ix, desc)]) t st = save E site events t st.
Proof.
  intros Hin Hca. destruct st as [enums db].
  destruct events as [|ev0 evs]; [destruct Hin |].
  unfold save. cbn [app]. change (ev0 :: evs ++ [(p, ix, desc)])
    with ((ev0 :: evs) ++ [(p, ix, desc)]).
  rewrite for_each_app.
  destruct (for_each (save_event E site t) (ev0 :: evs) (enums, []))
    as [[en out] |] eqn:Hout; [| reflexivity].
  cbn [res_bind for_each].
  rewrite (save_event_again E site t p ix desc n Hca _ _ _ _ _ Hout Hin).
  reflexivity.
Qed.

(* ================================================================== *)
(** ** The site of a job *)
(* ================================================================== *)

(** X19.  The column [site] of a job is an index in the list of
    sites, read as Python reads an index: 0 is the one site of the
    program and so is -1, the last of the list.  With any other value
    the turn of [main] raises [IndexError] before a request is sent,
    and the run ends with the database as it was. *)
Theorem job_site_is_an_index (E : Env) (tiles_fuel fuel : nat)
    (enums : Enums) (db : Db) (job : Job) (w : World) :
  select_job db = Some job ->
  (job_site job = 0 \/ job_site job = -1 ->
   py_nth sites (job_site job) = Ok nyc)
  /\ (job_site job <> 0 -> job_site job <> -1 ->
      py_nth sites (job_site job) = Raise IndexError
      /\ main E tiles_fuel (S fuel) (enums, db) w = (Throw IndexError, db, w)).
Proof.
  intros Hj. split.
  - intros [-> | ->]; reflexivity.
  - intros H0 H1.
    assert (Hn : py_nth sites (job_site job) = Raise IndexError).
    { unfold py_nth, sites, len. cbn [List.length Z.of_nat Pos.of_succ_nat].
      cbv zeta. destruct (job_site job <? 0) eqn:Hneg.
      - destruct (job_site job + 1 <? 0) eqn:Hneg'; [reflexivity |].
        apply Z.ltb_lt in Hneg. apply Z.ltb_ge in Hneg'. lia.
      - rewrite Hneg. apply Z.ltb_ge in Hneg.
        destruct (Z.to_nat (job_site job)) as [|k] eqn:Hk; [lia |].
        cbn [nth_error]. destruct k; reflexivity. }
    split; [exact Hn |].
    cbn [main main_step]. rewrite Hj. unfold bind, lift. rewrite Hn. reflexivity.
Qed.

(* ================================================================== *)
(** ** A snapshot that is all there *)
(* ================================================================== *)

Lemma fetch_ok (E : Env) (site : Site) (tile : QuadKey) (t0 t : datetime)
    (w : World) :
  ok (get E (n_requests w) (request_url site t tile)) = true ->
  fetch E (fetch_fuel t0 t) site tile t0 0 t w
  = (Return (get E (n_requests w) (request_url site t tile), t),
     after_get w (request_url site t tile)).
Proof.
  intros Hok. rewrite fetch_fuel_S, fetch_S. cbv zeta. now rewrite Hok.
Qed.

Lemma scrape_loop_healthy (E : Env) (site : Site) (t0 t : datetime) :
  (forall n url, ok (get E n url) = true) ->
  forall fuel tiles events w,
  exists j,
    journal (snd (scrape_loop E fuel site t0 tiles events t w)) = journal w ++ j
    /\ requests_of j
       = map (request_url site t) (popped_tiles E fuel site t0 tiles events t w)
    /\ pauses retry j = 0%nat
    /\ forall evs t',
         fst (scrape_loop E fuel site t0 tiles events t w) = Return (evs, t') ->
         t' = t.
Proof.
  intros Hok. induction fuel as [|fuel IH]; intros tiles events w.
  - exists []. rewrite app_nil_r.
    destruct tiles; simpl; repeat split; auto; congruence.
  - destruct tiles as [|tile tiles].
    { exists []. rewrite app_nil_r. simpl. repeat split; auto. congruence. }
    rewrite scrape_loop_cons. cbn [popped_tiles].
    rewrite (fetch_ok E site tile t0 t w (Hok _ _)). rewrite Hok. cbn [negb].
    set (r := get E (n_requests w) (request_url site t tile)).
    set (w1 := after_get w (request_url site t tile)).
    assert (Hone : exists j,
              journal w1 = journal w ++ j
              /\ requests_of j = [request_url site t tile]
              /\ pauses retry j = 0%nat).
    { exists (got (n_requests w) (request_url site t tile)).
      rewrite requests_of_got, pauses_got. auto. }
    destruct Hone as (j1 & Hj1 & Hr1 & Hp1).
    destruct (outages <- file_data r ;;
              for_each (process_outage E tile) outages (events, tiles))%res
      as [[ev tl] | e].
    + destruct (IH tl ev w1) as (j2 & Hj2 & Hr2 & Hp2 & Hret).
      exists (j1 ++ j2). rewrite Hj2, Hj1, <- app_assoc.
      split; [reflexivity |].
      rewrite requests_of_app, pauses_app, Hr1, Hr2, Hp1, Hp2.
      repeat split; auto.
    + exists j1. cbn [snd fst]. rewrite Hr1.
      repeat split; auto. discriminate.
Qed.

(** X20.  When every reply is a success, [scrape] sends one request
    for each tile it pops, in the order it pops them and all at the
    time requested, waits for no retry, and returns the time
    requested. *)
Theorem healthy_snapshot_asks_once_per_tile (E : Env) (fuel : nat) (site : Site)
    (t : datetime) (w : World) :
  (forall n url, ok (get E n url) = true) ->
  exists j,
    journal (snd (scrape E fuel site t w)) = journal w ++ j
    /\ requests_of j = map (request_url site t) (scrape_order E fuel site t w)
    /\ pauses retry j = 0%nat
    /\ forall evs t',
         fst (scrape E fuel site t w) = Return (evs, t') -> t' = t.
Proof.
  intros Hok. unfold scrape, scrape_order. now apply scrape_loop_healthy.
Qed.

(* ================================================================== *)
(** * The further properties on the examples *)
(* ================================================================== *)

(** The job of the example is done after one snapshot; a second run
    does nothing. *)
Lemma main_returns_when_all_jobs_done_witness :
  exists db' w',
    main (Demo.env Demo.late) 10 2 (Demo.enums1, Demo.db1) Demo.w0
    = (Return tt, db', w')
    /\ cursors db' = [(1, Some (1600000000 + 15 * 60))]
    /\ main (Demo.env Demo.never) 10 1 (Demo.enums1, db') Demo.w0
       = (Return tt, db', Demo.w0).
Proof.
  let r := eval vm_compute in
      (main (Demo.env Demo.late) 10 2 (Demo.enums1, Demo.db1) Demo.w0) in
  match r with
  | (Return tt, ?db, ?w) =>
      assert (H : main (Demo.env Demo.late) 10 2 (Demo.enums1, Demo.db1) Demo.w0
                  = (Return tt, db, w)) by (vm_compute; reflexivity);
      exists db, w; split; [exact H |]; split; [reflexivity |];
      exact (proj2 (main_returns_when_all_jobs_done _ _ _ _ _ _ _ H)
               (Demo.env Demo.never) 10%nat 0%nat Demo.enums1 Demo.w0)
  end.
Defined.

(** An upstream that is out of order gets three requests for the top
    tile, and no more. *)
Lemma fetch_is_bounded_witness :
  wall Demo.t1 <= wall Demo.t1
  /\ exists j,
       journal (snd (fetch (Demo.env Demo.down) (fetch_fuel Demo.t1 Demo.t1)
                       nyc Demo.top Demo.t1 0 Demo.t1 Demo.w0))
       = journal Demo.w0 ++ j
       /\ (1 <= List.length (requests_of j) <= 12)%nat.
Proof.
  split; [apply Z.le_refl |].
  destruct (fetch_is_bounded (Demo.env Demo.down) nyc Demo.top Demo.t1 Demo.t1
              Demo.w0 (Z.le_refl _)) as (_ & j & Hj & Hn & _).
  exists j. split; assumption.
Defined.

(** With no data at any time the fetch of the top tile returns the
    "forbidden" it got last, and the time after four shifts. *)
Lemma fetch_returns_success_or_forbidden_witness :
  exists r w',
    fetch (Demo.env Demo.never) 12 nyc Demo.top Demo.t1 0 Demo.t1 Demo.w0
    = (Return (r, shifted 4 Demo.t1), w')
    /\ (ok r = true \/ (ok r = false /\ status_code r = forbidden)).
Proof.
  let r := eval vm_compute in
      (fetch (Demo.env Demo.never) 12 nyc Demo.top Demo.t1 0 Demo.t1 Demo.w0) in
  match r with
  | (Return (?r0, ?t), ?w) =>
      assert (H : fetch (Demo.env Demo.never) 12 nyc Demo.top Demo.t1 0 Demo.t1
                    Demo.w0 = (Return (r0, t), w)) by (vm_compute; reflexivity);
      exists r0, w; split; [exact H |];
      exact (proj1 (fetch_returns_success_or_forbidden _ _ _ _ _ _ _ _ _ _ _ H))
  end.
Defined.

(** The snapshot that is found one minute late is dated two shifts
    after the time requested. *)
Lemma snapshot_time_in_window_witness :
  exists events t' w',
    scrape (Demo.env Demo.late) 10 nyc Demo.t1 Demo.w0 = (Return (events, t'), w')
    /\ exists k, (k <= 4)%nat /\ t' = shifted k Demo.t1.
Proof.
  let r := eval vm_compute in
      (scrape (Demo.env Demo.late) 10 nyc Demo.t1 Demo.w0) in
  match r with
  | (Return (?ev, ?t), ?w) =>
      assert (H : scrape (Demo.env Demo.late) 10 nyc Demo.t1 Demo.w0
                  = (Return (ev, t), w)) by (vm_compute; reflexivity);
      exists ev, t, w; split; [exact H |];
      destruct (snapshot_time_in_window (Demo.env Demo.late) 10 nyc Demo.top
                  Demo.t1 Demo.w0 ev t w eq_refl H) as (k & Hk & Ht & _);
      exists k; split; assumption
  end.
Defined.

(** The single event of the example has a geometry with the members
    ['a'] and ['p']; without ['a'] its point is the same. *)
Lemma point_of_a_record_witness :
  decode_point (Demo.env Demo.never)
    (PDict [("geom", PDict [("p", PList [PStr Demo.p_sw])])])
  = decode_point (Demo.env Demo.never) Demo.event_a.
Proof.
  apply (proj1 (proj2 (point_of_a_record (Demo.env Demo.never) Demo.event_a
                         [("a", PList []); ("p", PList [PStr Demo.p_sw])]
                         eq_refl))).
  reflexivity.
Defined.

(** The single event of the example is accepted and gives one event. *)
Lemma single_event_is_checked_witness :
  exists p desc,
    process_outage (Demo.env Demo.never) Demo.top ([], []) Demo.event_a
    = Ok ([] ++ [(p, 1, desc)], []).
Proof.
  let r := eval vm_compute in (decode_point (Demo.env Demo.never) Demo.event_a) in
  match r with
  | Ok ?p =>
      assert (Hp : decode_point (Demo.env Demo.never) Demo.event_a = Ok p)
        by (vm_compute; reflexivity);
      exists p, (Demo.desc false 12 "2021-07-04T10:00-0500" "Tree" "Lights out"
                   PNone);
      apply (proj1 (single_event_is_checked (Demo.env Demo.never) Demo.top [] []
                      Demo.event_a p _ (PBool false) Hp eq_refl eq_refl eq_refl));
      repeat split
  end.
Defined.

(** Saving one event in the database of the example keeps its
    constraints. *)
Lemma save_keeps_constraints_witness :
  exists enums' db',
    save (Demo.env Demo.never) nyc [Demo.ev_c] Demo.t1 (Demo.enums1, Demo.db1)
    = Ok (enums', db')
    /\ constraints_hold (Demo.env Demo.never) db'.
Proof.
  let r := eval vm_compute in
      (save (Demo.env Demo.never) nyc [Demo.ev_c] Demo.t1
         (Demo.enums1, Demo.db1)) in
  match r with
  | Ok (?en, ?db) =>
      assert (H : save (Demo.env Demo.never) nyc [Demo.ev_c] Demo.t1
                    (Demo.enums1, Demo.db1) = Ok (en, db))
        by (vm_compute; reflexivity);
      exists en, db; split; [exact H |];
      apply (proj1 (save_keeps_constraints _ _ _ _ _ _ _ _ H));
      split; constructor
  end.
Defined.

(** The event with no problem reported cannot be saved. *)
Lemma empty_string_is_refused_witness :
  exists e,
    save (Demo.env Demo.never) nyc [Demo.ev_blank] Demo.t1 (Demo.enums1, Demo.db1)
    = Raise e.
Proof.
  refine (proj1 (empty_string_is_refused (Demo.env Demo.never) nyc
                   [Demo.ev_blank] Demo.t1 (Demo.enums1, Demo.db1)
                   (- (7398 # 100), 4075 # 100)%Q 1 _ "reported_problem"
                   (or_introl eq_refl) _ eq_refl)).
  simpl. auto.
Defined.

(** After the first event is saved, a restart loads the mirror the
    run goes on with. *)
Lemma mirror_is_what_a_restart_loads_witness :
  exists enums' db',
    save (Demo.env Demo.never) nyc [Demo.ev_c] Demo.t1 (Demo.enums1, Demo.db1)
    = Ok (enums', db')
    /\ init_db (Demo.env Demo.never) db' = Ok enums'.
Proof.
  assert (Hr : ranked (Demo.env Demo.never) Demo.db1).
  { intros ec Hec. exists []. split; [constructor |].
    simpl in Hec. destruct Hec as [<- | [<- | [<- | []]]]; reflexivity. }
  assert (Ht : Forall (fun ev : Event => textual (Demo.env Demo.never) (snd ev))
                 [Demo.ev_c]).
  { constructor; [| constructor]. intros ec v Hec Hg _.
    simpl in Hec. destruct Hec as [<- | [<- | [<- | []]]];
      vm_compute in Hg; injection Hg as <-; eexists; reflexivity. }
  let r := eval vm_compute in
      (save (Demo.env Demo.never) nyc [Demo.ev_c] Demo.t1
         (Demo.enums1, Demo.db1)) in
  match r with
  | Ok (?en, ?db) =>
      assert (H : save (Demo.env Demo.never) nyc [Demo.ev_c] Demo.t1
                    (Demo.enums1, Demo.db1) = Ok (en, db))
        by (vm_compute; reflexivity);
      exists en, db; split; [exact H |];
      exact (proj1 (mirror_is_what_a_restart_loads (Demo.env Demo.never) nyc
                      [Demo.ev_c] Demo.t1 Demo.enums1 en Demo.db1 db
                      eq_refl Hr Ht H))
  end.
Defined.

(** With no data at any time the job of the example moves on to the
    next snapshot after four requests. *)
Lemma snapshot_without_data_is_passed_witness :
  exists st w',
    main_step (Demo.env Demo.never) 1 (Demo.enums1, Demo.db1) Demo.w0
    = (Return (Some st), w')
    /\ n_requests w' = 4%nat
    /\ Events (snd st) = [].
Proof.
  destruct (snapshot_without_data_is_passed (Demo.env Demo.never) 0
              Demo.enums1 Demo.db1 Demo.job1 nyc Demo.top Demo.w0
              eq_refl eq_refl eq_refl) as (j & Hs & _).
  { intros k _. split; reflexivity. }
  eexists. eexists. split; [exact Hs |]. split; reflexivity.
Defined.

(** The event of the example, met twice. *)
Lemma repeated_event_is_saved_once_witness :
  save (Demo.env Demo.never) nyc ([Demo.ev_c] ++ [Demo.ev_c]) Demo.t1
    (Demo.enums1, Demo.db1)
  = save (Demo.env Demo.never) nyc [Demo.ev_c] Demo.t1 (Demo.enums1, Demo.db1).
Proof.
  exact (repeated_event_is_saved_once (Demo.env Demo.never) nyc [Demo.ev_c]
           Demo.t1 (Demo.enums1, Demo.db1) (- (7398 # 100), 4075 # 100)%Q 1
           Demo.desc_c 3 (or_introl eq_refl) eq_refl).
Defined.

(** The job of the example is at the site 0. *)
Lemma job_site_is_an_index_witness :
  py_nth sites (job_site Demo.job1) = Ok nyc.
Proof.
  apply (proj1 (job_site_is_an_index (Demo.env Demo.never) 0 0 Demo.enums1
                  Demo.db1 Demo.job1 Demo.w0 eq_refl)).
  now left.
Defined.

(** An upstream that always answers, with the cluster to zoom into in
    the top tile, is asked for the top tile and for the one child
    that holds the point. *)
Lemma healthy_snapshot_asks_once_per_tile_witness :
  exists j,
    journal (snd (scrape (Demo.env Demo.steady) 10 nyc Demo.t1 Demo.w0))
    = journal Demo.w0 ++ j
    /\ requests_of j
       = map (request_url nyc Demo.t1)
           (scrape_order (Demo.env Demo.steady) 10 nyc Demo.t1 Demo.w0).
Proof.
  destruct (healthy_snapshot_asks_once_per_tile (Demo.env Demo.steady) 10 nyc
              Demo.t1 Demo.w0) as (j & Hj & Hr & _).
  { intros n url. unfold Demo.env, get, Demo.steady.
    destruct (quadkey_eqb (req_tile url) Demo.top); reflexivity. }
  exists j. split; assumption.
Defined.
